(** * nex-go: PRUDP server dispatch, byte streams and DateTime

    A shallow embedding of the parts of the nex-go sources that the
    specification talks about:

    - [DateTime]      the bit-packed NEX DateTime value (Make and accessors);
    - [ByteStreamIn]  the bounds-checked input stream over a byte buffer;
    - [Types]         the [Readable] interface and the uint32-length-prefixed
                      [Buffer] type (ExtractFrom);
    - [PRUDP]         endpoint binding, inbound dispatch (handleSocketMessage,
                      processPacket) and the outbound path (Send, sendPacket).

    Go integers are modelled as [Z] with their wrap-around written out, byte
    slices as [list byte], the endpoint table as a stdpp [gmap], and run-time
    panics as an explicit outcome.  Part I holds the definitions, Part II the
    statements proved about them. *)

From Stdlib Require Import ZArith Lia List String.
From Stdlib.Strings Require Import Byte.
From stdpp Require Import base option list gmap pretty strings.
Import ListNotations.

Local Open Scope Z_scope.

(** * Part I: the embedding *)

(** ** Go machine integers *)

Module GoInt.

(** [int] and [int64] on a 64-bit target: two's complement wrap-around. *)
Definition wrap_int (z : Z) : Z := (z + 2 ^ 63) mod 2 ^ 64 - 2 ^ 63.

(** Conversions to [uint64], [uint32] and [uint8]. *)
Definition to_uint64 (z : Z) : Z := z mod 2 ^ 64.
Definition to_uint32 (z : Z) : Z := z mod 2 ^ 32.
Definition to_uint8 (z : Z) : Z := z mod 2 ^ 8.

(** [x << k] on [int]. *)
Definition shl_int (x k : Z) : Z := wrap_int (Z.shiftl x k).

(** [x | y] on [int]: bitwise on the two's complement representation. *)
Definition or_int (x y : Z) : Z := Z.lor x y.

Definition in_int (z : Z) : Prop := - 2 ^ 63 <= z < 2 ^ 63.

(** Conversion to [uint16], and to the signed type of [w] bits ([int8],
    [int16], [int32], [int64]). *)
Definition to_uint16 (z : Z) : Z := z mod 2 ^ 16.
Definition to_signed (w : Z) (z : Z) : Z :=
  (z + 2 ^ (w - 1)) mod 2 ^ w - 2 ^ (w - 1).

End GoInt.

(** ** Run-time outcomes: a call returns or the goroutine panics *)

Module GoRuntime.

Inductive outcome (A : Type) : Type :=
| Returns (a : A)
| Panics (msg : string).
Arguments Returns {A} a.
Arguments Panics {A} msg.

#[export] Instance outcome_ret : MRet outcome := fun _ a => Returns a.
#[export] Instance outcome_bind : MBind outcome := fun _ _ f m =>
  match m with
  | Returns a => f a
  | Panics msg => Panics msg
  end.

Definition panics {A} (m : outcome A) : Prop := exists msg, m = Panics msg.

(** [error] values built by [errors.New] and by [fmt.Errorf] with [%s]. *)
Definition error := string.

(** [len(s)] as an [int]. *)
Definition len {A} (s : list A) : Z := Z.of_nat (length s).

(** [s[lo:hi]] on a slice whose capacity equals its length. *)
Definition slice {A} (s : list A) (lo hi : Z) : outcome (list A) :=
  if (0 <=? lo) && (lo <=? hi) && (hi <=? len s)
  then Returns (take (Z.to_nat (hi - lo)) (drop (Z.to_nat lo) s))
  else Panics "slice bounds out of range".

(** [s[lo:]] *)
Definition slice_from {A} (s : list A) (lo : Z) : outcome (list A) :=
  slice s lo (len s).

(** [s[:hi]] *)
Definition slice_to {A} (s : list A) (hi : Z) : outcome (list A) :=
  slice s 0 hi.

(** A byte slice with spare capacity: [spare] is the part of the backing
    array between [len] and [cap].  [s[:hi]] may reach into it, [s[i]]
    may not. *)
Record GoSlice := mkSlice { elems : list byte; spare : list byte }.

Definition cap (s : GoSlice) : Z := len (elems s) + len (spare s).

(** [make([]byte, n)] followed by [copy]: capacity equals length. *)
Definition make_copy (data : list byte) : GoSlice := mkSlice data [].

(** [s[i]] *)
Definition index (s : GoSlice) (i : Z) : outcome byte :=
  if (0 <=? i) && (i <? len (elems s))
  then match elems s !! Z.to_nat i with
       | Some b => Returns b
       | None => Panics "index out of range"
       end
  else Panics "index out of range".

(** [s[:hi]] with [hi] checked against the capacity. *)
Definition reslice_to (s : GoSlice) (hi : Z) : outcome (list byte) :=
  if (0 <=? hi) && (hi <=? cap s)
  then Returns (take (Z.to_nat hi) (elems s ++ spare s))
  else Panics "slice bounds out of range".

#[export] Instance byte_eq_decision : EqDecision byte := Byte.byte_eq_dec.

(** [bytes.Equal] *)
Definition bytes_Equal (a b : list byte) : bool := bool_decide (a = b).

End GoRuntime.

(** ** DateTime *)

Module DateTime.
Import GoInt.

(** [type DateTime struct { value uint64 }] *)
Record DateTime := mkDateTime { value : Z }.

(** [dt.value = uint64(second | (minute << 6) | (hour << 12) | (day << 17)
                       | (month << 22) | (year << 26))] *)
Definition Make (dt : DateTime) (year month day hour minute second : Z)
  : DateTime :=
  mkDateTime
    (to_uint64
       (or_int (or_int (or_int (or_int (or_int second
          (shl_int minute 6)) (shl_int hour 12)) (shl_int day 17))
          (shl_int month 22)) (shl_int year 26))).

Definition Value (dt : DateTime) : Z := value dt.

(** [int(dt.value & 63)] *)
Definition Second (dt : DateTime) : Z := wrap_int (Z.land (value dt) 63).

(** [int((dt.value >> 6) & 63)] *)
Definition Minute (dt : DateTime) : Z :=
  wrap_int (Z.land (Z.shiftr (value dt) 6) 63).

(** [int((dt.value >> 12) & 31)] *)
Definition Hour (dt : DateTime) : Z :=
  wrap_int (Z.land (Z.shiftr (value dt) 12) 31).

(** [int((dt.value >> 17) & 31)] *)
Definition Day (dt : DateTime) : Z :=
  wrap_int (Z.land (Z.shiftr (value dt) 17) 31).

(** [time.Month((dt.value >> 22) & 15)]; [time.Month] is an [int]. *)
Definition Month (dt : DateTime) : Z :=
  wrap_int (Z.land (Z.shiftr (value dt) 22) 15).

(** [int(dt.value >> 26)] *)
Definition Year (dt : DateTime) : Z := wrap_int (Z.shiftr (value dt) 26).

Definition NewDateTime (v : Z) : DateTime := mkDateTime v.

(** [Copy] and [Equals] *)
Definition Copy (dt : DateTime) : DateTime := NewDateTime (value dt).
Definition Equals (dt other : DateTime) : bool := value dt =? value other.

(** Six fields that each fit the bits [Make] gives them. *)
Definition in_fields (year month day hour minute second : Z) : Prop :=
  0 <= second < 64 /\ 0 <= minute < 64 /\ 0 <= hour < 32
  /\ 0 <= day < 32 /\ 0 <= month < 16
  /\ 0 <= year /\ in_int (Z.shiftl year 26).

End DateTime.

(** ** Package types: the Readable interface and Buffer *)

Module Types.
Import GoRuntime.

(** The two methods of [Readable] that [Buffer.ExtractFrom] calls.  Each
    takes the stream, and gives back the Go result pair and the stream
    after the call. *)
Class Readable (R : Type) := {
  ReadPrimitiveUInt32LE : R -> outcome ((Z * option error) * R);
  Read : R -> Z -> outcome ((list byte * option error) * R)
}.

(** [type Buffer []byte] *)
Definition Buffer := list byte.

(** [Buffer.ExtractFrom]: the returned error, the receiver [*b] after the
    call, and the stream after the call. *)
Definition ExtractFrom {R} `{Readable R} (b : Buffer) (readable : R)
  : outcome ((option error * Buffer) * R) :=
  '((length, err), readable) ← ReadPrimitiveUInt32LE readable;
  match err with
  | Some e =>
      mret ((Some ("Failed to read NEX Buffer length. " ++ e)%string, b),
            readable)
  | None =>
      '((value, err), readable) ← Read readable (GoInt.to_uint64 length);
      match err with
      | Some e =>
          mret ((Some ("Failed to read NEX Buffer data. " ++ e)%string, b),
                readable)
      | None => mret ((None, value), readable)
      end
  end.

End Types.

(** ** ByteStreamIn *)

Module ByteStreamIn.
Import GoInt GoRuntime.

(** The embedded [crunch.Buffer]: the bytes and the read offset
    ([ByteOffset], an [int64]). *)
Record ByteStreamIn := mkStream { Bytes : list byte; ByteOffset : Z }.

Definition NewByteStreamIn (data : list byte) : ByteStreamIn :=
  mkStream data 0.

(** The offset lies inside the buffer, whose length is an [int];
    [NewByteStreamIn] and every read below keep it so. *)
Definition in_bounds (bsi : ByteStreamIn) : Prop :=
  0 <= ByteOffset bsi <= len (Bytes bsi) /\ len (Bytes bsi) < 2 ^ 63.

(** [uint64(len(bsi.Bytes()[bsi.ByteOffset():]))] *)
Definition Remaining (bsi : ByteStreamIn) : outcome Z :=
  rest ← slice_from (Bytes bsi) (ByteOffset bsi);
  mret (to_uint64 (len rest)).

(** crunch's [ReadBytesNext(n)]: the [n] bytes at the offset, which then
    moves on by [n]. *)
Definition ReadBytesNext (bsi : ByteStreamIn) (n : Z)
  : outcome (list byte * ByteStreamIn) :=
  out ← slice (Bytes bsi) (ByteOffset bsi) (ByteOffset bsi + n);
  mret (out, mkStream (Bytes bsi) (ByteOffset bsi + n)).

(** Little-endian value of a byte string. *)
Fixpoint le_combine (bs : list byte) : Z :=
  match bs with
  | [] => 0
  | b :: bs' => Z.lor (Z.of_N (Byte.to_N b)) (Z.shiftl (le_combine bs') 8)
  end.

(** crunch's [ReadU32LENext(1)[0]] *)
Definition ReadU32LENext1 (bsi : ByteStreamIn) : outcome (Z * ByteStreamIn) :=
  '(out, bsi') ← ReadBytesNext bsi 4;
  mret (le_combine out, bsi').

(** [Read]: "Returns an error if OOB". *)
Definition Read (bsi : ByteStreamIn) (length : Z)
  : outcome ((list byte * option error) * ByteStreamIn) :=
  remaining ← Remaining bsi;
  if remaining <? length
  then mret (([], Some "Read is OOB"%string), bsi)
  else
    '(out, bsi') ← ReadBytesNext bsi (wrap_int length);
    mret ((out, None), bsi').

(** [ReadRemaining] *)
Definition ReadRemaining (bsi : ByteStreamIn)
  : outcome (list byte * ByteStreamIn) :=
  remaining ← Remaining bsi;
  '((out, _), bsi') ← Read bsi (to_uint64 remaining);
  mret (out, bsi').

(** [ReadPrimitiveUInt32LE] *)
Definition ReadPrimitiveUInt32LE (bsi : ByteStreamIn)
  : outcome ((Z * option error) * ByteStreamIn) :=
  remaining ← Remaining bsi;
  if remaining <? 4
  then mret ((0, Some "Not enough data to read uint32"%string), bsi)
  else
    '(v, bsi') ← ReadU32LENext1 bsi;
    mret ((v, None), bsi').

#[export] Instance ByteStreamIn_Readable : Types.Readable ByteStreamIn := {
  Types.ReadPrimitiveUInt32LE := ReadPrimitiveUInt32LE;
  Types.Read := Read
}.

(** crunch's [ReadByteNext()]: the byte at the offset, which then moves on
    by one. *)
Definition ReadByteNext (bsi : ByteStreamIn) : outcome (byte * ByteStreamIn) :=
  if 0 <=? ByteOffset bsi
  then match Bytes bsi !! Z.to_nat (ByteOffset bsi) with
       | Some b => Returns (b, mkStream (Bytes bsi) (ByteOffset bsi + 1))
       | None => Panics "index out of range"
       end
  else Panics "index out of range".

(** crunch's [ReadU16LENext(1)[0]] and [ReadU64LENext(1)[0]] *)
Definition ReadU16LENext1 (bsi : ByteStreamIn) : outcome (Z * ByteStreamIn) :=
  '(out, bsi') ← ReadBytesNext bsi 2;
  mret (le_combine out, bsi').

Definition ReadU64LENext1 (bsi : ByteStreamIn) : outcome (Z * ByteStreamIn) :=
  '(out, bsi') ← ReadBytesNext bsi 8;
  mret (le_combine out, bsi').

(** [uint8(b)] for a byte [b]. *)
Definition uint8_of_byte (b : byte) : Z := Z.of_N (Byte.to_N b).

(** The shape shared by the primitive readers: if fewer than [width]
    bytes remain, the zero value and an error; else what [read] reads. *)
Definition checked {A} (bsi : ByteStreamIn) (width : Z) (zero : A)
  (msg : string) (read : ByteStreamIn -> outcome (A * ByteStreamIn))
  : outcome ((A * option error) * ByteStreamIn) :=
  remaining ← Remaining bsi;
  if remaining <? width
  then mret ((zero, Some msg), bsi)
  else
    '(v, bsi') ← read bsi;
    mret ((v, None), bsi').

(** [ReadPrimitiveUInt8] *)
Definition ReadPrimitiveUInt8 (bsi : ByteStreamIn)
  : outcome ((Z * option error) * ByteStreamIn) :=
  checked bsi 1 0 "Not enough data to read uint8"
    (fun bsi => '(b, bsi') ← ReadByteNext bsi; mret (uint8_of_byte b, bsi')).

(** [ReadPrimitiveUInt16LE] *)
Definition ReadPrimitiveUInt16LE (bsi : ByteStreamIn)
  : outcome ((Z * option error) * ByteStreamIn) :=
  checked bsi 2 0 "Not enough data to read uint16" ReadU16LENext1.

(** [ReadPrimitiveUInt64LE] *)
Definition ReadPrimitiveUInt64LE (bsi : ByteStreamIn)
  : outcome ((Z * option error) * ByteStreamIn) :=
  checked bsi 8 0 "Not enough data to read uint64" ReadU64LENext1.

(** [ReadPrimitiveInt8]: [int8(bsi.ReadByteNext())] *)
Definition ReadPrimitiveInt8 (bsi : ByteStreamIn)
  : outcome ((Z * option error) * ByteStreamIn) :=
  checked bsi 1 0 "Not enough data to read int8"
    (fun bsi =>
       '(b, bsi') ← ReadByteNext bsi;
       mret (to_signed 8 (uint8_of_byte b), bsi')).

(** [ReadPrimitiveInt16LE]: [int16(bsi.ReadU16LENext(1)[0])] *)
Definition ReadPrimitiveInt16LE (bsi : ByteStreamIn)
  : outcome ((Z * option error) * ByteStreamIn) :=
  checked bsi 2 0 "Not enough data to read int16"
    (fun bsi => '(v, bsi') ← ReadU16LENext1 bsi; mret (to_signed 16 v, bsi')).

(** [ReadPrimitiveInt32LE]: [int32(bsi.ReadU32LENext(1)[0])] *)
Definition ReadPrimitiveInt32LE (bsi : ByteStreamIn)
  : outcome ((Z * option error) * ByteStreamIn) :=
  checked bsi 4 0 "Not enough data to read int32"
    (fun bsi => '(v, bsi') ← ReadU32LENext1 bsi; mret (to_signed 32 v, bsi')).

(** [ReadPrimitiveInt64LE]: [int64(bsi.ReadU64LENext(1)[0])] *)
Definition ReadPrimitiveInt64LE (bsi : ByteStreamIn)
  : outcome ((Z * option error) * ByteStreamIn) :=
  checked bsi 8 0 "Not enough data to read int64"
    (fun bsi => '(v, bsi') ← ReadU64LENext1 bsi; mret (to_signed 64 v, bsi')).

(** [ReadPrimitiveBool]: [bsi.ReadByteNext() == 1] *)
Definition ReadPrimitiveBool (bsi : ByteStreamIn)
  : outcome ((bool * option error) * ByteStreamIn) :=
  checked bsi 1 false "Not enough data to read bool"
    (fun bsi =>
       '(b, bsi') ← ReadByteNext bsi;
       mret (bool_decide (b = Byte.x01), bsi')).

(** A call that returns, and leaves the stream with the same bytes, the
    offset no further back and still inside the buffer. *)
Definition keeps_bounds {A} (bsi : ByteStreamIn)
  (o : outcome (A * ByteStreamIn)) : Prop :=
  exists r bsi',
    o = Returns (r, bsi')
    /\ in_bounds bsi'
    /\ Bytes bsi' = Bytes bsi
    /\ ByteOffset bsi <= ByteOffset bsi'.

End ByteStreamIn.

(** ** StreamOut *)

Module StreamOut.
Import GoInt GoRuntime.

(** The byte with value [z mod 256]. *)
Definition byte_of_Z (z : Z) : byte :=
  default Byte.x00 (Byte.of_N (Z.to_N (z mod 256))).

(** The [n] low-order bytes of [v], least significant first, and most
    significant first. *)
Fixpoint le_bytes (n : nat) (v : Z) : list byte :=
  match n with
  | O => []
  | S n' => byte_of_Z v :: le_bytes n' (v / 256)
  end.

Definition be_bytes (n : nat) (v : Z) : list byte := rev (le_bytes n v).

(** The embedded [crunch.Buffer] of an output stream: the bytes and the
    write offset. *)
Record StreamOut := mkStream { Bytes : list byte; ByteOffset : Z }.

(** [NewStreamOut]: [crunch.NewBuffer()] is empty, with offset 0. *)
Definition NewStreamOut : StreamOut := mkStream [] 0.

(** The offset is at the end of the buffer: so it is after [NewStreamOut]
    and after every write below. *)
Definition at_end (stream : StreamOut) : Prop :=
  ByteOffset stream = len (Bytes stream).

(** crunch's [Grow(n)]: [n] zero bytes appended ([make] panics on a
    negative length). *)
Definition Grow (stream : StreamOut) (n : Z) : outcome StreamOut :=
  if 0 <=? n
  then Returns (mkStream (Bytes stream ++ replicate (Z.to_nat n) Byte.x00)
                  (ByteOffset stream))
  else Panics "makeslice: len out of range".

(** crunch's [WriteBytesNext(data)]: [data] copied over the bytes at the
    offset, which then moves on by [len(data)]. *)
Definition WriteBytesNext (stream : StreamOut) (data : list byte)
  : outcome StreamOut :=
  if (0 <=? ByteOffset stream)
     && (ByteOffset stream + len data <=? len (Bytes stream))
  then Returns
         (mkStream
            (take (Z.to_nat (ByteOffset stream)) (Bytes stream) ++ data
             ++ drop (Z.to_nat (ByteOffset stream + len data)) (Bytes stream))
            (ByteOffset stream + len data))
  else Panics "slice bounds out of range".

(** crunch's [WriteByteNext(b)] *)
Definition WriteByteNext (stream : StreamOut) (b : byte) : outcome StreamOut :=
  WriteBytesNext stream [b].

(** crunch's [WriteU16LENext], [WriteU32LENext], [WriteU64LENext] and the
    big-endian ones, on a slice of one value. *)
Definition WriteU16LENext1 (stream : StreamOut) (v : Z) : outcome StreamOut :=
  WriteBytesNext stream (le_bytes 2 v).
Definition WriteU32LENext1 (stream : StreamOut) (v : Z) : outcome StreamOut :=
  WriteBytesNext stream (le_bytes 4 v).
Definition WriteU64LENext1 (stream : StreamOut) (v : Z) : outcome StreamOut :=
  WriteBytesNext stream (le_bytes 8 v).
Definition WriteU16BENext1 (stream : StreamOut) (v : Z) : outcome StreamOut :=
  WriteBytesNext stream (be_bytes 2 v).
Definition WriteU32BENext1 (stream : StreamOut) (v : Z) : outcome StreamOut :=
  WriteBytesNext stream (be_bytes 4 v).
Definition WriteU64BENext1 (stream : StreamOut) (v : Z) : outcome StreamOut :=
  WriteBytesNext stream (be_bytes 8 v).

(** [WriteBool] *)
Definition WriteBool (stream : StreamOut) (b : bool) : outcome StreamOut :=
  let bVar := if b then 1 else 0 in
  stream ← Grow stream 1;
  WriteByteNext stream (byte_of_Z bVar).

(** [WriteUInt8] and [WriteInt8]: [byte(u8)], [byte(s8)] *)
Definition WriteUInt8 (stream : StreamOut) (u8 : Z) : outcome StreamOut :=
  stream ← Grow stream 1;
  WriteByteNext stream (byte_of_Z u8).

Definition WriteInt8 (stream : StreamOut) (s8 : Z) : outcome StreamOut :=
  stream ← Grow stream 1;
  WriteByteNext stream (byte_of_Z s8).

(** [WriteUInt16LE], [WriteUInt16BE], [WriteInt16LE], [WriteInt16BE] *)
Definition WriteUInt16LE (stream : StreamOut) (u16 : Z) : outcome StreamOut :=
  stream ← Grow stream 2;
  WriteU16LENext1 stream u16.


Definition WriteInt16LE (stream : StreamOut) (s16 : Z) : outcome StreamOut :=
  stream ← Grow stream 2;
  WriteU16LENext1 stream (to_uint16 s16).

Definition WriteInt16BE (stream : StreamOut) (s16 : Z) : outcome StreamOut :=
  stream ← Grow stream 2;
  WriteU16BENext1 stream (to_uint16 s16).

(** [WriteUInt32LE], [WriteUInt32BE], [WriteInt32LE], [WriteInt32BE] *)
Definition WriteUInt32LE (stream : StreamOut) (u32 : Z) : outcome StreamOut :=
  stream ← Grow stream 4;
  WriteU32LENext1 stream u32.


Definition WriteInt32LE (stream : StreamOut) (s32 : Z) : outcome StreamOut :=
  stream ← Grow stream 4;
  WriteU32LENext1 stream (to_uint32 s32).

Definition WriteInt32BE (stream : StreamOut) (s32 : Z) : outcome StreamOut :=
  stream ← Grow stream 4;
  WriteU32BENext1 stream (to_uint32 s32).

(** [WriteUInt64LE], [WriteUInt64BE], [WriteInt64LE], [WriteInt64BE] *)
Definition WriteUInt64LE (stream : StreamOut) (u64 : Z) : outcome StreamOut :=
  stream ← Grow stream 8;
  WriteU64LENext1 stream u64.


Definition WriteInt64LE (stream : StreamOut) (s64 : Z) : outcome StreamOut :=
  stream ← Grow stream 8;
  WriteU64LENext1 stream (to_uint64 s64).

Definition WriteInt64BE (stream : StreamOut) (s64 : Z) : outcome StreamOut :=
  stream ← Grow stream 8;
  WriteU64BENext1 stream (to_uint64 s64).

(** [WriteString]; a Go string is its bytes. *)
Definition WriteString (stream : StreamOut) (str : list byte)
  : outcome StreamOut :=
  let str := str ++ [Byte.x00] in
  let strLength := len str in
  stream ← Grow stream (wrap_int strLength);
  stream ← WriteUInt16LE stream (to_uint16 strLength);
  WriteBytesNext stream str.

(** [WriteBuffer] *)
Definition WriteBuffer (stream : StreamOut) (data : list byte)
  : outcome StreamOut :=
  let dataLength := len data in
  stream ← WriteUInt32LE stream (to_uint32 dataLength);
  if 0 <? dataLength
  then
    stream ← Grow stream (wrap_int dataLength);
    WriteBytesNext stream data
  else mret stream.

(** [WriteQBuffer] *)
Definition WriteQBuffer (stream : StreamOut) (data : list byte)
  : outcome StreamOut :=
  let dataLength := len data in
  stream ← WriteUInt16LE stream (to_uint16 dataLength);
  if 0 <? dataLength
  then
    stream ← Grow stream (wrap_int dataLength);
    WriteBytesNext stream data
  else mret stream.

(** [for i := 0; i < len(list); i++ { write(list[i]) }] *)
Fixpoint writeEach {A} (write : StreamOut -> A -> outcome StreamOut)
  (stream : StreamOut) (list : list A) : outcome StreamOut :=
  match list with
  | [] => mret stream
  | x :: rest => stream ← write stream x; writeEach write stream rest
  end.

(** [WriteListUInt8] *)
Definition WriteListUInt8 (stream : StreamOut) (list : list Z)
  : outcome StreamOut :=
  stream ← WriteUInt32LE stream (to_uint32 (len list));
  writeEach WriteUInt8 stream list.

(** [WriteListUInt16LE] *)
Definition WriteListUInt16LE (stream : StreamOut) (list : list Z)
  : outcome StreamOut :=
  stream ← WriteUInt32LE stream (to_uint32 (len list));
  writeEach WriteUInt16LE stream list.

(** [WriteListUInt32LE] *)
Definition WriteListUInt32LE (stream : StreamOut) (list : list Z)
  : outcome StreamOut :=
  stream ← WriteUInt32LE stream (to_uint32 (len list));
  writeEach WriteUInt32LE stream list.

(** [WriteListUInt64LE] *)
Definition WriteListUInt64LE (stream : StreamOut) (list : list Z)
  : outcome StreamOut :=
  stream ← WriteUInt32LE stream (to_uint32 (len list));
  writeEach WriteUInt64LE stream list.

(** [WriteListString] *)
Definition WriteListString (stream : StreamOut) (strings : list (list byte))
  : outcome StreamOut :=
  let length := len strings in
  stream ← WriteUInt32LE stream (to_uint32 length);
  writeEach WriteString stream strings.

(** [WriteListBuffer] and [WriteListQBuffer] *)
Definition WriteListBuffer (stream : StreamOut) (buffers : list (list byte))
  : outcome StreamOut :=
  let length := len buffers in
  stream ← WriteUInt32LE stream (to_uint32 length);
  writeEach WriteBuffer stream buffers.

Definition WriteListQBuffer (stream : StreamOut) (buffers : list (list byte))
  : outcome StreamOut :=
  let length := len buffers in
  stream ← WriteUInt32LE stream (to_uint32 length);
  writeEach WriteQBuffer stream buffers.

(** [WriteDateTime]: [stream.WriteUInt64LE(datetime.value)] *)
Definition WriteDateTime (stream : StreamOut) (datetime : DateTime.DateTime)
  : outcome StreamOut :=
  WriteUInt64LE stream (DateTime.value datetime).

(** The stream after [data] has been added at its end. *)
Definition appended (stream : StreamOut) (data : list byte) : StreamOut :=
  mkStream (Bytes stream ++ data) (ByteOffset stream + len data).

(** An input stream over what [after] holds, set to read from where
    [before] stood. *)
Definition reader (before after : StreamOut) : ByteStreamIn.ByteStreamIn :=
  ByteStreamIn.mkStream (Bytes after) (ByteOffset before).

End StreamOut.

(** ** The PRUDP server *)

Module PRUDP.
Import GoInt GoRuntime.

(** *** Packets *)

(** The three implementations of [PRUDPPacketInterface]. *)
Inductive Dialect := PRUDPPacketV0 | PRUDPPacketV1 | PRUDPPacketLite.

#[export] Instance Dialect_eq_dec : EqDecision Dialect.
Proof. solve_decision. Defined.

(** [constants.SynPacket] ... [constants.PingPacket] *)
Inductive PacketType :=
| SynPacket | ConnectPacket | DataPacket | DisconnectPacket | PingPacket.

#[export] Instance PacketType_eq_dec : EqDecision PacketType.
Proof. solve_decision. Defined.

(** [constants.PacketFlagAck] ...: the flags the server code tests. *)
Inductive PacketFlag :=
| PacketFlagAck | PacketFlagReliable | PacketFlagNeedsAck
| PacketFlagHasSize | PacketFlagMultiAck.

(** A virtual port: stream type and stream id (the port number), both
    [uint8] as the accessors return them. *)
Record VirtualPort := mkPort { StreamType : Z; StreamID : Z }.

(** The fields of a packet that the server reads and writes through
    [PRUDPPacketInterface]; [dialect] is the dynamic type behind the
    interface, [flags] the flag set as its membership test. *)
Record PRUDPPacket := mkPacket {
  dialect : Dialect;
  packetType : PacketType;
  flags : PacketFlag -> bool;
  sourceVirtualPort : VirtualPort;
  destinationVirtualPort : VirtualPort;
  sessionID : Z;
  sequenceID : Z;
  substreamID : Z;
  fragmentID : Z;
  payload : list byte;
  signature : list byte;
  sendCount : Z;
  sentAt : Z
}.

Definition Type_ (p : PRUDPPacket) : PacketType := packetType p.
Definition HasFlag (p : PRUDPPacket) (f : PacketFlag) : bool := flags p f.
Definition Payload (p : PRUDPPacket) : list byte := payload p.
Definition SubstreamID (p : PRUDPPacket) : Z := substreamID p.

(** [Version()]: 0 for PRUDPv0, 1 for PRUDPv1, 2 for PRUDPLite (the value
    [sendPacket] compares with under "PRUDPLite does not encrypt"). *)
Definition Version (p : PRUDPPacket) : Z :=
  match dialect p with
  | PRUDPPacketV0 => 0
  | PRUDPPacketV1 => 1
  | PRUDPPacketLite => 2
  end.

Definition DestinationVirtualPortStreamID (p : PRUDPPacket) : Z :=
  StreamID (destinationVirtualPort p).
Definition DestinationVirtualPortStreamType (p : PRUDPPacket) : Z :=
  StreamType (destinationVirtualPort p).
Definition SourceVirtualPortStreamID (p : PRUDPPacket) : Z :=
  StreamID (sourceVirtualPort p).
Definition SourceVirtualPortStreamType (p : PRUDPPacket) : Z :=
  StreamType (sourceVirtualPort p).

(** The type assertion [packet.( *PRUDPPacketLite)]. *)
Definition isLite (p : PRUDPPacket) : bool :=
  bool_decide (dialect p = PRUDPPacketLite).

Definition SetPayload (p : PRUDPPacket) (data : list byte) : PRUDPPacket :=
  mkPacket (dialect p) (packetType p) (flags p) (sourceVirtualPort p)
    (destinationVirtualPort p) (sessionID p) (sequenceID p) (substreamID p)
    (fragmentID p) data (signature p) (sendCount p) (sentAt p).

Definition setFragmentID (p : PRUDPPacket) (id : Z) : PRUDPPacket :=
  mkPacket (dialect p) (packetType p) (flags p) (sourceVirtualPort p)
    (destinationVirtualPort p) (sessionID p) (sequenceID p) (substreamID p)
    id (payload p) (signature p) (sendCount p) (sentAt p).

Definition SetSequenceID (p : PRUDPPacket) (id : Z) : PRUDPPacket :=
  mkPacket (dialect p) (packetType p) (flags p) (sourceVirtualPort p)
    (destinationVirtualPort p) (sessionID p) id (substreamID p)
    (fragmentID p) (payload p) (signature p) (sendCount p) (sentAt p).

Definition SetSessionID (p : PRUDPPacket) (id : Z) : PRUDPPacket :=
  mkPacket (dialect p) (packetType p) (flags p) (sourceVirtualPort p)
    (destinationVirtualPort p) id (sequenceID p) (substreamID p)
    (fragmentID p) (payload p) (signature p) (sendCount p) (sentAt p).

Definition setSignature (p : PRUDPPacket) (sig : list byte) : PRUDPPacket :=
  mkPacket (dialect p) (packetType p) (flags p) (sourceVirtualPort p)
    (destinationVirtualPort p) (sessionID p) (sequenceID p) (substreamID p)
    (fragmentID p) (payload p) sig (sendCount p) (sentAt p).

Definition incrementSendCount (p : PRUDPPacket) : PRUDPPacket :=
  mkPacket (dialect p) (packetType p) (flags p) (sourceVirtualPort p)
    (destinationVirtualPort p) (sessionID p) (sequenceID p) (substreamID p)
    (fragmentID p) (payload p) (signature p) (to_uint32 (sendCount p + 1))
    (sentAt p).

Definition setSentAt (p : PRUDPPacket) (t : Z) : PRUDPPacket :=
  mkPacket (dialect p) (packetType p) (flags p) (sourceVirtualPort p)
    (destinationVirtualPort p) (sessionID p) (sequenceID p) (substreamID p)
    (fragmentID p) (payload p) (signature p) (sendCount p) t.

(** [PacketInterface]: a PRUDP packet, or a packet of another transport. *)
Inductive Packet :=
| IsPRUDP (p : PRUDPPacket)
| OtherPacket.

(** *** Sockets, connections and sliding windows *)

(** [net.Addr]: a [*net.UDPAddr] or an address of another network. *)
Inductive Addr :=
| UDPAddr (a : string)
| OtherAddr (a : string).

(** A pointer to a [gws.Conn], to the UDP socket, to the server. *)
Definition Handle := nat.

Record SocketConnection := mkSocket {
  socketServer : Handle;
  Address : Addr;
  WebSocketConnection : option Handle
}.

(** [CompressionAlgorithm.Compress] and [EncryptionAlgorithm.Encrypt] of a
    substream: the bytes returned and the error returned. *)
Record StreamSettings := mkStreamSettings {
  Compress : list byte -> list byte * option error;
  Encrypt : list byte -> list byte * option error
}.

(** The state of a sliding window is left open ([SW]); its stream settings
    are read through [streamSettings]. *)
Record PRUDPConnection (SW Counter : Type) := mkConnection {
  Socket : SocketConnection;
  slidingWindows : Z -> SW;
  outgoingUnreliableSequenceIDCounter : Counter;
  outgoingPingSequenceIDCounter : Counter;
  lastSentPingTime : Z;
  ServerSessionID : Z;
  SessionKey : list byte;
  Signature : list byte;
  ServerConnectionSignature : list byte
}.
Arguments mkConnection {SW Counter}.
Arguments Socket {SW Counter}.
Arguments slidingWindows {SW Counter}.
Arguments outgoingUnreliableSequenceIDCounter {SW Counter}.
Arguments outgoingPingSequenceIDCounter {SW Counter}.
Arguments lastSentPingTime {SW Counter}.
Arguments ServerSessionID {SW Counter}.
Arguments SessionKey {SW Counter}.
Arguments Signature {SW Counter}.
Arguments ServerConnectionSignature {SW Counter}.

(** *** The server *)

Record PRUDPV1Settings := mkV1Settings { LegacyConnectionSignature : bool }.

(** An endpoint as the server sees it: its stream id, the back pointer
    [Server] set on binding, and its own state [EP] (connections and the
    rest), which only [endpoint.processPacket] touches. *)
Record PRUDPEndPoint (EP : Type) := mkEndPoint {
  epStreamID : Z;
  Server : option Handle;
  epState : EP
}.
Arguments mkEndPoint {EP}.
Arguments epStreamID {EP}.
Arguments Server {EP}.
Arguments epState {EP}.

(** What is declared elsewhere in the repository and used by the server:
    types, constants and functions, taken as they come. *)
Class Collaborators := {
  EP : Type;
  SW : Type;
  Counter : Type;
  LibraryVersions : Type;
  ByteStreamSettings : Type;
  PRUDPV0Settings : Type;
  NewLibraryVersions : LibraryVersions;
  NewByteStreamSettings : ByteStreamSettings;
  NewPRUDPV0Settings : PRUDPV0Settings;
  NewPRUDPV1Settings : PRUDPV1Settings;
  (** [constants.StreamTypeRelay] *)
  StreamTypeRelay : Z;
  (** [slidingWindow.streamSettings] *)
  streamSettings : SW -> StreamSettings;
  (** [slidingWindow.NextOutgoingSequenceID()] *)
  NextOutgoingSequenceID : SW -> Z * SW;
  (** [slidingWindow.TimeoutManager.SchedulePacketTimeout(packet)] *)
  SchedulePacketTimeout : SW -> PRUDPPacket -> SW;
  (** [counter.Next()] *)
  Counter_Next : Counter -> Z * Counter;
  (** [packet.processUnreliableCrypto()] *)
  processUnreliableCrypto : PRUDPPacket -> list byte;
  (** [packet.calculateSignature(sessionKey, connectionSignature)] *)
  calculateSignature : PRUDPPacket -> list byte -> list byte -> list byte;
  (** [packet.Bytes()] *)
  Bytes : PRUDPPacket -> list byte;
  (** [endpoint.processPacket(packet, socket)] *)
  endpoint_processPacket :
    PRUDPEndPoint EP -> PRUDPPacket -> SocketConnection -> PRUDPEndPoint EP
}.

Section Server.
Context `{Collaborators}.

Record PRUDPServer := mkServer {
  self : Handle;
  udpSocket : option Handle;
  websocketServer : option Handle;
  Endpoints : gmap Z (PRUDPEndPoint EP);
  SupportedFunctions : Z;
  AccessKey : string;
  KerberosTicketVersion : Z;
  SessionKeyLength : Z;
  FragmentSize : Z;
  PRUDPv1ConnectionSignatureKey : list byte;
  libraryVersions : LibraryVersions;
  byteStreamSettings : ByteStreamSettings;
  prudpV0Settings : PRUDPV0Settings;
  prudpV1Settings : PRUDPV1Settings;
  UseVerboseRMC : bool
}.

Definition with_Endpoints (ps : PRUDPServer)
  (m : gmap Z (PRUDPEndPoint EP)) : PRUDPServer :=
  mkServer (self ps) (udpSocket ps) (websocketServer ps) m
    (SupportedFunctions ps) (AccessKey ps) (KerberosTicketVersion ps)
    (SessionKeyLength ps) (FragmentSize ps)
    (PRUDPv1ConnectionSignatureKey ps) (libraryVersions ps)
    (byteStreamSettings ps) (prudpV0Settings ps) (prudpV1Settings ps)
    (UseVerboseRMC ps).

(** [NewPRUDPServer]: the fields not listed in the composite literal take
    their zero values; [addr] is where the new struct lives. *)
Definition NewPRUDPServer (addr : Handle) : PRUDPServer :=
  mkServer addr None None ∅ 0 "" 0 32 1300 []
    NewLibraryVersions NewByteStreamSettings NewPRUDPV0Settings
    NewPRUDPV1Settings false.

(** [SetFragmentSize] *)
Definition SetFragmentSize (ps : PRUDPServer) (fragmentSize : Z)
  : PRUDPServer :=
  mkServer (self ps) (udpSocket ps) (websocketServer ps) (Endpoints ps)
    (SupportedFunctions ps) (AccessKey ps) (KerberosTicketVersion ps)
    (SessionKeyLength ps) fragmentSize
    (PRUDPv1ConnectionSignatureKey ps) (libraryVersions ps)
    (byteStreamSettings ps) (prudpV0Settings ps) (prudpV1Settings ps)
    (UseVerboseRMC ps).

(** [MutexMap]: [Has], [Get] and [Set] on the endpoint table. *)
Definition Has (m : gmap Z (PRUDPEndPoint EP)) (k : Z) : bool :=
  bool_decide (is_Some (m !! k)).
Definition Get (m : gmap Z (PRUDPEndPoint EP)) (k : Z)
  : option (PRUDPEndPoint EP) := m !! k.
Definition Set_ (m : gmap Z (PRUDPEndPoint EP)) (k : Z)
  (v : PRUDPEndPoint EP) : gmap Z (PRUDPEndPoint EP) := <[k := v]> m.

(** What a call leaves behind besides its result. *)
Inductive Event :=
| LogWarning (msg : string)
| LogError (msg : string)
| CallSendPacket (packet : PRUDPPacket)
| WriteToUDP (address : string) (data : list byte)
| WriteMessage (conn : Handle) (data : list byte)
| Sleep (milliseconds : Z).

(** [BindPRUDPEndPoint]: the server after the call and the log lines. *)
Definition BindPRUDPEndPoint (ps : PRUDPServer) (endpoint : PRUDPEndPoint EP)
  : PRUDPServer * list Event :=
  if Has (Endpoints ps) (epStreamID endpoint)
  then (ps, [LogWarning ("Tried to bind already existing PRUDPEndPoint "
                         ++ pretty (epStreamID endpoint))%string])
  else
    let endpoint := mkEndPoint (epStreamID endpoint) (Some (self ps))
                      (epState endpoint) in
    (with_Endpoints ps (Set_ (Endpoints ps) (epStreamID endpoint) endpoint),
     []).

(** The decoders of the three dialects ([NewPRUDPPacketsLite],
    [NewPRUDPPacketsV1], [NewPRUDPPacketsV0]), called with the server and
    the read stream. *)
Class PacketCodec := {
  NewPRUDPPacketsLite :
    PRUDPServer -> ByteStreamIn.ByteStreamIn -> list PRUDPPacket * option error;
  NewPRUDPPacketsV1 :
    PRUDPServer -> ByteStreamIn.ByteStreamIn -> list PRUDPPacket * option error;
  NewPRUDPPacketsV0 :
    PRUDPServer -> ByteStreamIn.ByteStreamIn -> list PRUDPPacket * option error
}.
Context `{PacketCodec}.

(** The errors [processPacket] builds with [fmt.Errorf], with the values
    that go into the message. *)
Inductive ProtocolError :=
| ErrUnboundEndPoint (address : Addr) (streamID : Z)
| ErrStreamTypeMismatch (address : Addr) (destination source : Z)
| ErrInvalidDestinationStreamType (address : Addr) (streamType : Z)
| ErrInvalidSourceStreamType (address : Addr) (streamType : Z)
| ErrSourcePortTooLarge (address : Addr) (sourcePortNumber : Z).

(** [NewSocketConnection] *)
Definition NewSocketConnection (ps : PRUDPServer) (address : Addr)
  (webSocketConnection : option Handle) : SocketConnection :=
  mkSocket (self ps) address webSocketConnection.

(** [processPacket]: the error returned ([None] for [nil]) and the server
    after the call. *)
Definition processPacket (ps : PRUDPServer) (packet : PRUDPPacket)
  (address : Addr) (webSocketConnection : option Handle)
  : option ProtocolError * PRUDPServer :=
  if negb (Has (Endpoints ps) (DestinationVirtualPortStreamID packet))
  then (Some (ErrUnboundEndPoint address
                (DestinationVirtualPortStreamID packet)), ps)
  else
  match Get (Endpoints ps) (DestinationVirtualPortStreamID packet) with
  | None => (Some (ErrUnboundEndPoint address
                     (DestinationVirtualPortStreamID packet)), ps)
  | Some endpoint =>
  if negb (DestinationVirtualPortStreamType packet
           =? SourceVirtualPortStreamType packet)
  then (Some (ErrStreamTypeMismatch address
                (DestinationVirtualPortStreamType packet)
                (SourceVirtualPortStreamType packet)), ps)
  else
  if StreamTypeRelay <? DestinationVirtualPortStreamType packet
  then (Some (ErrInvalidDestinationStreamType address
                (DestinationVirtualPortStreamType packet)), ps)
  else
  if StreamTypeRelay <? SourceVirtualPortStreamType packet
  then (Some (ErrInvalidSourceStreamType address
                (DestinationVirtualPortStreamType packet)), ps)
  else
  let sourcePortNumber := SourceVirtualPortStreamID packet in
  let invalidSourcePort :=
    if isLite packet && (31 <? sourcePortNumber) then true
    else if 15 <? sourcePortNumber then true
    else false in
  if invalidSourcePort
  then (Some (ErrSourcePortTooLarge address sourcePortNumber), ps)
  else
  let socket := NewSocketConnection ps address webSocketConnection in
  (None,
   with_Endpoints ps
     (<[DestinationVirtualPortStreamID packet :=
          endpoint_processPacket endpoint packet socket]> (Endpoints ps)))
  end.

(** The loop of [handleSocketMessage] over the decoded packets: it stops
    at the first packet that [processPacket] rejects. *)
Fixpoint processPackets (ps : PRUDPServer) (packets : list PRUDPPacket)
  (address : Addr) (webSocketConnection : option Handle)
  : (option ProtocolError * PRUDPServer) * list ProtocolError :=
  match packets with
  | [] => ((None, ps), [])
  | packet :: rest =>
      match processPacket ps packet address webSocketConnection with
      | (Some err, ps') => ((Some err, ps'), [err])
      | (None, ps') => processPackets ps' rest address webSocketConnection
      end
  end.

(** [handleSocketMessage]: the error returned, the server after the call
    and the errors logged as warnings; or a panic. *)
Definition handleSocketMessage (ps : PRUDPServer) (packetData : GoSlice)
  (address : Addr) (webSocketConnection : option Handle)
  : outcome ((option ProtocolError * PRUDPServer) * list ProtocolError) :=
  let readStream := ByteStreamIn.NewByteStreamIn (elems packetData) in
  lite ← match websocketServer ps with
         | Some _ =>
             first ← index packetData 0;
             mret (bool_decide (first = Byte.x80))
         | None => mret false
         end;
  packets ←
    (if lite : bool
     then mret (fst (NewPRUDPPacketsLite ps readStream))
     else
       prefix ← reslice_to packetData 2;
       if bytes_Equal prefix [Byte.xea; Byte.xd0]
       then mret (fst (NewPRUDPPacketsV1 ps readStream))
       else mret (fst (NewPRUDPPacketsV0 ps readStream)));
  mret (processPackets ps packets address webSocketConnection).

(** The body of the read loop of [listenAndServeUDP] for one datagram of
    [read] bytes: [make], [copy], then [handleSocketMessage] with no
    WebSocket connection. *)
Definition serveUDPDatagram (ps : PRUDPServer) (datagram : list byte)
  (address : string)
  : outcome ((option ProtocolError * PRUDPServer) * list ProtocolError) :=
  handleSocketMessage ps (make_copy datagram) (UDPAddr address) None.

(** *** The outbound path *)

Definition with_slidingWindow (c : PRUDPConnection SW Counter)
  (substream : Z) (sw : SW) : PRUDPConnection SW Counter :=
  mkConnection (Socket c)
    (fun s => if bool_decide (s = substream) then sw else slidingWindows c s)
    (outgoingUnreliableSequenceIDCounter c) (outgoingPingSequenceIDCounter c)
    (lastSentPingTime c) (ServerSessionID c) (SessionKey c) (Signature c)
    (ServerConnectionSignature c).

Definition with_unreliableCounter (c : PRUDPConnection SW Counter)
  (ctr : Counter) : PRUDPConnection SW Counter :=
  mkConnection (Socket c) (slidingWindows c) ctr
    (outgoingPingSequenceIDCounter c) (lastSentPingTime c)
    (ServerSessionID c) (SessionKey c) (Signature c)
    (ServerConnectionSignature c).

Definition with_ping (c : PRUDPConnection SW Counter)
  (ctr : Counter) (now : Z) : PRUDPConnection SW Counter :=
  mkConnection (Socket c) (slidingWindows c)
    (outgoingUnreliableSequenceIDCounter c) ctr now
    (ServerSessionID c) (SessionKey c) (Signature c)
    (ServerConnectionSignature c).

Definition log_error (err : option error) : list Event :=
  match err with
  | Some e => [LogError e]
  | None => []
  end.

(** [sendRaw]: the write it performs, if any. *)
Definition sendRaw (ps : PRUDPServer) (socket : SocketConnection)
  (data : list byte) : list Event :=
  match Address socket, udpSocket ps with
  | UDPAddr a, Some _ => [WriteToUDP a data]
  | _, _ =>
      match WebSocketConnection socket with
      | Some c => [WriteMessage c data]
      | None => []
      end
  end.

(** The first block of [sendPacket]: the sequence id. *)
Definition assignSequenceID (connection : PRUDPConnection SW Counter)
  (packetCopy : PRUDPPacket) (now : Z)
  : PRUDPPacket * PRUDPConnection SW Counter :=
  if negb (HasFlag packetCopy PacketFlagAck)
     && negb (HasFlag packetCopy PacketFlagMultiAck)
  then
    if HasFlag packetCopy PacketFlagReliable then
      let slidingWindow := slidingWindows connection (SubstreamID packetCopy) in
      let '(id, slidingWindow) := NextOutgoingSequenceID slidingWindow in
      (SetSequenceID packetCopy id,
       with_slidingWindow connection (SubstreamID packetCopy) slidingWindow)
    else if bool_decide (Type_ packetCopy = DataPacket) then
      let '(id, ctr) :=
        Counter_Next (outgoingUnreliableSequenceIDCounter connection) in
      (SetSequenceID packetCopy id, with_unreliableCounter connection ctr)
    else if bool_decide (Type_ packetCopy = PingPacket) then
      let '(id, ctr) :=
        Counter_Next (outgoingPingSequenceIDCounter connection) in
      (SetSequenceID packetCopy id, with_ping connection ctr now)
    else (SetSequenceID packetCopy 0, connection)
  else (packetCopy, connection).

(** The payload block of [sendPacket]: what becomes of the payload of a
    DATA packet that is not an acknowledgement. *)
Definition transformPayload (connection : PRUDPConnection SW Counter)
  (packetCopy : PRUDPPacket) : PRUDPPacket * list Event :=
  if bool_decide (Type_ packetCopy = DataPacket)
     && negb (HasFlag packetCopy PacketFlagAck)
     && negb (HasFlag packetCopy PacketFlagMultiAck)
  then
    if HasFlag packetCopy PacketFlagReliable then
      let slidingWindow := slidingWindows connection (SubstreamID packetCopy) in
      let payload := Payload packetCopy in
      let '(compressedPayload, err1) :=
        Compress (streamSettings slidingWindow) payload in
      let '(encryptedPayload, err2) :=
        Encrypt (streamSettings slidingWindow) compressedPayload in
      (SetPayload packetCopy encryptedPayload,
       log_error err1 ++ log_error err2)
    else
      if negb (Version packetCopy =? 2)
      then (SetPayload packetCopy (processUnreliableCrypto packetCopy), [])
      else (packetCopy, [])
  else (packetCopy, []).

(** [sendPacket], on the connection the packet's [Sender()] points to and
    at clock reading [now]: the connection afterwards, the copy of the
    packet as it goes out, and the log lines and the write. *)
Definition sendPacket (ps : PRUDPServer)
  (connection : PRUDPConnection SW Counter) (packet : PRUDPPacket) (now : Z)
  : (PRUDPConnection SW Counter * PRUDPPacket) * list Event :=
  let packetCopy := packet in
  let '(packetCopy, connection) :=
    assignSequenceID connection packetCopy now in
  let packetCopy := SetSessionID packetCopy (ServerSessionID connection) in
  let '(packetCopy, logged) := transformPayload connection packetCopy in
  let packetCopy :=
    if LegacyConnectionSignature (prudpV1Settings ps)
    then setSignature packetCopy
           (calculateSignature packetCopy (SessionKey connection)
              (Signature connection))
    else setSignature packetCopy
           (calculateSignature packetCopy (SessionKey connection)
              (ServerConnectionSignature connection)) in
  let packetCopy := incrementSendCount packetCopy in
  let packetCopy := setSentAt packetCopy now in
  let connection :=
    if HasFlag packetCopy PacketFlagReliable
       && HasFlag packetCopy PacketFlagNeedsAck
    then
      let slidingWindow := slidingWindows connection (SubstreamID packetCopy) in
      with_slidingWindow connection (SubstreamID packetCopy)
        (SchedulePacketTimeout slidingWindow packetCopy)
    else connection in
  ((connection, packetCopy),
   logged ++ sendRaw ps (Socket connection) (Bytes packetCopy)).

(** One pass through the body of the loop of [Send]: the packet with the
    chunk and its fragment id, the data left, the next fragment id
    (a [uint8]). *)
Definition nextFragment (ps : PRUDPServer) (packet : PRUDPPacket)
  (data : list byte) (fragmentID : Z)
  : outcome (PRUDPPacket * list byte * Z) :=
  if len data <? FragmentSize ps
  then mret (setFragmentID (SetPayload packet data) 0, data, fragmentID)
  else
    chunk ← slice_to data (FragmentSize ps);
    rest ← slice_from data (FragmentSize ps);
    mret (setFragmentID (SetPayload packet chunk) fragmentID, rest,
          to_uint8 (fragmentID + 1)).

(** [for i := 0; i <= fragments; i++ { ... }] with [n] passes left. *)
Fixpoint Send_loop (ps : PRUDPServer) (n : nat) (i fragments : Z)
  (data : list byte) (fragmentID : Z) (packet : PRUDPPacket)
  (connection : PRUDPConnection SW Counter) (now : Z)
  : outcome (PRUDPConnection SW Counter * list Event) :=
  match n with
  | O => mret (connection, [])
  | S n' =>
      '(packet, data, fragmentID) ← nextFragment ps packet data fragmentID;
      let '((connection, _), sent) := sendPacket ps connection packet now in
      let pause := if i <? fragments then [Sleep 16] else [] in
      let now := if i <? fragments then now + 16 else now in
      '(connection, later) ←
        Send_loop ps n' (i + 1) fragments data fragmentID packet
          connection now;
      mret (connection, CallSendPacket packet :: sent ++ pause ++ later)
  end.

(** [Send]: the connection afterwards and everything the call did, in
    order; or a panic. *)
Definition Send (ps : PRUDPServer) (connection : PRUDPConnection SW Counter)
  (packet : Packet) (now : Z)
  : outcome (PRUDPConnection SW Counter * list Event) :=
  match packet with
  | IsPRUDP packet =>
      let data := Payload packet in
      fragments ←
        (if FragmentSize ps =? 0
         then Panics "integer divide by zero"
         else mret (Z.quot (len data) (FragmentSize ps)));
      Send_loop ps (Z.to_nat (fragments + 1)) 0 fragments data 1 packet
        connection now
  | OtherPacket => mret (connection, [])
  end.

(** The packets handed to [sendPacket], in order, as (fragment id,
    payload). *)
Definition fragmentsSent (events : list Event) : list (Z * list byte) :=
  omap (fun e => match e with
                 | CallSendPacket p => Some (fragmentID p, Payload p)
                 | _ => None
                 end) events.

(** The calls of [sendPacket] and the pauses of a run, in order: [None]
    for a call, the milliseconds for a pause. *)
Definition timeline (events : list Event) : list (option Z) :=
  omap (fun e => match e with
                 | CallSendPacket _ => Some None
                 | Sleep milliseconds => Some (Some milliseconds)
                 | _ => None
                 end) events.

End Server.

End PRUDP.

(** ** Result and ResultRange *)

Module Result.
Import GoInt GoRuntime.

(** [type Result struct { Code uint32 }] *)
Record Result := mkResult { Code : Z }.

Definition NewResult (code : Z) : Result := mkResult code.

Section Mask.

(** [errorMask], an [int] declared elsewhere in the package. *)
Variable errorMask : Z.

(** [int(result.Code)&errorMask == 0] *)
Definition IsSuccess (result : Result) : bool :=
  Z.land (wrap_int (Code result)) errorMask =? 0.

(** [int(result.Code)&errorMask != 0] *)
Definition IsError (result : Result) : bool :=
  negb (Z.land (wrap_int (Code result)) errorMask =? 0).

(** [NewResult(uint32(int(code) & ^errorMask))] *)
Definition NewResultSuccess (code : Z) : Result :=
  NewResult (to_uint32 (Z.land (wrap_int code) (Z.lnot errorMask))).

(** [NewResult(uint32(int(code) | errorMask))] *)
Definition NewResultError (code : Z) : Result :=
  NewResult (to_uint32 (Z.lor (wrap_int code) errorMask)).

End Mask.

Definition Copy (result : Result) : Result := NewResult (Code result).
Definition Equals (result other : Result) : bool :=
  Code result =? Code other.

(** [Result.Bytes]: [stream.WriteUInt32LE(result.Code)], then the bytes of
    the stream. *)
Definition Bytes (result : Result) (stream : StreamOut.StreamOut)
  : outcome (list byte) :=
  stream ← StreamOut.WriteUInt32LE stream (Code result);
  mret (StreamOut.Bytes stream).

End Result.

Module ResultRange.

(** [ResultRange]: the structure version of the embedded [Structure], and
    the two fields. *)
Record ResultRange := mkResultRange {
  structureVersion : Z;
  Offset : Z;
  Length : Z
}.

Definition NewResultRange : ResultRange := mkResultRange 0 0 0.

Definition StructureVersion (r : ResultRange) : Z := structureVersion r.

Definition SetStructureVersion (r : ResultRange) (version : Z)
  : ResultRange :=
  mkResultRange version (Offset r) (Length r).

(** [Copy] *)
Definition Copy (resultRange : ResultRange) : ResultRange :=
  let copied := NewResultRange in
  let copied := SetStructureVersion copied (StructureVersion resultRange) in
  let copied := mkResultRange (structureVersion copied)
                  (Offset resultRange) (Length copied) in
  mkResultRange (structureVersion copied) (Offset copied)
    (Length resultRange).

(** [Equals], for a [structure] that is a [*ResultRange]. *)
Definition Equals (resultRange other : ResultRange) : bool :=
  if StructureVersion resultRange =? StructureVersion other then false
  else if negb (Offset resultRange =? Offset other) then false
  else if negb (Length resultRange =? Length other) then false
  else true.

End ResultRange.

(** ** ClassVersionContainer *)

Module ClassVersionContainer.

(** [ClassVersions map[string]uint16] *)
Record ClassVersionContainer := mkContainer {
  ClassVersions : gmap string Z
}.

Definition NewClassVersionContainer : ClassVersionContainer :=
  mkContainer ∅.

(** A [for name, version := range m] loop visits every entry of [m] once,
    in an order Go does not fix: [order] is that order. *)
Definition visits (order : list (string * Z)) (m : gmap string Z) : Prop :=
  order ≡ₚ map_to_list m.

(** The loop of [Equals] over the entries in the order given. *)
Fixpoint Equals_range (order : list (string * Z)) (other : gmap string Z)
  : bool :=
  match order with
  | [] => true
  | (name, version1) :: rest =>
      match other !! name with
      | Some version2 =>
          if negb (version1 =? version2) then false
          else Equals_range rest other
      | None => false
      end
  end.

(** [Equals], for a [structure] that is a [*ClassVersionContainer]. *)
Definition Equals (order : list (string * Z))
  (cvc other : ClassVersionContainer) : bool :=
  if negb (Z.of_nat (size (ClassVersions cvc))
           =? Z.of_nat (size (ClassVersions other)))
  then false
  else Equals_range order (ClassVersions other).

(** [Copy]: every entry put into a new map, in the order given. *)
Definition Copy (order : list (string * Z)) (cvc : ClassVersionContainer)
  : ClassVersionContainer :=
  mkContainer
    (foldl (fun copied entry => <[entry.1 := entry.2]> copied)
       (ClassVersions NewClassVersionContainer) order).

End ClassVersionContainer.

(** ** QUUID *)

Module QUUID.
Import GoRuntime.

(** [type QUUID struct { Data []byte }] *)
Record QUUID := mkQUUID { Data : list byte }.

(** [NewQUUID]: [make([]byte, 0, 16)] *)
Definition NewQUUID : QUUID := mkQUUID [].

(** The builtin [copy(dst, src)]: as many elements as the shorter of the
    two has. *)
Definition copy (dst src : list byte) : list byte :=
  take (Nat.min (length dst) (length src)) src
  ++ drop (Nat.min (length dst) (length src)) dst.

(** [Copy] *)
Definition Copy (qu : QUUID) : QUUID :=
  mkQUUID (copy (replicate (length (Data qu)) Byte.x00) (Data qu)).

(** [hex.EncodeToString]: two digits a byte, from the table
    "0123456789abcdef". *)
Definition hexDigit (n : N) : Ascii.ascii :=
  Ascii.ascii_of_N (if (n <? 10)%N then 48 + n else 87 + n)%N.

Fixpoint hex_EncodeToString (data : list byte) : string :=
  match data with
  | [] => EmptyString
  | b :: rest =>
      String (hexDigit (Byte.to_N b / 16))
        (String (hexDigit (Byte.to_N b mod 16)) (hex_EncodeToString rest))
  end.

(** [slices.Reverse(data[lo:hi])] on a slice of 16 bytes, as the bytes
    from [lo] to [hi] in reverse. *)
Definition reversed (data : list byte) (lo hi : nat) : list byte :=
  rev (take (hi - lo) (drop lo data)).

(** [GetStringValue] *)
Definition GetStringValue (qu : QUUID) : string :=
  let data := copy (replicate (length (Data qu)) Byte.x00) (Data qu) in
  if negb (len data =? 16)
  then "00000000-0000-0000-0000-000000000002"
  else
    let section1 := reversed data 0 4 in
    let section2 := reversed data 4 6 in
    let section3 := reversed data 6 8 in
    let section4 := reversed data 8 10 in
    let section5_1 := reversed data 10 12 in
    let section5_2 := reversed data 12 14 in
    let section5_3 := reversed data 14 16 in
    (hex_EncodeToString section1 ++ "-"
     ++ hex_EncodeToString section2 ++ "-"
     ++ hex_EncodeToString section3 ++ "-"
     ++ hex_EncodeToString section4 ++ "-"
     ++ hex_EncodeToString section5_1
     ++ hex_EncodeToString section5_2
     ++ hex_EncodeToString section5_3)%string.

(** [Equals] *)
Definition Equals (qu other : QUUID) : bool :=
  bool_decide (GetStringValue qu = GetStringValue other).

Section FromString.

(** [strings.Split(s, sep)] and [hex.DecodeString(s)] of the Go library. *)
Variable strings_Split : string -> string -> list string.
Variable hex_DecodeString : string -> list byte * option error.

(** The closure [appendSection]: the error returned and [data] after the
    call. *)
Definition appendSection (data : list byte) (section : string)
  (expectedSize : Z) : option error * list byte :=
  let '(sectionBytes, err) := hex_DecodeString section in
  match err with
  | Some e => (Some e, data)
  | None =>
      if negb (len sectionBytes =? expectedSize)
      then (Some ("Unexpected section size. Expected "
                  ++ pretty expectedSize ++ ", got "
                  ++ pretty (len sectionBytes))%string, data)
      else (None, data ++ sectionBytes)
  end.

(** [FromString]: the error returned and the QUUID after the call. *)
Definition FromString (qu : QUUID) (uuid : string) : option error * QUUID :=
  let sections := strings_Split uuid "-" in
  match sections with
  | [s0; s1; s2; s3; s4] =>
      let data := [] in
      match appendSection data s0 4 with
      | (Some err, _) =>
          (Some ("Failed to read UUID section 1. " ++ err)%string, qu)
      | (None, data) =>
      match appendSection data s1 2 with
      | (Some err, _) =>
          (Some ("Failed to read UUID section 2. " ++ err)%string, qu)
      | (None, data) =>
      match appendSection data s2 2 with
      | (Some err, _) =>
          (Some ("Failed to read UUID section 3. " ++ err)%string, qu)
      | (None, data) =>
      match appendSection data s3 2 with
      | (Some err, _) =>
          (Some ("Failed to read UUID section 4. " ++ err)%string, qu)
      | (None, data) =>
      match appendSection data s4 6 with
      | (Some err, _) =>
          (Some ("Failed to read UUID section 5. " ++ err)%string, qu)
      | (None, data) =>
          let data :=
            reversed data 0 4 ++ reversed data 4 6 ++ reversed data 6 8
            ++ reversed data 8 10 ++ reversed data 10 12
            ++ reversed data 12 14 ++ reversed data 14 16 in
          (None, mkQUUID (copy [] data))
      end end end end end
  | _ =>
      (Some ("Invalid UUID. Not enough sections. Expected 5, got "
             ++ pretty (len sections))%string, qu)
  end.

End FromString.

End QUUID.

(** ** A small instantiation

    The collaborators filled in with simple stand-ins, so that the server
    can be run on concrete packets: an endpoint keeps the packets delivered
    to it, a sliding window counts sequence ids and keeps the packets
    scheduled for retransmission, and the cipher flips every bit. *)

Module Demo.
Import GoInt GoRuntime PRUDP.

Definition flip (b : byte) : byte :=
  match Byte.of_N (N.lxor (Byte.to_N b) 255) with
  | Some c => c
  | None => b
  end.

Definition flipAll (data : list byte) : list byte * option error :=
  (map flip data, None).

Definition identity (data : list byte) : list byte * option error :=
  (data, None).

Record Window := mkWindow {
  nextSequenceID : Z;
  windowSettings : StreamSettings;
  scheduled : list PRUDPPacket
}.

Definition Inbox := list (PRUDPPacket * SocketConnection).

#[export] Instance collaborators : Collaborators := {
  EP := Inbox;
  SW := Window;
  Counter := Z;
  LibraryVersions := unit;
  ByteStreamSettings := unit;
  PRUDPV0Settings := unit;
  NewLibraryVersions := tt;
  NewByteStreamSettings := tt;
  NewPRUDPV0Settings := tt;
  NewPRUDPV1Settings := mkV1Settings false;
  StreamTypeRelay := 11;
  streamSettings := windowSettings;
  NextOutgoingSequenceID := fun w =>
    (nextSequenceID w,
     mkWindow ((nextSequenceID w + 1) mod 2 ^ 16) (windowSettings w)
       (scheduled w));
  SchedulePacketTimeout := fun w p =>
    mkWindow (nextSequenceID w) (windowSettings w) (scheduled w ++ [p]);
  Counter_Next := fun c => ((c + 1) mod 2 ^ 16, (c + 1) mod 2 ^ 16);
  processUnreliableCrypto := fun p => map flip (payload p);
  calculateSignature := fun _ _ _ => [];
  Bytes := fun p => payload p;
  endpoint_processPacket := fun ep p socket =>
    mkEndPoint (epStreamID ep) (Server ep) (epState ep ++ [(p, socket)])
}.

#[export] Instance codec : PacketCodec := {
  NewPRUDPPacketsLite := fun _ _ => ([], None);
  NewPRUDPPacketsV1 := fun _ _ => ([], None);
  NewPRUDPPacketsV0 := fun _ _ => ([], None)
}.

(** A server with its defaults and one endpoint bound to stream id 1. *)
Definition endpoint1 : PRUDPEndPoint Inbox := mkEndPoint 1 None [].

Definition server : PRUDPServer :=
  fst (BindPRUDPEndPoint (NewPRUDPServer 0%nat) endpoint1).

(** A second endpoint claiming the same stream id. *)
Definition endpoint1' : PRUDPEndPoint Inbox :=
  mkEndPoint 1 None [(mkPacket PRUDPPacketV0 SynPacket (fun _ => false)
                        (mkPort 0 0) (mkPort 0 0) 0 0 0 0 [] [] 0 0,
                      mkSocket 0%nat (UDPAddr "10.0.0.9:1") None)].

Definition client : Addr := UDPAddr "10.0.0.2:60000".

Definition window : Window :=
  mkWindow 1 (mkStreamSettings identity flipAll) [].

Definition connection : PRUDPConnection Window Z :=
  mkConnection (mkSocket 0%nat client None) (fun _ => window) 0 0 0 7
    [] [] [].

Definition onlyReliable (f : PacketFlag) : bool :=
  match f with
  | PacketFlagReliable => true
  | _ => false
  end.

(** A reliable DATA packet of the given dialect, from source port
    [sourcePort] of stream type 10 to stream id [destination] of the same
    stream type. *)
Definition dataPacket (d : Dialect) (sourcePort destination : Z)
  (data : list byte) : PRUDPPacket :=
  mkPacket d DataPacket onlyReliable (mkPort 10 sourcePort)
    (mkPort 10 destination) 0 0 0 0 data [] 0 0.

(** What a run of [Send] handed to [sendPacket]. *)
Definition sentFragments
  (o : outcome (PRUDPConnection Window Z * list Event))
  : list (Z * list byte) :=
  match o with
  | Returns (_, events) => fragmentsSent events
  | Panics _ => []
  end.

End Demo.

(** * Part II: properties *)

(** ** Machine integers *)

Section GoIntFacts.
Import GoInt.

Lemma wrap_int_small z : in_int z -> wrap_int z = z.
Proof.
  unfold in_int, wrap_int. intros Hz.
  rewrite Z.mod_small by lia. lia.
Qed.

Lemma to_uint64_small z : 0 <= z < 2 ^ 64 -> to_uint64 z = z.
Proof. intros Hz. unfold to_uint64. now rewrite Z.mod_small. Qed.

(** A value below bit [k] shares no bit with a value shifted left by [k]. *)
Lemma land_shiftl_disjoint a b k :
  0 <= k -> 0 <= a < 2 ^ k -> Z.land a (Z.shiftl b k) = 0.
Proof.
  intros Hk Ha. apply Z.bits_inj'. intros n Hn.
  rewrite Z.land_spec, Z.bits_0.
  destruct (Z.lt_ge_cases n k) as [Hlt | Hge].
  - rewrite (Z.shiftl_spec_low b k n Hlt). apply andb_false_r.
  - rewrite <- (Z.mod_small a (2 ^ k)) by lia.
    rewrite Z.mod_pow2_bits_high by lia. reflexivity.
Qed.

(** So [|] adds them. *)
Lemma lor_shiftl_disjoint a b k :
  0 <= k -> 0 <= a < 2 ^ k -> Z.lor a (Z.shiftl b k) = a + b * 2 ^ k.
Proof.
  intros Hk Ha.
  pose proof (Z.add_lor_land a (Z.shiftl b k)) as Hadd.
  rewrite (land_shiftl_disjoint a b k Hk Ha), Z.add_0_r in Hadd.
  rewrite Hadd. now rewrite Z.shiftl_mul_pow2.
Qed.

(** Masking with [2^k - 1] and shifting right, as remainder and quotient. *)
Lemma land_mask v k m : 0 <= k -> m = 2 ^ k - 1 -> Z.land v m = v mod 2 ^ k.
Proof.
  intros Hk ->. rewrite <- Z.land_ones by assumption.
  now rewrite Z.ones_equiv, Z.sub_1_r.
Qed.

End GoIntFacts.

(** ** DateTime *)

Section DateTimeFacts.
Import GoInt DateTime.

Example Make_2024_02_29 :
  let dt := Make (NewDateTime 0) 2024 2 29 23 59 58 in
  (Year dt, Month dt, Day dt, Hour dt, Minute dt, Second dt)
  = (2024, 2, 29, 23, 59, 58).
Proof. reflexivity. Qed.

(** A negative year does not survive the conversion to [uint64]. *)
Example Make_negative_year :
  Year (Make (NewDateTime 0) (-1) 1 1 0 0 0) = 274877906943.
Proof. reflexivity. Qed.

(** The packed value as a sum, when every field fits its bit field. *)
Lemma Make_value dt year month day hour minute second :
  0 <= second < 64 -> 0 <= minute < 64 -> 0 <= hour < 32 ->
  0 <= day < 32 -> 0 <= month < 16 ->
  0 <= year -> in_int (Z.shiftl year 26) ->
  value (Make dt year month day hour minute second)
  = second + minute * 2 ^ 6 + hour * 2 ^ 12 + day * 2 ^ 17
    + month * 2 ^ 22 + year * 2 ^ 26.
Proof.
  intros Hs Hmi Hh Hd Hmo Hy Hov. unfold in_int in Hov.
  rewrite Z.shiftl_mul_pow2 in Hov by lia.
  unfold Make, shl_int, or_int; cbn [value].
  rewrite !Z.shiftl_mul_pow2 by lia.
  rewrite !wrap_int_small by (unfold in_int; lia).
  rewrite <- !Z.shiftl_mul_pow2 by lia.
  rewrite (lor_shiftl_disjoint second minute 6) by lia.
  rewrite (lor_shiftl_disjoint _ hour 12) by lia.
  rewrite (lor_shiftl_disjoint _ day 17) by lia.
  rewrite (lor_shiftl_disjoint _ month 22) by lia.
  rewrite (lor_shiftl_disjoint _ year 26) by lia.
  rewrite !Z.shiftl_mul_pow2 by lia.
  apply to_uint64_small. lia.
Qed.

(** C10.  For non-negative [second], [minute] < 64, [hour], [day] < 32,
    [month] < 16 and a non-negative [year] whose shift left by 26 bits stays
    inside a signed 64-bit integer, the accessors of
    [dt.Make(year, month, day, hour, minute, second)] return exactly the
    six inputs. *)
Theorem DateTime_Make_accessors dt year month day hour minute second :
  0 <= second < 64 -> 0 <= minute < 64 -> 0 <= hour < 32 ->
  0 <= day < 32 -> 0 <= month < 16 ->
  0 <= year -> in_int (Z.shiftl year 26) ->
  let dt' := Make dt year month day hour minute second in
  Second dt' = second /\ Minute dt' = minute /\ Hour dt' = hour /\
  Day dt' = day /\ Month dt' = month /\ Year dt' = year.
Proof.
  intros Hs Hmi Hh Hd Hmo Hy Hov dt'.
  pose proof (Make_value dt year month day hour minute second
                Hs Hmi Hh Hd Hmo Hy Hov) as Hv.
  fold dt' in Hv. unfold in_int in Hov.
  rewrite Z.shiftl_mul_pow2 in Hov by lia.
  unfold Second, Minute, Hour, Day, Month, Year. rewrite Hv.
  rewrite (land_mask _ 6 63), (land_mask _ 5 31), (land_mask _ 5 31),
    (land_mask _ 4 15), (land_mask _ 6 63) by (reflexivity || lia).
  rewrite !Z.shiftr_div_pow2 by lia.
  change (2 ^ 4) with 16. change (2 ^ 5) with 32.
  change (2 ^ 6) with 64. change (2 ^ 12) with 4096.
  change (2 ^ 17) with 131072. change (2 ^ 22) with 4194304.
  change (2 ^ 26) with 67108864 in *.
  repeat split; rewrite wrap_int_small;
    unfold in_int; Z.div_mod_to_equations; lia.
Qed.

Lemma DateTime_Make_accessors_witness :
  let dt' := Make (NewDateTime 0) 2024 2 29 23 59 58 in
  Second dt' = 58 /\ Minute dt' = 59 /\ Hour dt' = 23 /\
  Day dt' = 29 /\ Month dt' = 2 /\ Year dt' = 2024.
Proof.
  apply (DateTime_Make_accessors (NewDateTime 0) 2024 2 29 23 59 58);
    first [lia | vm_compute; split; congruence].
Defined.

End DateTimeFacts.

(** ** ByteStreamIn and Buffer *)

Section ByteStreamFacts.
Import GoInt GoRuntime ByteStreamIn.

Lemma slice_in_range {A} (s : list A) lo hi :
  0 <= lo <= hi -> hi <= len s ->
  slice s lo hi = Returns (take (Z.to_nat (hi - lo)) (drop (Z.to_nat lo) s)).
Proof.
  intros Hlo Hhi. unfold slice.
  replace (0 <=? lo) with true by (symmetry; apply Z.leb_le; lia).
  replace (lo <=? hi) with true by (symmetry; apply Z.leb_le; lia).
  replace (hi <=? len s) with true by (symmetry; apply Z.leb_le; lia).
  reflexivity.
Qed.

Lemma len_slice_result {A} (s : list A) lo hi :
  0 <= lo <= hi -> hi <= len s ->
  len (take (Z.to_nat (hi - lo)) (drop (Z.to_nat lo) s)) = hi - lo.
Proof.
  intros Hlo Hhi. unfold len in *. rewrite length_take, length_drop. lia.
Qed.

Lemma NewByteStreamIn_in_bounds data :
  len data < 2 ^ 63 -> in_bounds (NewByteStreamIn data).
Proof. unfold in_bounds, NewByteStreamIn, len; cbn. lia. Qed.

(** On a stream in bounds [Remaining] is the distance to the end. *)
Lemma Remaining_in_bounds bsi :
  in_bounds bsi ->
  Remaining bsi = Returns (len (Bytes bsi) - ByteOffset bsi).
Proof.
  intros [Hoff Hlen]. unfold Remaining, slice_from.
  rewrite slice_in_range by lia. cbn.
  rewrite len_slice_result by lia.
  unfold mret, outcome_ret. f_equal. apply to_uint64_small. lia.
Qed.

(** The failure branch of [Read]. *)
Lemma Read_oob bsi length :
  in_bounds bsi -> len (Bytes bsi) - ByteOffset bsi < length ->
  Read bsi length = Returns (([], Some "Read is OOB"%string), bsi).
Proof.
  intros Hb Hlt. unfold Read. rewrite (Remaining_in_bounds bsi Hb). cbn.
  replace (_ <? length) with true by (symmetry; apply Z.ltb_lt; lia).
  reflexivity.
Qed.

(** The success branch of [Read]: exactly [length] bytes from the offset,
    and the offset moved past them. *)
Lemma Read_ok bsi length :
  in_bounds bsi -> 0 <= length <= len (Bytes bsi) - ByteOffset bsi ->
  Read bsi length =
    Returns ((take (Z.to_nat length) (drop (Z.to_nat (ByteOffset bsi))
                                        (Bytes bsi)), None),
             mkStream (Bytes bsi) (ByteOffset bsi + length)).
Proof.
  intros Hb Hle. pose proof Hb as [Hoff Hlen].
  unfold Read. rewrite (Remaining_in_bounds bsi Hb). cbn.
  replace (_ <? length) with false by (symmetry; apply Z.ltb_ge; lia).
  rewrite wrap_int_small by (unfold in_int; lia).
  unfold ReadBytesNext. rewrite slice_in_range by lia. cbn.
  replace (ByteOffset bsi + length - ByteOffset bsi) with length by lia.
  reflexivity.
Qed.

Lemma Read_ok_in_bounds bsi length :
  in_bounds bsi -> 0 <= length <= len (Bytes bsi) - ByteOffset bsi ->
  in_bounds (mkStream (Bytes bsi) (ByteOffset bsi + length)).
Proof. unfold in_bounds; cbn. lia. Qed.

Lemma le_combine_nonneg bs : 0 <= le_combine bs.
Proof.
  induction bs as [| b bs IH]; cbn [le_combine]; [lia |].
  apply Z.lor_nonneg. split; [lia |]. now apply Z.shiftl_nonneg.
Qed.

(** [ReadPrimitiveUInt32LE] with fewer than four bytes left. *)
Lemma ReadPrimitiveUInt32LE_short bsi :
  in_bounds bsi -> len (Bytes bsi) - ByteOffset bsi < 4 ->
  ReadPrimitiveUInt32LE bsi =
    Returns ((0, Some "Not enough data to read uint32"%string), bsi).
Proof.
  intros Hb Hlt. unfold ReadPrimitiveUInt32LE.
  rewrite (Remaining_in_bounds bsi Hb). cbn.
  replace (_ <? 4) with true by (symmetry; apply Z.ltb_lt; lia).
  reflexivity.
Qed.

(** [ReadPrimitiveUInt32LE] with four bytes or more left. *)
Lemma ReadPrimitiveUInt32LE_ok bsi :
  in_bounds bsi -> 4 <= len (Bytes bsi) - ByteOffset bsi ->
  ReadPrimitiveUInt32LE bsi =
    Returns ((le_combine (take 4 (drop (Z.to_nat (ByteOffset bsi))
                                    (Bytes bsi))), None),
             mkStream (Bytes bsi) (ByteOffset bsi + 4)).
Proof.
  intros Hb Hle. pose proof Hb as [Hoff Hlen].
  unfold ReadPrimitiveUInt32LE.
  rewrite (Remaining_in_bounds bsi Hb). cbn.
  replace (_ <? 4) with false by (symmetry; apply Z.ltb_ge; lia).
  unfold ReadU32LENext1, ReadBytesNext.
  rewrite slice_in_range by lia. cbn.
  replace (ByteOffset bsi + 4 - ByteOffset bsi) with 4 by lia.
  reflexivity.
Qed.

Lemma le_combine_bound bs : le_combine bs < 2 ^ (8 * len bs).
Proof.
  induction bs as [| b bs IH]; [reflexivity |].
  cbn [le_combine].
  assert (Hb : 0 <= Z.of_N (Byte.to_N b) < 2 ^ 8).
  { pose proof (Byte.to_N_bounded b) as Hle.
    change (2 ^ 8) with 256. lia. }
  rewrite lor_shiftl_disjoint by lia.
  pose proof (le_combine_nonneg bs) as Hnn.
  unfold len in *. cbn [length]. rewrite Nat2Z.inj_succ.
  replace (8 * Z.succ (Z.of_nat (length bs)))
    with (8 + 8 * Z.of_nat (length bs)) by lia.
  rewrite Z.pow_add_r by lia. nia.
Qed.

(** The length prefix that [ExtractFrom] reads at the offset. *)
Lemma stated_length_range bsi :
  let stated := le_combine (take 4 (drop (Z.to_nat (ByteOffset bsi))
                                      (Bytes bsi))) in
  0 <= stated < 2 ^ 32.
Proof.
  intros stated. split; [apply le_combine_nonneg |].
  eapply Z.lt_le_trans; [apply le_combine_bound |].
  apply Z.pow_le_mono_r; [lia |]. unfold len. rewrite length_take. lia.
Qed.

(** [ExtractFrom], case by case. *)
Lemma ExtractFrom_short b bsi :
  in_bounds bsi -> len (Bytes bsi) - ByteOffset bsi < 4 ->
  Types.ExtractFrom b bsi =
    Returns ((Some ("Failed to read NEX Buffer length. "
                    ++ "Not enough data to read uint32")%string, b), bsi).
Proof.
  intros Hb Hlt. unfold Types.ExtractFrom. cbn.
  rewrite (ReadPrimitiveUInt32LE_short bsi Hb Hlt). reflexivity.
Qed.

Lemma ExtractFrom_oob b bsi :
  in_bounds bsi -> 4 <= len (Bytes bsi) - ByteOffset bsi ->
  len (Bytes bsi) - (ByteOffset bsi + 4)
    < le_combine (take 4 (drop (Z.to_nat (ByteOffset bsi)) (Bytes bsi))) ->
  Types.ExtractFrom b bsi =
    Returns ((Some ("Failed to read NEX Buffer data. "
                    ++ "Read is OOB")%string, b),
             mkStream (Bytes bsi) (ByteOffset bsi + 4)).
Proof.
  intros Hb Hle Hlt. unfold Types.ExtractFrom. cbn.
  rewrite (ReadPrimitiveUInt32LE_ok bsi Hb Hle). cbn.
  pose proof (stated_length_range bsi) as Hst. cbv zeta in Hst.
  rewrite to_uint64_small by lia.
  rewrite Read_oob; [reflexivity | | cbn; lia].
  apply (Read_ok_in_bounds bsi 4 Hb). lia.
Qed.

Lemma ExtractFrom_ok b bsi :
  in_bounds bsi -> 4 <= len (Bytes bsi) - ByteOffset bsi ->
  let stated := le_combine (take 4 (drop (Z.to_nat (ByteOffset bsi))
                                      (Bytes bsi))) in
  stated <= len (Bytes bsi) - (ByteOffset bsi + 4) ->
  Types.ExtractFrom b bsi =
    Returns ((None, take (Z.to_nat stated)
                      (drop (Z.to_nat (ByteOffset bsi + 4)) (Bytes bsi))),
             mkStream (Bytes bsi) (ByteOffset bsi + 4 + stated)).
Proof.
  intros Hb Hle stated Hfit. unfold Types.ExtractFrom. cbn.
  rewrite (ReadPrimitiveUInt32LE_ok bsi Hb Hle). cbn.
  pose proof (stated_length_range bsi) as Hst. cbv zeta in Hst.
  fold stated in Hst |- *.
  rewrite to_uint64_small by lia.
  rewrite Read_ok; [reflexivity | | cbn; lia].
  apply (Read_ok_in_bounds bsi 4 Hb). lia.
Qed.

Example ExtractFrom_two_of_three :
  Types.ExtractFrom [] (NewByteStreamIn
     [Byte.x02; Byte.x00; Byte.x00; Byte.x00; Byte.x0a; Byte.x0b; Byte.x0c])
  = Returns ((None, [Byte.x0a; Byte.x0b]),
             mkStream
               [Byte.x02; Byte.x00; Byte.x00; Byte.x00;
                Byte.x0a; Byte.x0b; Byte.x0c] 6).
Proof. reflexivity. Qed.

Example ExtractFrom_five_of_one :
  Types.ExtractFrom [] (NewByteStreamIn
     [Byte.x05; Byte.x00; Byte.x00; Byte.x00; Byte.x0a])
  = Returns ((Some "Failed to read NEX Buffer data. Read is OOB"%string, []),
             mkStream [Byte.x05; Byte.x00; Byte.x00; Byte.x00; Byte.x0a] 4).
Proof. reflexivity. Qed.

(** C6.  On a stream whose offset lies inside its buffer: [Read] of a
    length above the remaining byte count returns an error, and never
    panics on any [uint64] length; [Buffer.ExtractFrom] never panics, and
    when the uint32 length it reads exceeds the bytes left after the prefix
    it returns an error and leaves the receiver as it was. *)
Theorem length_prefix_validated (bsi : ByteStreamIn) (b : Types.Buffer) :
  in_bounds bsi ->
  (forall length, len (Bytes bsi) - ByteOffset bsi < length ->
     exists e, Read bsi length = Returns (([], Some e), bsi))
  /\ (forall length, 0 <= length -> ~ panics (Read bsi length))
  /\ ~ panics (Types.ExtractFrom b bsi)
  /\ (forall stated bsi',
        ReadPrimitiveUInt32LE bsi = Returns ((stated, None), bsi') ->
        len (Bytes bsi') - ByteOffset bsi' < stated ->
        exists e, Types.ExtractFrom b bsi = Returns ((Some e, b), bsi')).
Proof.
  intros Hb. repeat split.
  - intros length Hlt. eexists. apply (Read_oob bsi length Hb Hlt).
  - intros length Hnn [msg Hp].
    destruct (Z.lt_ge_cases (len (Bytes bsi) - ByteOffset bsi) length).
    + rewrite Read_oob in Hp by assumption. discriminate.
    + rewrite Read_ok in Hp by (assumption || lia). discriminate.
  - intros [msg Hp].
    destruct (Z.lt_ge_cases (len (Bytes bsi) - ByteOffset bsi) 4) as [H4 | H4].
    + rewrite ExtractFrom_short in Hp by assumption. discriminate.
    + destruct (Z.lt_ge_cases
                  (len (Bytes bsi) - (ByteOffset bsi + 4))
                  (le_combine (take 4 (drop (Z.to_nat (ByteOffset bsi))
                                         (Bytes bsi))))) as [Ho | Ho].
      * rewrite ExtractFrom_oob in Hp by assumption. discriminate.
      * rewrite ExtractFrom_ok in Hp by assumption. discriminate.
  - intros stated bsi' Hread Hlt.
    destruct (Z.lt_ge_cases (len (Bytes bsi) - ByteOffset bsi) 4) as [H4 | H4].
    + rewrite ReadPrimitiveUInt32LE_short in Hread by assumption.
      discriminate.
    + rewrite ReadPrimitiveUInt32LE_ok in Hread by assumption.
      injection Hread as <- <-. cbn in Hlt.
      eexists. apply ExtractFrom_oob; assumption.
Qed.

Lemma length_prefix_validated_witness :
  in_bounds
    (NewByteStreamIn [Byte.x05; Byte.x00; Byte.x00; Byte.x00; Byte.x0a])
  /\ exists e,
    Types.ExtractFrom []
      (NewByteStreamIn [Byte.x05; Byte.x00; Byte.x00; Byte.x00; Byte.x0a])
    = Returns ((Some e, []),
               mkStream [Byte.x05; Byte.x00; Byte.x00; Byte.x00; Byte.x0a] 4).
Proof.
  assert (Hb : in_bounds
                 (NewByteStreamIn
                    [Byte.x05; Byte.x00; Byte.x00; Byte.x00; Byte.x0a])).
  { apply NewByteStreamIn_in_bounds. reflexivity. }
  split; [exact Hb |].
  destruct (length_prefix_validated
              (NewByteStreamIn
                 [Byte.x05; Byte.x00; Byte.x00; Byte.x00; Byte.x0a]) [] Hb)
    as (_ & _ & _ & Hoob).
  apply (Hoob 5); reflexivity.
Defined.

(** C9.  On a stream whose offset lies inside its buffer, a [Read] of more
    bytes than remain returns the empty slice together with the error
    "Read is OOB", and the stream afterwards is the stream before: same
    bytes, same read position. *)
Theorem Read_failure_is_atomic (bsi : ByteStreamIn) (length : Z) :
  in_bounds bsi -> len (Bytes bsi) - ByteOffset bsi < length ->
  Remaining bsi = Returns (len (Bytes bsi) - ByteOffset bsi)
  /\ exists e bsi',
       Read bsi length = Returns (([], Some e), bsi')
       /\ Bytes bsi' = Bytes bsi /\ ByteOffset bsi' = ByteOffset bsi.
Proof.
  intros Hb Hlt. split; [apply (Remaining_in_bounds bsi Hb) |].
  exists "Read is OOB"%string, bsi.
  split; [apply (Read_oob bsi length Hb Hlt) | split; reflexivity].
Qed.

Lemma Read_failure_is_atomic_witness :
  in_bounds (mkStream [Byte.x01; Byte.x02; Byte.x03] 1)
  /\ exists e bsi',
       Read (mkStream [Byte.x01; Byte.x02; Byte.x03] 1) 3
         = Returns (([], Some e), bsi')
       /\ Bytes bsi' = [Byte.x01; Byte.x02; Byte.x03] /\ ByteOffset bsi' = 1.
Proof.
  assert (Hb : in_bounds (mkStream [Byte.x01; Byte.x02; Byte.x03] 1)).
  { unfold in_bounds, len; cbn [Bytes ByteOffset length]. lia. }
  split; [exact Hb |].
  apply (Read_failure_is_atomic
           (mkStream [Byte.x01; Byte.x02; Byte.x03] 1) 3 Hb).
  unfold len; cbn [Bytes ByteOffset length]. lia.
Defined.

End ByteStreamFacts.

(** ** The server: binding and inbound dispatch *)

Section ServerFacts.
Import GoInt GoRuntime PRUDP.
Context `{C : Collaborators} `{!PacketCodec}.

Lemma Has_true (m : gmap Z (PRUDPEndPoint EP)) k :
  Has m k = true <-> is_Some (m !! k).
Proof. unfold Has. apply bool_decide_eq_true. Qed.

Lemma Has_false (m : gmap Z (PRUDPEndPoint EP)) k :
  Has m k = false <-> m !! k = None.
Proof.
  unfold Has. rewrite bool_decide_eq_false. symmetry. apply eq_None_not_Some.
Qed.

(** Binding a fresh stream id installs the endpoint, with its back
    pointer set. *)
Lemma BindPRUDPEndPoint_fresh ps (endpoint : PRUDPEndPoint EP) :
  Endpoints ps !! epStreamID endpoint = None ->
  Endpoints (fst (BindPRUDPEndPoint ps endpoint)) !! epStreamID endpoint
  = Some (mkEndPoint (epStreamID endpoint) (Some (self ps))
            (epState endpoint)).
Proof.
  intros Hfree. unfold BindPRUDPEndPoint.
  apply Has_false in Hfree. rewrite Hfree. cbn.
  unfold Set_. apply lookup_insert_eq.
Qed.

(** C7.  When the endpoint's stream id is already in the [Endpoints] map,
    [BindPRUDPEndPoint] returns the server as it was: the map is unchanged,
    the endpoint bound before is still the one found under that id, and
    the only effect is one warning in the log. *)
Theorem BindPRUDPEndPoint_already_bound ps (endpoint : PRUDPEndPoint EP) :
  is_Some (Endpoints ps !! epStreamID endpoint) ->
  fst (BindPRUDPEndPoint ps endpoint) = ps
  /\ Endpoints (fst (BindPRUDPEndPoint ps endpoint)) = Endpoints ps
  /\ Endpoints (fst (BindPRUDPEndPoint ps endpoint)) !! epStreamID endpoint
     = Endpoints ps !! epStreamID endpoint
  /\ exists msg, snd (BindPRUDPEndPoint ps endpoint) = [LogWarning msg].
Proof.
  intros Hbound. unfold BindPRUDPEndPoint.
  apply Has_true in Hbound. rewrite Hbound. cbn.
  repeat split. eexists. reflexivity.
Qed.

(** C8.  A server made by [NewPRUDPServer] has fragment size 1300 and
    session-key length 32. *)
Theorem NewPRUDPServer_defaults (addr : Handle) :
  FragmentSize (NewPRUDPServer addr) = 1300
  /\ SessionKeyLength (NewPRUDPServer addr) = 32.
Proof. split; reflexivity. Qed.

(** [processPacket] branch by branch. *)
Lemma processPacket_unbound ps packet address ws :
  Endpoints ps !! DestinationVirtualPortStreamID packet = None ->
  processPacket ps packet address ws
  = (Some (ErrUnboundEndPoint address
             (DestinationVirtualPortStreamID packet)), ps).
Proof.
  intros Hnone. unfold processPacket.
  apply Has_false in Hnone. now rewrite Hnone.
Qed.

(** Past the lookups, [processPacket] is a chain of conditionals. *)
Lemma processPacket_bound ps packet address ws endpoint :
  Endpoints ps !! DestinationVirtualPortStreamID packet = Some endpoint ->
  processPacket ps packet address ws =
  if negb (DestinationVirtualPortStreamType packet
           =? SourceVirtualPortStreamType packet)
  then (Some (ErrStreamTypeMismatch address
                (DestinationVirtualPortStreamType packet)
                (SourceVirtualPortStreamType packet)), ps)
  else if StreamTypeRelay <? DestinationVirtualPortStreamType packet
  then (Some (ErrInvalidDestinationStreamType address
                (DestinationVirtualPortStreamType packet)), ps)
  else if StreamTypeRelay <? SourceVirtualPortStreamType packet
  then (Some (ErrInvalidSourceStreamType address
                (DestinationVirtualPortStreamType packet)), ps)
  else if (if isLite packet && (31 <? SourceVirtualPortStreamID packet)
           then true
           else if 15 <? SourceVirtualPortStreamID packet then true
           else false)
  then (Some (ErrSourcePortTooLarge address
                (SourceVirtualPortStreamID packet)), ps)
  else (None,
        with_Endpoints ps
          (<[DestinationVirtualPortStreamID packet :=
               endpoint_processPacket endpoint packet
                 (NewSocketConnection ps address ws)]> (Endpoints ps))).
Proof.
  intros Hsome. unfold processPacket.
  assert (Hhas : Has (Endpoints ps)
                   (DestinationVirtualPortStreamID packet) = true).
  { apply Has_true. eauto. }
  rewrite Hhas. cbn [negb]. unfold Get. rewrite Hsome. reflexivity.
Qed.

(** The source-port test: anything above 15 sets [invalidSourcePort]. *)
Lemma invalidSourcePort_above_15 (lite : bool) port :
  15 < port ->
  (if lite && (31 <? port) then true
   else if 15 <? port then true else false) = true.
Proof.
  intros Hgt. apply Z.ltb_lt in Hgt. rewrite Hgt.
  now destruct (lite && (31 <? port)).
Qed.

Lemma invalidSourcePort_upto_15 (lite : bool) port :
  port <= 15 ->
  (if lite && (31 <? port) then true
   else if 15 <? port then true else false) = false.
Proof.
  intros Hle.
  replace (31 <? port) with false by (symmetry; apply Z.ltb_ge; lia).
  replace (15 <? port) with false by (symmetry; apply Z.ltb_ge; lia).
  now rewrite andb_false_r.
Qed.

(** C5.  If the destination stream id is unbound, or the destination and
    source stream types differ, or either stream type is above
    [StreamTypeRelay], or the source port number is above what the dialect
    allows (15, or 31 for lite), then [processPacket] returns an error
    and the server it leaves is the server it was given: no endpoint saw
    the packet. *)
Theorem processPacket_rejects_unchanged ps packet address ws :
  Endpoints ps !! DestinationVirtualPortStreamID packet = None
  \/ DestinationVirtualPortStreamType packet
     <> SourceVirtualPortStreamType packet
  \/ StreamTypeRelay < DestinationVirtualPortStreamType packet
  \/ StreamTypeRelay < SourceVirtualPortStreamType packet
  \/ (isLite packet = false /\ 15 < SourceVirtualPortStreamID packet)
  \/ (isLite packet = true /\ 31 < SourceVirtualPortStreamID packet) ->
  exists err, processPacket ps packet address ws = (Some err, ps).
Proof.
  intros Hfail.
  destruct (Endpoints ps !! DestinationVirtualPortStreamID packet)
    as [endpoint |] eqn:Hlook.
  2: { eexists. now apply processPacket_unbound. }
  rewrite (processPacket_bound ps packet address ws endpoint Hlook).
  destruct (negb (_ =? _)) eqn:Htypes; [eauto |].
  destruct (StreamTypeRelay <? DestinationVirtualPortStreamType packet)
    eqn:Hdst; [eauto |].
  destruct (StreamTypeRelay <? SourceVirtualPortStreamType packet)
    eqn:Hsrc; [eauto |].
  apply negb_false_iff, Z.eqb_eq in Htypes.
  apply Z.ltb_ge in Hdst, Hsrc.
  destruct Hfail as [Hf | [Hf | [Hf | [Hf | [[_ Hf] | [_ Hf]]]]]];
    try discriminate; try contradiction; try lia.
  all: rewrite invalidSourcePort_above_15 by lia; eauto.
Qed.

(** C3.  With the destination bound and the stream types equal
    and in range, a source port number of 32 is rejected as too large on
    every dialect, lite included; the non-lite dialects reject every
    source port above 15 and lite every source port above 31; a source
    port of at most 15 is accepted on every dialect. *)
Theorem processPacket_source_port ps packet address ws endpoint :
  Endpoints ps !! DestinationVirtualPortStreamID packet = Some endpoint ->
  DestinationVirtualPortStreamType packet
    = SourceVirtualPortStreamType packet ->
  DestinationVirtualPortStreamType packet <= StreamTypeRelay ->
  (SourceVirtualPortStreamID packet = 32 ->
     processPacket ps packet address ws
     = (Some (ErrSourcePortTooLarge address 32), ps))
  /\ (isLite packet = false -> 15 < SourceVirtualPortStreamID packet ->
        processPacket ps packet address ws
        = (Some (ErrSourcePortTooLarge address
                   (SourceVirtualPortStreamID packet)), ps))
  /\ (isLite packet = true -> 31 < SourceVirtualPortStreamID packet ->
        processPacket ps packet address ws
        = (Some (ErrSourcePortTooLarge address
                   (SourceVirtualPortStreamID packet)), ps))
  /\ (SourceVirtualPortStreamID packet <= 15 ->
        fst (processPacket ps packet address ws) = None).
Proof.
  intros Hlook Htypes Hrange.
  rewrite (processPacket_bound ps packet address ws endpoint Hlook).
  rewrite <- Htypes.
  replace (negb (_ =? _)) with false
    by (symmetry; apply negb_false_iff, Z.eqb_refl).
  replace (StreamTypeRelay <? _) with false
    by (symmetry; apply Z.ltb_ge; lia).
  repeat split.
  - intros H32. rewrite invalidSourcePort_above_15 by lia. now rewrite H32.
  - intros _ Hgt. now rewrite invalidSourcePort_above_15 by lia.
  - intros _ Hgt. now rewrite invalidSourcePort_above_15 by lia.
  - intros Hle. now rewrite invalidSourcePort_upto_15 by lia.
Qed.

(** C2.  A datagram of no bytes, and a datagram of the single byte 0x00,
    make [handleSocketMessage] panic whatever the server: the dialect
    detection indexes and slices the buffer before looking at its
    length. *)
Theorem handleSocketMessage_short_datagram_panics ps (address : string) :
  panics (serveUDPDatagram ps [] address)
  /\ panics (serveUDPDatagram ps [Byte.x00] address).
Proof.
  unfold serveUDPDatagram, handleSocketMessage.
  split; destruct (websocketServer ps); cbn; eexists; reflexivity.
Qed.

(** A datagram of two bytes or more gets past the dialect detection. *)
Lemma index_first b rest : index (make_copy (b :: rest)) 0 = Returns b.
Proof.
  unfold index, make_copy, len; cbn [elems length].
  replace (0 <? Z.of_nat (S (length rest))) with true
    by (symmetry; apply Z.ltb_lt; lia).
  reflexivity.
Qed.

Lemma reslice_first_two b0 b1 rest :
  reslice_to (make_copy (b0 :: b1 :: rest)) 2 = Returns [b0; b1].
Proof.
  unfold reslice_to, make_copy, cap, len; cbn [elems spare length].
  replace (2 <=? _) with true by (symmetry; apply Z.leb_le; lia).
  reflexivity.
Qed.

Lemma handleSocketMessage_two_bytes ps b0 b1 rest address ws :
  ~ panics (handleSocketMessage ps (make_copy (b0 :: b1 :: rest)) address ws).
Proof.
  intros [msg Hp]. unfold handleSocketMessage in Hp.
  rewrite index_first, reslice_first_two in Hp.
  destruct (websocketServer ps); cbn in Hp.
  - destruct (bool_decide (b0 = Byte.x80)); cbn in Hp; [discriminate |].
    destruct (bytes_Equal _ _); discriminate.
  - destruct (bytes_Equal _ _); discriminate.
Qed.

(** ** The server: the outbound path *)

(** C4.  A lite DATA packet with the Reliable flag (and neither Ack nor
    MultiAck) leaves [sendPacket] with its payload compressed and then
    encrypted by the substream's algorithms: the reliable branch has no
    test of the dialect. *)
Theorem sendPacket_lite_reliable_encrypted ps connection packet now :
  dialect packet = PRUDPPacketLite ->
  Type_ packet = DataPacket ->
  HasFlag packet PacketFlagReliable = true ->
  HasFlag packet PacketFlagAck = false ->
  HasFlag packet PacketFlagMultiAck = false ->
  let settings :=
    streamSettings
      (snd (NextOutgoingSequenceID
              (slidingWindows connection (SubstreamID packet)))) in
  Payload (snd (fst (sendPacket ps connection packet now)))
  = fst (Encrypt settings (fst (Compress settings (Payload packet)))).
Proof.
  intros _ Htype Hrel Hack Hmulti settings. subst settings.
  unfold sendPacket, assignSequenceID, transformPayload.
  unfold HasFlag, Type_, Payload, SubstreamID in *.
  rewrite Hack, Hmulti, Hrel. cbn [negb andb].
  destruct (NextOutgoingSequenceID _) as [id sw] eqn:Hnext.
  cbn [SetSessionID SetSequenceID flags packetType substreamID HasFlag
       Type_ SubstreamID Payload payload snd fst].
  rewrite Hack, Hmulti, Hrel, Htype.
  rewrite bool_decide_eq_true_2 by reflexivity. cbn [negb andb].
  unfold with_slidingWindow at 1 2. cbn [slidingWindows].
  rewrite bool_decide_eq_true_2 by reflexivity.
  destruct (Compress (streamSettings sw) (payload packet))
    as [compressed err1].
  cbn [fst snd].
  destruct (Encrypt (streamSettings sw) compressed) as [encrypted err2].
  cbn [fst snd].
  destruct (LegacyConnectionSignature _); reflexivity.
Qed.

(** The log lines and the write of [sendPacket] are no calls of it. *)
Lemma fragmentsSent_app (a b : list Event) :
  fragmentsSent (a ++ b) = fragmentsSent a ++ fragmentsSent b.
Proof. unfold fragmentsSent. apply omap_app. Qed.

Lemma fragmentsSent_log_error err : fragmentsSent (log_error err) = [].
Proof. now destruct err. Qed.

Lemma fragmentsSent_sendRaw ps socket data :
  fragmentsSent (sendRaw ps socket data) = [].
Proof.
  unfold sendRaw.
  destruct (Address socket), (udpSocket ps), (WebSocketConnection socket);
    reflexivity.
Qed.

Lemma fragmentsSent_transformPayload connection packetCopy :
  fragmentsSent (snd (transformPayload connection packetCopy)) = [].
Proof.
  unfold transformPayload.
  destruct (_ && _); [| reflexivity].
  destruct (HasFlag packetCopy PacketFlagReliable).
  - destruct (Compress _ _) as [compressed err1].
    destruct (Encrypt _ _) as [encrypted err2]. cbn [snd].
    now rewrite fragmentsSent_app, !fragmentsSent_log_error.
  - now destruct (negb _).
Qed.

Lemma fragmentsSent_sendPacket ps connection packet now :
  fragmentsSent (snd (sendPacket ps connection packet now)) = [].
Proof.
  unfold sendPacket.
  destruct (assignSequenceID connection packet now) as [packetCopy conn1].
  pose proof (fragmentsSent_transformPayload conn1
                (SetSessionID packetCopy (ServerSessionID conn1))) as Hlog.
  destruct (transformPayload _ _) as [packetCopy2 logged]. cbn [snd] in *.
  now rewrite fragmentsSent_app, Hlog, fragmentsSent_sendRaw.
Qed.

(** The two branches of the body of the loop of [Send]. *)
Lemma nextFragment_last ps packet data fragmentID :
  len data < FragmentSize ps ->
  nextFragment ps packet data fragmentID
  = Returns (setFragmentID (SetPayload packet data) 0, data, fragmentID).
Proof.
  intros Hlt. unfold nextFragment.
  replace (_ <? _) with true by (symmetry; apply Z.ltb_lt; lia).
  reflexivity.
Qed.

Lemma nextFragment_full ps packet data fragmentID :
  0 < FragmentSize ps <= len data ->
  nextFragment ps packet data fragmentID
  = Returns (setFragmentID
               (SetPayload packet (take (Z.to_nat (FragmentSize ps)) data))
               fragmentID,
             drop (Z.to_nat (FragmentSize ps)) data,
             to_uint8 (fragmentID + 1)).
Proof.
  intros Hsz. unfold nextFragment, slice_to, slice_from.
  replace (_ <? _) with false by (symmetry; apply Z.ltb_ge; lia).
  rewrite !slice_in_range by lia. cbn.
  rewrite Z.sub_0_r, drop_0.
  rewrite (take_ge (drop _ _)); [reflexivity |].
  unfold len. rewrite length_drop. lia.
Qed.

Lemma to_uint8_step fragmentID (j : nat) :
  to_uint8 (to_uint8 (fragmentID + 1) + Z.of_nat j)
  = to_uint8 (fragmentID + Z.of_nat (S j)).
Proof.
  unfold to_uint8. rewrite Zplus_mod_idemp_l. f_equal. lia.
Qed.

(** The loop of [Send] in closed form: with [n] full chunks ahead it hands
    over [n] packets of [FragmentSize] bytes with ids counting up from
    [fragmentID] (modulo 256), then one packet with id 0 and the rest. *)
Lemma Send_loop_closed_form ps :
  0 < FragmentSize ps ->
  forall (n : nat) data fragmentID i fragments packet connection now,
    Z.of_nat n = len data / FragmentSize ps ->
    0 <= fragmentID < 256 ->
    exists connection' events,
      Send_loop ps (S n) i fragments data fragmentID packet connection now
      = Returns (connection', events)
      /\ fragmentsSent events
         = ((fun j : nat =>
               (to_uint8 (fragmentID + Z.of_nat j),
                take (Z.to_nat (FragmentSize ps))
                  (drop (j * Z.to_nat (FragmentSize ps)) data)))
              <$> seq 0 n)
           ++ [(0, drop (n * Z.to_nat (FragmentSize ps)) data)].
Proof.
  intros Hsz. set (sz := Z.to_nat (FragmentSize ps)).
  induction n as [| n IH];
    intros data fragmentID i fragments packet connection now Hn Hid.
  - assert (Hshort : len data < FragmentSize ps).
    { destruct (Z.lt_ge_cases (len data) (FragmentSize ps)) as [Hlt | Hge];
        [assumption |].
      pose proof (Z.div_le_lower_bound (len data) (FragmentSize ps) 1 Hsz).
      lia. }
    cbn [Send_loop]. rewrite nextFragment_last by assumption. cbn.
    pose proof (fragmentsSent_sendPacket ps connection
                  (setFragmentID (SetPayload packet data) 0) now) as Hsent.
    destruct (sendPacket _ _ _ _) as [[connection' packetCopy] sent].
    cbn [snd] in Hsent.
    eexists _, _. split; [reflexivity |].
    change (fragmentsSent (CallSendPacket ?p :: ?l))
      with ((PRUDP.fragmentID p, Payload p) :: fragmentsSent l).
    rewrite !fragmentsSent_app, Hsent.
    destruct (i <? fragments); reflexivity.
  - assert (Hfull : FragmentSize ps <= len data).
    { destruct (Z.lt_ge_cases (len data) (FragmentSize ps)) as [Hlt | Hge];
        [| lia].
      rewrite Z.div_small in Hn by (unfold len in *; lia). lia. }
    change (Send_loop ps (S (S n)) i fragments data fragmentID packet
              connection now)
      with ('(packet', data', fragmentID') ←
              nextFragment ps packet data fragmentID;
            let '((connection', _), sent) :=
              sendPacket ps connection packet' now in
            let pause := if i <? fragments then [Sleep 16] else [] in
            let now' := if i <? fragments then now + 16 else now in
            '(connection'', later) ←
              Send_loop ps (S n) (i + 1) fragments data' fragmentID'
                packet' connection' now';
            mret (connection'',
                  CallSendPacket packet' :: sent ++ pause ++ later)).
    rewrite nextFragment_full by lia. cbn [mbind outcome_bind].
    fold sz.
    pose proof (fragmentsSent_sendPacket ps connection
                  (setFragmentID (SetPayload packet (take sz data))
                     fragmentID) now) as Hsent.
    destruct (sendPacket _ _ _ _) as [[connection' packetCopy] sent].
    cbn [snd] in Hsent.
    assert (Hn' : Z.of_nat n = len (drop sz data) / FragmentSize ps).
    { unfold len in *. rewrite length_drop.
      replace (Z.of_nat (length data - sz))
        with (Z.of_nat (length data) + (-1) * FragmentSize ps)
        by (subst sz; lia).
      rewrite Z.div_add by lia. lia. }
    assert (Hid' : 0 <= to_uint8 (fragmentID + 1) < 256).
    { unfold to_uint8. change (2 ^ 8) with 256.
      apply Z.mod_pos_bound. lia. }
    destruct (IH (drop sz data) (to_uint8 (fragmentID + 1)) (i + 1) fragments
                (setFragmentID (SetPayload packet (take sz data)) fragmentID)
                connection' (if i <? fragments then now + 16 else now)
                Hn' Hid')
      as (connection'' & later & Hrun & Hlater).
    rewrite Hrun. cbn [mbind outcome_bind mret outcome_ret].
    eexists _, _. split; [reflexivity |].
    change (fragmentsSent (CallSendPacket ?p :: ?l))
      with ((PRUDP.fragmentID p, Payload p) :: fragmentsSent l).
    rewrite !fragmentsSent_app, Hsent, Hlater.
    replace (fragmentsSent (if i <? fragments then [Sleep 16] else []))
      with (@nil (Z * list byte)) by (now destruct (i <? fragments)).
    cbn [app seq fmap list_fmap Payload payload setFragmentID
         SetPayload PRUDP.fragmentID].
    change (Z.of_nat 0) with 0. change (0 * sz)%nat with 0%nat.
    rewrite Z.add_0_r, drop_0.
    replace (to_uint8 fragmentID) with fragmentID
      by (unfold to_uint8; now rewrite Z.mod_small).
    f_equal. f_equal.
    + rewrite <- fmap_S_seq, <- list_fmap_compose.
      apply list_fmap_ext. intros k j _. unfold compose.
      now rewrite to_uint8_step, drop_drop.
    + now rewrite drop_drop.
Qed.

(** Cutting a list into [m] chunks of [sz] and a rest loses nothing. *)
Lemma concat_chunks (sz : nat) (data : list byte) (m : nat) :
  concat ((fun j : nat => take sz (drop (j * sz) data)) <$> seq 0 m)
    ++ drop (m * sz) data
  = data.
Proof.
  induction m as [| m IH]; [apply drop_0 |].
  rewrite seq_S, fmap_app, concat_app. cbn [fmap list_fmap concat].
  rewrite app_nil_r, <- app_assoc.
  replace (S m * sz)%nat with (m * sz + sz)%nat by lia.
  rewrite <- drop_drop, take_drop. exact IH.
Qed.

(** C1.  With a positive fragment size and a payload of at most
    255 full chunks, [Send] returns after handing [sendPacket] exactly
    [len / FragmentSize + 1] packets: the full chunks, of [FragmentSize]
    bytes each, with fragment ids 1, 2, ... in order, then one packet with
    fragment id 0 carrying the bytes left over, none when the length is a
    multiple of the fragment size; the payloads concatenate to the
    original.  So 3,900 bytes at fragment size 1300 go out as four packets
    with ids 1, 2, 3, 0, the last one empty. *)
Theorem Send_fragments ps connection packet now :
  0 < FragmentSize ps ->
  len (Payload packet) / FragmentSize ps <= 255 ->
  exists connection' events,
    Send ps connection (IsPRUDP packet) now = Returns (connection', events)
    /\ let frs := fragmentsSent events in
       let sz := Z.to_nat (FragmentSize ps) in
       let k := Z.to_nat (len (Payload packet) / FragmentSize ps) in
       length frs = S k
       /\ fst <$> frs = ((fun j : nat => Z.of_nat j + 1) <$> seq 0 k) ++ [0]
       /\ snd <$> frs
          = ((fun j : nat => take sz (drop (j * sz) (Payload packet)))
               <$> seq 0 k)
            ++ [drop (k * sz) (Payload packet)]
       /\ concat (snd <$> frs) = Payload packet
       /\ (len (Payload packet) = 3900 -> FragmentSize ps = 1300 ->
           fst <$> frs = [1; 2; 3; 0] /\ last (snd <$> frs) = Some []).
Proof.
  intros Hsz Hmax.
  assert (Hk : 0 <= len (Payload packet) / FragmentSize ps).
  { apply Z.div_pos; unfold len; lia. }
  unfold Send.
  replace (FragmentSize ps =? 0) with false
    by (symmetry; apply Z.eqb_neq; lia).
  cbn [mbind outcome_bind mret outcome_ret].
  rewrite Z.quot_div_nonneg by (unfold len; lia).
  replace (Z.to_nat (len (Payload packet) / FragmentSize ps + 1))
    with (S (Z.to_nat (len (Payload packet) / FragmentSize ps))) by lia.
  destruct (Send_loop_closed_form ps Hsz
              (Z.to_nat (len (Payload packet) / FragmentSize ps))
              (Payload packet) 1 0
              (len (Payload packet) / FragmentSize ps) packet connection now)
    as (connection' & events & Hrun & Hfrs); [lia | lia |].
  exists connection', events. split; [exact Hrun |].
  cbv zeta. rewrite Hfrs.
  set (k := Z.to_nat (len (Payload packet) / FragmentSize ps)) in *.
  set (sz := Z.to_nat (FragmentSize ps)) in *.
  assert (Hids : fst <$> ((fun j : nat =>
                   (to_uint8 (1 + Z.of_nat j),
                    take sz (drop (j * sz) (Payload packet)))) <$> seq 0 k)
                 ++ [(0, drop (k * sz) (Payload packet))]
                 = ((fun j : nat => Z.of_nat j + 1) <$> seq 0 k) ++ [0]).
  { rewrite fmap_app, <- list_fmap_compose. f_equal.
    apply list_fmap_ext. intros i j Hj. unfold compose. cbn [fst].
    apply lookup_seq in Hj as [-> Hlt].
    unfold to_uint8. change (2 ^ 8) with 256.
    rewrite Z.mod_small by (subst k; lia). lia. }
  assert (Hpay : snd <$> ((fun j : nat =>
                   (to_uint8 (1 + Z.of_nat j),
                    take sz (drop (j * sz) (Payload packet)))) <$> seq 0 k)
                 ++ [(0, drop (k * sz) (Payload packet))]
                 = ((fun j : nat => take sz (drop (j * sz) (Payload packet)))
                      <$> seq 0 k)
                   ++ [drop (k * sz) (Payload packet)]).
  { now rewrite fmap_app, <- list_fmap_compose. }
  rewrite Hids, Hpay.
  split; [| split; [reflexivity | split; [reflexivity | split]]].
  - rewrite length_app, length_fmap, length_seq. cbn. lia.
  - rewrite concat_app. cbn [concat]. rewrite app_nil_r.
    apply concat_chunks.
  - intros Hlen Hsize.
    assert (Hk3 : k = 3%nat) by (subst k; rewrite Hlen, Hsize; reflexivity).
    rewrite Hk3. split; [reflexivity |].
    rewrite last_snoc. f_equal. apply drop_ge.
    unfold len in Hlen. subst sz. rewrite Hsize. lia.
Qed.

End ServerFacts.

(** ** The statements above at concrete inputs *)

Section Runs.
Import GoInt GoRuntime PRUDP.

(** The server of [Demo] has the endpoint of stream id 1, with its back
    pointer set by the binding. *)
Lemma Demo_server_endpoint :
  Endpoints Demo.server !! 1 = Some (mkEndPoint 1 (Some 0%nat) []).
Proof. reflexivity. Qed.

Lemma BindPRUDPEndPoint_already_bound_witness :
  fst (BindPRUDPEndPoint Demo.server Demo.endpoint1') = Demo.server
  /\ Endpoints (fst (BindPRUDPEndPoint Demo.server Demo.endpoint1')) !! 1
     = Some (mkEndPoint 1 (Some 0%nat) []).
Proof.
  destruct (BindPRUDPEndPoint_already_bound Demo.server Demo.endpoint1')
    as (Hsame & _ & Hkept & _).
  - exists (mkEndPoint 1 (Some 0%nat) []). reflexivity.
  - split; [exact Hsame |]. etransitivity; [exact Hkept | reflexivity].
Defined.

Lemma processPacket_rejects_unchanged_witness :
  exists err,
    processPacket Demo.server (Demo.dataPacket PRUDPPacketV1 1 2 [])
      Demo.client None
    = (Some err, Demo.server).
Proof.
  apply (processPacket_rejects_unchanged Demo.server
           (Demo.dataPacket PRUDPPacketV1 1 2 []) Demo.client None).
  left. reflexivity.
Defined.

(** A packet that passes every check reaches its endpoint. *)
Example processPacket_delivers :
  let packet := Demo.dataPacket PRUDPPacketV1 15 1 [] in
  let '(err, ps) := processPacket Demo.server packet Demo.client None in
  err = None
  /\ Endpoints ps !! 1
     = Some (mkEndPoint 1 (Some 0%nat)
               [(packet, mkSocket 0%nat Demo.client None)]).
Proof. split; reflexivity. Qed.

(** Source port 32 on a lite packet: rejected as too large. *)
Lemma lite_source_port_32_rejected :
  fst (processPacket Demo.server (Demo.dataPacket PRUDPPacketLite 32 1 [])
         Demo.client None)
  = Some (ErrSourcePortTooLarge Demo.client 32)
  /\ fst (processPacket Demo.server (Demo.dataPacket PRUDPPacketLite 32 1 [])
            Demo.client None)
     <> None.
Proof. split; [reflexivity | discriminate]. Qed.

(** Source ports 16 to 31 on a lite packet fall through to the second
    test of the source-port check. *)
Example lite_source_port_16 :
  fst (processPacket Demo.server (Demo.dataPacket PRUDPPacketLite 16 1 [])
         Demo.client None)
  = Some (ErrSourcePortTooLarge Demo.client 16).
Proof. reflexivity. Qed.

Lemma processPacket_source_port_witness :
  processPacket Demo.server (Demo.dataPacket PRUDPPacketLite 32 1 [])
    Demo.client None
  = (Some (ErrSourcePortTooLarge Demo.client 32), Demo.server)
  /\ fst (processPacket Demo.server (Demo.dataPacket PRUDPPacketV0 15 1 [])
            Demo.client None)
     = None.
Proof.
  split.
  - destruct (processPacket_source_port Demo.server
                (Demo.dataPacket PRUDPPacketLite 32 1 []) Demo.client None
                (mkEndPoint 1 (Some 0%nat) []))
      as (H32 & _); [reflexivity | reflexivity | vm_compute; discriminate |].
    apply H32. reflexivity.
  - destruct (processPacket_source_port Demo.server
                (Demo.dataPacket PRUDPPacketV0 15 1 []) Demo.client None
                (mkEndPoint 1 (Some 0%nat) []))
      as (_ & _ & _ & Hok);
      [reflexivity | reflexivity | vm_compute; discriminate |].
    apply Hok. vm_compute; discriminate.
Defined.

(** The empty datagram on a server fresh from [NewPRUDPServer]. *)
Example empty_datagram_panics :
  @serveUDPDatagram Demo.collaborators Demo.codec
    (NewPRUDPServer 0%nat) [] "10.0.0.2:60000"
  = Panics "slice bounds out of range".
Proof. reflexivity. Qed.

(** A lite reliable DATA packet with payload 0x01 goes out as 0xfe. *)
Lemma sendPacket_lite_reliable_encrypted_witness :
  Payload (snd (fst (sendPacket Demo.server Demo.connection
                       (Demo.dataPacket PRUDPPacketLite 1 1 [Byte.x01]) 0)))
  = [Byte.xfe].
Proof.
  etransitivity.
  - apply (sendPacket_lite_reliable_encrypted Demo.server Demo.connection
             (Demo.dataPacket PRUDPPacketLite 1 1 [Byte.x01]) 0);
      reflexivity.
  - reflexivity.
Defined.

(** An unreliable lite DATA packet keeps its payload; a v1 one does not. *)
Example sendPacket_unreliable_lite_and_v1 :
  let unreliable d :=
    mkPacket d DataPacket (fun _ => false) (mkPort 10 1) (mkPort 10 1)
      0 0 0 0 [Byte.x01] [] 0 0 in
  Payload (snd (fst (sendPacket Demo.server Demo.connection
                       (unreliable PRUDPPacketLite) 0))) = [Byte.x01]
  /\ Payload (snd (fst (sendPacket Demo.server Demo.connection
                          (unreliable PRUDPPacketV1) 0))) = [Byte.xfe].
Proof. split; reflexivity. Qed.

(** 3,900 bytes at fragment size 1300: four packets, ids 1, 2, 3, 0. *)
Lemma Send_3900_is_four_fragments :
  let frs :=
    Demo.sentFragments
      (Send Demo.server Demo.connection
         (IsPRUDP (Demo.dataPacket PRUDPPacketV1 1 1
                     (replicate 3900 Byte.x00))) 0) in
  length frs = 4%nat
  /\ fst <$> frs = [1; 2; 3; 0]
  /\ length <$> (snd <$> frs) = [1300; 1300; 1300; 0]%nat
  /\ ~ (length frs = 3%nat /\ fst <$> frs = [1; 2; 0]).
Proof.
  vm_compute. repeat split. intros [Hlen _]. discriminate.
Qed.

Lemma Send_fragments_witness :
  exists connection' events,
    Send Demo.server Demo.connection
      (IsPRUDP (Demo.dataPacket PRUDPPacketV1 1 1 (replicate 3900 Byte.x00)))
      0
    = Returns (connection', events)
    /\ fst <$> fragmentsSent events = [1; 2; 3; 0].
Proof.
  destruct (Send_fragments Demo.server Demo.connection
              (Demo.dataPacket PRUDPPacketV1 1 1 (replicate 3900 Byte.x00)) 0)
    as (connection' & events & Hrun & _ & _ & _ & _ & H3900).
  - vm_compute. reflexivity.
  - vm_compute. discriminate.
  - exists connection', events. split; [exact Hrun |].
    apply H3900; vm_compute; reflexivity.
Defined.

(** A payload that is shorter than the fragment size goes out whole, as
    one packet with fragment id 0. *)
Example Send_small_payload :
  Demo.sentFragments
    (Send Demo.server Demo.connection
       (IsPRUDP (Demo.dataPacket PRUDPPacketV1 1 1 [Byte.x01; Byte.x02])) 0)
  = [(0, [Byte.x01; Byte.x02])].
Proof. reflexivity. Qed.

End Runs.

(** ** ByteStreamIn: the other readers *)

Section ByteStreamReaders.
Import GoInt GoRuntime ByteStreamIn.

Local Abbreviation remaining bsi := (len (Bytes bsi) - ByteOffset bsi).
Local Abbreviation upcoming bsi n :=
  (take n (drop (Z.to_nat (ByteOffset bsi)) (Bytes bsi))).
Local Abbreviation advanced bsi n :=
  (mkStream (Bytes bsi) (ByteOffset bsi + n)).

Lemma ReadBytesNext_ok bsi n :
  in_bounds bsi -> 0 <= n <= remaining bsi ->
  ReadBytesNext bsi n = Returns (upcoming bsi (Z.to_nat n), advanced bsi n).
Proof.
  intros [Hoff Hlen] Hn. unfold ReadBytesNext.
  rewrite slice_in_range by lia. cbn.
  replace (ByteOffset bsi + n - ByteOffset bsi) with n by lia.
  reflexivity.
Qed.

Lemma len_upcoming bsi (n : nat) :
  in_bounds bsi -> Z.of_nat n <= remaining bsi ->
  len (upcoming bsi n) = Z.of_nat n.
Proof.
  intros [Hoff Hlen] Hn. unfold len in *.
  rewrite length_take, length_drop. lia.
Qed.

Lemma ReadByteNext_ok bsi :
  in_bounds bsi -> 1 <= remaining bsi ->
  exists b,
    upcoming bsi 1 = [b]
    /\ ReadByteNext bsi = Returns (b, advanced bsi 1).
Proof.
  intros [Hoff Hlen] Hn. unfold ReadByteNext.
  replace (0 <=? ByteOffset bsi) with true
    by (symmetry; apply Z.leb_le; lia).
  destruct (Bytes bsi !! Z.to_nat (ByteOffset bsi)) as [b |] eqn:Hb.
  - exists b. split; [| reflexivity].
    rewrite (drop_S _ b _ Hb). reflexivity.
  - apply lookup_ge_None in Hb. unfold len in *. lia.
Qed.

Lemma advanced_in_bounds bsi n :
  in_bounds bsi -> 0 <= n <= remaining bsi -> in_bounds (advanced bsi n).
Proof. unfold in_bounds; cbn. lia. Qed.

Lemma checked_short {A} bsi width (zero : A) msg read :
  in_bounds bsi -> remaining bsi < width ->
  checked bsi width zero msg read = Returns ((zero, Some msg), bsi).
Proof.
  intros Hb Hlt. unfold checked. rewrite (Remaining_in_bounds bsi Hb). cbn.
  replace (_ <? width) with true by (symmetry; apply Z.ltb_lt; lia).
  reflexivity.
Qed.

Lemma checked_enough {A} bsi width (zero : A) msg read :
  in_bounds bsi -> width <= remaining bsi ->
  checked bsi width zero msg read
  = ('(v, bsi') ← read bsi; mret ((v, None), bsi')).
Proof.
  intros Hb Hle. unfold checked. rewrite (Remaining_in_bounds bsi Hb). cbn.
  replace (_ <? width) with false by (symmetry; apply Z.ltb_ge; lia).
  reflexivity.
Qed.

Lemma to_signed_range w z :
  0 < w -> - 2 ^ (w - 1) <= to_signed w z < 2 ^ (w - 1).
Proof.
  intros Hw. unfold to_signed.
  assert (H2 : 2 ^ w = 2 * 2 ^ (w - 1)).
  { rewrite <- Z.pow_succ_r by lia. f_equal. lia. }
  pose proof (Z.mod_pos_bound (z + 2 ^ (w - 1)) (2 ^ w)
                ltac:(apply Z.pow_pos_nonneg; lia)).
  lia.
Qed.

Lemma to_signed_congruent w z :
  0 < w -> (to_signed w z) mod 2 ^ w = z mod 2 ^ w.
Proof.
  intros Hw. unfold to_signed.
  assert (Hpos : 0 < 2 ^ w) by (apply Z.pow_pos_nonneg; lia).
  rewrite Zminus_mod, Zmod_mod, <- Zminus_mod. f_equal. lia.
Qed.

Lemma to_signed_small w z :
  0 < w -> - 2 ^ (w - 1) <= z < 2 ^ (w - 1) -> to_signed w z = z.
Proof.
  intros Hw Hz. unfold to_signed.
  assert (H2 : 2 ^ w = 2 * 2 ^ (w - 1)).
  { rewrite <- Z.pow_succ_r by lia. f_equal. lia. }
  rewrite Z.mod_small by lia. lia.
Qed.

(** X1.  [Read] of a length that fits returns exactly the next [length]
    bytes with no error, leaves the bytes alone, and the remaining count
    drops by [length]. *)
Theorem Read_returns_next_bytes bsi length :
  in_bounds bsi -> 0 <= length <= remaining bsi ->
  exists out bsi',
    Read bsi length = Returns ((out, None), bsi')
    /\ out = upcoming bsi (Z.to_nat length)
    /\ len out = length
    /\ Bytes bsi' = Bytes bsi
    /\ in_bounds bsi'
    /\ Remaining bsi' = Returns (remaining bsi - length).
Proof.
  intros Hb Hlen. eexists _, _. split; [apply Read_ok; assumption |].
  split; [reflexivity |]. split.
  { rewrite len_upcoming by (assumption || lia). lia. }
  split; [reflexivity |].
  pose proof (Read_ok_in_bounds bsi length Hb Hlen) as Hb'.
  split; [exact Hb' |].
  rewrite (Remaining_in_bounds _ Hb'). cbn. f_equal. lia.
Qed.

Lemma Read_returns_next_bytes_witness :
  exists bsi',
    Read (mkStream [Byte.x01; Byte.x02; Byte.x03; Byte.x04] 1) 2
    = Returns (([Byte.x02; Byte.x03], None), bsi')
    /\ Remaining bsi' = Returns 1.
Proof.
  destruct (Read_returns_next_bytes
              (mkStream [Byte.x01; Byte.x02; Byte.x03; Byte.x04] 1) 2)
    as (out & bsi' & Hread & Hout & _ & _ & _ & Hrem).
  - unfold in_bounds, len; cbn [Bytes ByteOffset length]. lia.
  - unfold len; cbn [Bytes ByteOffset length]. lia.
  - exists bsi'. subst out. split; [exact Hread | exact Hrem].
Defined.

(** X2.  Two reads in a row return what one read of the summed length
    returns, cut in two, and end in the same stream. *)
Theorem Read_twice_is_Read_once bsi n m :
  in_bounds bsi -> 0 <= n -> 0 <= m -> n + m <= remaining bsi ->
  exists a b bsi1 bsi2,
    Read bsi n = Returns ((a, None), bsi1)
    /\ Read bsi1 m = Returns ((b, None), bsi2)
    /\ Read bsi (n + m) = Returns ((a ++ b, None), bsi2).
Proof.
  intros Hb Hn Hm Hfit.
  pose proof (Read_ok_in_bounds bsi n Hb ltac:(lia)) as Hb1.
  eexists _, _, _, _. split; [apply Read_ok; [assumption | lia] |].
  split; [apply Read_ok; [assumption | cbn; lia] |].
  rewrite Read_ok by (assumption || lia). cbn [Bytes ByteOffset].
  f_equal. f_equal; [| f_equal; lia]. f_equal.
  rewrite Z2Nat.inj_add by lia.
  rewrite <- take_take_drop, drop_drop. f_equal. f_equal. f_equal.
  destruct Hb as [Hoff _]. lia.
Qed.

Lemma Read_twice_is_Read_once_witness :
  exists bsi2,
    Read (mkStream [Byte.x01; Byte.x02; Byte.x03; Byte.x04] 0) 3
    = Returns (([Byte.x01] ++ [Byte.x02; Byte.x03], None), bsi2).
Proof.
  destruct (Read_twice_is_Read_once
              (mkStream [Byte.x01; Byte.x02; Byte.x03; Byte.x04] 0) 1 2)
    as (a & b & bsi1 & bsi2 & Ha & Hb & Hab).
  - unfold in_bounds, len; cbn [Bytes ByteOffset length]. lia.
  - lia.
  - lia.
  - unfold len; cbn [Bytes ByteOffset length]. lia.
  - exists bsi2. injection Ha as <- <-. injection Hb as <- _. exact Hab.
Defined.

(** X3.  [ReadRemaining] never fails on a stream in bounds: it returns
    every byte from the offset on and leaves nothing to read, so that any
    further [Read] of one byte or more is an error. *)
Theorem ReadRemaining_drains bsi :
  in_bounds bsi ->
  exists bsi',
    ReadRemaining bsi
    = Returns (drop (Z.to_nat (ByteOffset bsi)) (Bytes bsi), bsi')
    /\ Bytes bsi' = Bytes bsi
    /\ Remaining bsi' = Returns 0
    /\ forall length, 0 < length ->
         Read bsi' length = Returns (([], Some "Read is OOB"%string), bsi').
Proof.
  intros Hb. pose proof Hb as [Hoff Hlen].
  pose proof (Read_ok_in_bounds bsi (remaining bsi) Hb ltac:(lia)) as Hb'.
  exists (advanced bsi (remaining bsi)).
  split; [| split; [reflexivity | split]].
  - unfold ReadRemaining. rewrite (Remaining_in_bounds bsi Hb). cbn.
    rewrite to_uint64_small by lia.
    rewrite Read_ok by (assumption || lia). cbn.
    rewrite take_ge; [reflexivity |]. rewrite length_drop.
    unfold len. lia.
  - rewrite (Remaining_in_bounds _ Hb'). cbn. f_equal. lia.
  - intros length Hpos. apply Read_oob; [exact Hb' | cbn; lia].
Qed.

Lemma ReadRemaining_drains_witness :
  exists bsi',
    ReadRemaining (mkStream [Byte.x01; Byte.x02; Byte.x03] 1)
    = Returns ([Byte.x02; Byte.x03], bsi')
    /\ Remaining bsi' = Returns 0.
Proof.
  destruct (ReadRemaining_drains (mkStream [Byte.x01; Byte.x02; Byte.x03] 1))
    as (bsi' & Hread & _ & Hrem & _).
  - unfold in_bounds, len; cbn [Bytes ByteOffset length]. lia.
  - exists bsi'. split; [exact Hread | exact Hrem].
Defined.

(** X4.  A primitive reader that finds fewer bytes than its width returns
    the zero value and an error, and the stream is the stream it was
    given. *)
Theorem primitive_readers_fail_atomically bsi :
  in_bounds bsi ->
  (remaining bsi < 1 ->
     (exists e, ReadPrimitiveUInt8 bsi = Returns ((0, Some e), bsi))
     /\ (exists e, ReadPrimitiveInt8 bsi = Returns ((0, Some e), bsi))
     /\ (exists e, ReadPrimitiveBool bsi = Returns ((false, Some e), bsi)))
  /\ (remaining bsi < 2 ->
        (exists e, ReadPrimitiveUInt16LE bsi = Returns ((0, Some e), bsi))
        /\ (exists e, ReadPrimitiveInt16LE bsi = Returns ((0, Some e), bsi)))
  /\ (remaining bsi < 4 ->
        (exists e, ReadPrimitiveUInt32LE bsi = Returns ((0, Some e), bsi))
        /\ (exists e, ReadPrimitiveInt32LE bsi = Returns ((0, Some e), bsi)))
  /\ (remaining bsi < 8 ->
        (exists e, ReadPrimitiveUInt64LE bsi = Returns ((0, Some e), bsi))
        /\ (exists e, ReadPrimitiveInt64LE bsi = Returns ((0, Some e), bsi))).
Proof.
  intros Hb. repeat split; intros; eexists;
    first [ apply checked_short; assumption
          | apply ReadPrimitiveUInt32LE_short; assumption ].
Qed.

Lemma primitive_readers_fail_atomically_witness :
  exists e,
    ReadPrimitiveUInt64LE (mkStream [Byte.x01; Byte.x02; Byte.x03] 0)
    = Returns ((0, Some e), mkStream [Byte.x01; Byte.x02; Byte.x03] 0).
Proof.
  destruct (primitive_readers_fail_atomically
              (mkStream [Byte.x01; Byte.x02; Byte.x03] 0))
    as (_ & _ & _ & H8).
  - unfold in_bounds, len; cbn [Bytes ByteOffset length]. lia.
  - apply H8. unfold len; cbn [Bytes ByteOffset length]. lia.
Defined.

(** The multi-byte readers, when the bytes are there. *)
Lemma ReadU16LENext1_ok bsi :
  in_bounds bsi -> 2 <= remaining bsi ->
  ReadU16LENext1 bsi = Returns (le_combine (upcoming bsi 2), advanced bsi 2).
Proof.
  intros Hb Hle. unfold ReadU16LENext1.
  rewrite ReadBytesNext_ok by (assumption || lia). reflexivity.
Qed.

Lemma ReadU32LENext1_ok bsi :
  in_bounds bsi -> 4 <= remaining bsi ->
  ReadU32LENext1 bsi = Returns (le_combine (upcoming bsi 4), advanced bsi 4).
Proof.
  intros Hb Hle. unfold ReadU32LENext1.
  rewrite ReadBytesNext_ok by (assumption || lia). reflexivity.
Qed.

Lemma ReadU64LENext1_ok bsi :
  in_bounds bsi -> 8 <= remaining bsi ->
  ReadU64LENext1 bsi = Returns (le_combine (upcoming bsi 8), advanced bsi 8).
Proof.
  intros Hb Hle. unfold ReadU64LENext1.
  rewrite ReadBytesNext_ok by (assumption || lia). reflexivity.
Qed.

Lemma le_combine_upcoming_range bsi (n : nat) :
  0 <= le_combine (upcoming bsi n) < 2 ^ (8 * Z.of_nat n).
Proof.
  split; [apply le_combine_nonneg |].
  eapply Z.lt_le_trans; [apply le_combine_bound |].
  apply Z.pow_le_mono_r; [lia |]. unfold len. rewrite length_take. lia.
Qed.

(** X5.  With enough bytes left, the little-endian readers return the
    value of the next 2, 4 or 8 bytes, least significant byte first, which
    lies in the range of the unsigned type, and move the offset past
    exactly those bytes; the signed readers return the same bits read as
    two's complement. *)
Theorem little_endian_readers_decode bsi :
  in_bounds bsi ->
  (2 <= remaining bsi ->
     let v := le_combine (upcoming bsi 2) in
     0 <= v < 2 ^ 16
     /\ ReadPrimitiveUInt16LE bsi = Returns ((v, None), advanced bsi 2)
     /\ ReadPrimitiveInt16LE bsi
        = Returns ((to_signed 16 v, None), advanced bsi 2))
  /\ (4 <= remaining bsi ->
        let v := le_combine (upcoming bsi 4) in
        0 <= v < 2 ^ 32
        /\ ReadPrimitiveUInt32LE bsi = Returns ((v, None), advanced bsi 4)
        /\ ReadPrimitiveInt32LE bsi
           = Returns ((to_signed 32 v, None), advanced bsi 4))
  /\ (8 <= remaining bsi ->
        let v := le_combine (upcoming bsi 8) in
        0 <= v < 2 ^ 64
        /\ ReadPrimitiveUInt64LE bsi = Returns ((v, None), advanced bsi 8)
        /\ ReadPrimitiveInt64LE bsi
           = Returns ((to_signed 64 v, None), advanced bsi 8)).
Proof.
  intros Hb. split; [| split]; intros Hle v; subst v; (split; [| split]).
  - apply (le_combine_upcoming_range bsi 2).
  - unfold ReadPrimitiveUInt16LE. rewrite checked_enough by assumption.
    now rewrite ReadU16LENext1_ok.
  - unfold ReadPrimitiveInt16LE. rewrite checked_enough by assumption.
    cbn. now rewrite ReadU16LENext1_ok.
  - apply (le_combine_upcoming_range bsi 4).
  - now apply ReadPrimitiveUInt32LE_ok.
  - unfold ReadPrimitiveInt32LE. rewrite checked_enough by assumption.
    cbn. now rewrite ReadU32LENext1_ok.
  - apply (le_combine_upcoming_range bsi 8).
  - unfold ReadPrimitiveUInt64LE. rewrite checked_enough by assumption.
    now rewrite ReadU64LENext1_ok.
  - unfold ReadPrimitiveInt64LE. rewrite checked_enough by assumption.
    cbn. now rewrite ReadU64LENext1_ok.
Qed.

Lemma little_endian_readers_decode_witness :
  ReadPrimitiveUInt16LE (mkStream [Byte.x00; Byte.x34; Byte.xff] 1)
  = Returns ((65332, None), mkStream [Byte.x00; Byte.x34; Byte.xff] 3)
  /\ ReadPrimitiveInt16LE (mkStream [Byte.x00; Byte.x34; Byte.xff] 1)
     = Returns ((-204, None), mkStream [Byte.x00; Byte.x34; Byte.xff] 3).
Proof.
  destruct (little_endian_readers_decode
              (mkStream [Byte.x00; Byte.x34; Byte.xff] 1))
    as (H2 & _).
  - unfold in_bounds, len; cbn [Bytes ByteOffset length]. lia.
  - destruct H2 as (_ & Hu & Hs).
    + unfold len; cbn [Bytes ByteOffset length]. lia.
    + split; [exact Hu | exact Hs].
Defined.

(** X6.  With a byte left, the one-byte readers all consume that byte:
    [ReadPrimitiveUInt8] returns its value (0 to 255),
    [ReadPrimitiveInt8] the same value less 256 when it is 128 or more,
    and [ReadPrimitiveBool] is true for the byte 1 and false for every
    other byte. *)
Theorem one_byte_readers_decode bsi :
  in_bounds bsi -> 1 <= remaining bsi ->
  exists b,
    Bytes bsi !! Z.to_nat (ByteOffset bsi) = Some b
    /\ 0 <= uint8_of_byte b < 256
    /\ ReadPrimitiveUInt8 bsi
       = Returns ((uint8_of_byte b, None), advanced bsi 1)
    /\ ReadPrimitiveInt8 bsi
       = Returns ((if uint8_of_byte b <? 128 then uint8_of_byte b
                   else uint8_of_byte b - 256, None), advanced bsi 1)
    /\ ReadPrimitiveBool bsi
       = Returns ((bool_decide (uint8_of_byte b = 1), None), advanced bsi 1).
Proof.
  intros Hb Hle.
  destruct (ReadByteNext_ok bsi Hb Hle) as (b & Hnext & Hread).
  exists b.
  assert (Hrange : 0 <= uint8_of_byte b < 256).
  { unfold uint8_of_byte. pose proof (Byte.to_N_bounded b). lia. }
  split.
  { destruct (Bytes bsi !! Z.to_nat (ByteOffset bsi)) as [b' |] eqn:Hb'.
    - rewrite (drop_S _ b' _ Hb') in Hnext. cbn in Hnext. congruence.
    - apply lookup_ge_None in Hb'. destruct Hb as [Hoff _].
      unfold len in *. lia. }
  split; [exact Hrange |].
  unfold ReadPrimitiveUInt8, ReadPrimitiveInt8, ReadPrimitiveBool.
  rewrite !checked_enough by assumption. rewrite Hread. cbn.
  repeat split.
  - do 3 f_equal. unfold to_signed. change (2 ^ (8 - 1)) with 128.
    change (2 ^ 8) with 256.
    destruct (Z.ltb_spec (uint8_of_byte b) 128).
    + rewrite Z.mod_small by lia. lia.
    + replace (uint8_of_byte b + 128)
        with (uint8_of_byte b - 128 + 1 * 256) by lia.
      rewrite Z.mod_add by lia. rewrite Z.mod_small by lia. lia.
  - do 3 f_equal. apply bool_decide_ext. split.
    + intros ->. reflexivity.
    + intros H1. unfold uint8_of_byte in H1.
      apply (f_equal Z.to_N) in H1. rewrite N2Z.id in H1.
      apply (f_equal Byte.of_N) in H1. rewrite Byte.of_to_N in H1.
      cbn in H1. congruence.
Qed.

Lemma one_byte_readers_decode_witness :
  ReadPrimitiveInt8 (mkStream [Byte.xfe; Byte.x02] 0)
  = Returns ((-2, None), mkStream [Byte.xfe; Byte.x02] 1)
  /\ ReadPrimitiveBool (mkStream [Byte.xfe; Byte.x02] 1)
     = Returns ((false, None), mkStream [Byte.xfe; Byte.x02] 2).
Proof.
  split.
  - destruct (one_byte_readers_decode (mkStream [Byte.xfe; Byte.x02] 0))
      as (b & Hb & _ & _ & Hs & _).
    + unfold in_bounds, len; cbn [Bytes ByteOffset length]. lia.
    + unfold len; cbn [Bytes ByteOffset length]. lia.
    + cbn in Hb. injection Hb as <-. exact Hs.
  - destruct (one_byte_readers_decode (mkStream [Byte.xfe; Byte.x02] 1))
      as (b & Hb & _ & _ & _ & Hbool).
    + unfold in_bounds, len; cbn [Bytes ByteOffset length]. lia.
    + unfold len; cbn [Bytes ByteOffset length]. lia.
    + cbn in Hb. injection Hb as <-. exact Hbool.
Defined.

Lemma keeps_bounds_unchanged {A} bsi (r : A) :
  in_bounds bsi -> keeps_bounds bsi (Returns (r, bsi)).
Proof.
  intros Hb. exists r, bsi.
  split; [reflexivity | split; [assumption | split; [reflexivity | lia]]].
Qed.

Lemma keeps_bounds_advanced {A} bsi (r : A) n :
  in_bounds bsi -> 0 <= n <= remaining bsi ->
  keeps_bounds bsi (Returns (r, advanced bsi n)).
Proof.
  intros Hb Hn. exists r, (advanced bsi n).
  split; [reflexivity |]. split; [now apply advanced_in_bounds |].
  split; [reflexivity | cbn; lia].
Qed.

Lemma keeps_bounds_checked {A} bsi width (zero : A) msg read v :
  in_bounds bsi -> 0 <= width ->
  (width <= remaining bsi -> read bsi = Returns (v, advanced bsi width)) ->
  keeps_bounds bsi (checked bsi width zero msg read).
Proof.
  intros Hb Hw Hread.
  destruct (Z.lt_ge_cases (remaining bsi) width) as [Hlt | Hge].
  - rewrite checked_short by assumption. now apply keeps_bounds_unchanged.
  - rewrite checked_enough by assumption. rewrite (Hread Hge). cbn.
    apply keeps_bounds_advanced; [assumption | lia].
Qed.

(** X7.  On a stream whose offset lies inside its buffer no reader
    panics, and whatever a reader returns, value or error, the stream it
    leaves has the same bytes and an offset that is no smaller and still
    inside the buffer. *)
Theorem readers_keep_in_bounds bsi :
  in_bounds bsi ->
  keeps_bounds bsi (ReadPrimitiveUInt8 bsi)
  /\ keeps_bounds bsi (ReadPrimitiveUInt16LE bsi)
  /\ keeps_bounds bsi (ReadPrimitiveUInt32LE bsi)
  /\ keeps_bounds bsi (ReadPrimitiveUInt64LE bsi)
  /\ keeps_bounds bsi (ReadPrimitiveInt8 bsi)
  /\ keeps_bounds bsi (ReadPrimitiveInt16LE bsi)
  /\ keeps_bounds bsi (ReadPrimitiveInt32LE bsi)
  /\ keeps_bounds bsi (ReadPrimitiveInt64LE bsi)
  /\ keeps_bounds bsi (ReadPrimitiveBool bsi)
  /\ keeps_bounds bsi (ReadRemaining bsi)
  /\ (forall length, 0 <= length -> keeps_bounds bsi (Read bsi length))
  /\ (forall b, keeps_bounds bsi (Types.ExtractFrom b bsi)).
Proof.
  intros Hb. pose proof Hb as [Hoff Hlen].
  assert (Hbyte : forall (A : Type) (f : byte -> A) (zero : A) msg,
            keeps_bounds bsi
              (checked bsi 1 zero msg
                 (fun bsi => '(b, bsi') ← ReadByteNext bsi;
                             mret (f b, bsi')))).
  { intros A f zero msg.
    destruct (Z.lt_ge_cases (remaining bsi) 1) as [Hlt | Hge].
    - rewrite checked_short by assumption.
      now apply keeps_bounds_unchanged.
    - rewrite checked_enough by assumption.
      destruct (ReadByteNext_ok bsi Hb Hge) as (b & _ & ->). cbn.
      apply keeps_bounds_advanced; [assumption | lia]. }
  assert (Hread : forall length, 0 <= length ->
            keeps_bounds bsi (Read bsi length)).
  { intros length Hnn.
    destruct (Z.lt_ge_cases (remaining bsi) length) as [Hlt | Hge].
    - rewrite Read_oob by assumption. now apply keeps_bounds_unchanged.
    - rewrite Read_ok by (assumption || lia).
      apply keeps_bounds_advanced; [assumption | lia]. }
  split; [apply Hbyte |].
  split.
  { eapply keeps_bounds_checked; [assumption | lia |].
    intros Hge. now apply ReadU16LENext1_ok. }
  split.
  { destruct (Z.lt_ge_cases (remaining bsi) 4) as [Hlt | Hge].
    - rewrite ReadPrimitiveUInt32LE_short by assumption.
      now apply keeps_bounds_unchanged.
    - rewrite ReadPrimitiveUInt32LE_ok by assumption.
      apply keeps_bounds_advanced; [assumption | lia]. }
  split.
  { eapply keeps_bounds_checked; [assumption | lia |].
    intros Hge. now apply ReadU64LENext1_ok. }
  split; [apply Hbyte |].
  split.
  { eapply keeps_bounds_checked; [assumption | lia |].
    intros Hge. cbn. now rewrite ReadU16LENext1_ok. }
  split.
  { eapply keeps_bounds_checked; [assumption | lia |].
    intros Hge. cbn. now rewrite ReadU32LENext1_ok. }
  split.
  { eapply keeps_bounds_checked; [assumption | lia |].
    intros Hge. cbn. now rewrite ReadU64LENext1_ok. }
  split; [apply Hbyte |].
  split.
  { unfold ReadRemaining. rewrite (Remaining_in_bounds bsi Hb). cbn.
    rewrite to_uint64_small by lia.
    rewrite Read_ok by (assumption || lia). cbn.
    apply keeps_bounds_advanced; [assumption | lia]. }
  split; [exact Hread |].
  intros b.
  destruct (Z.lt_ge_cases (remaining bsi) 4) as [H4 | H4].
  - rewrite ExtractFrom_short by assumption.
    now apply keeps_bounds_unchanged.
  - destruct (Z.lt_ge_cases
                (len (Bytes bsi) - (ByteOffset bsi + 4))
                (le_combine (upcoming bsi 4))) as [Ho | Ho].
    + rewrite ExtractFrom_oob by assumption.
      apply keeps_bounds_advanced; [assumption | lia].
    + rewrite ExtractFrom_ok by assumption.
      pose proof (le_combine_nonneg (upcoming bsi 4)).
      replace (ByteOffset bsi + 4 + le_combine (upcoming bsi 4))
        with (ByteOffset bsi + (4 + le_combine (upcoming bsi 4))) by lia.
      apply keeps_bounds_advanced; [assumption | lia].
Qed.

Lemma readers_keep_in_bounds_witness :
  keeps_bounds (mkStream [Byte.x01; Byte.x02; Byte.x03] 2)
    (ReadPrimitiveUInt16LE (mkStream [Byte.x01; Byte.x02; Byte.x03] 2)).
Proof.
  apply (readers_keep_in_bounds (mkStream [Byte.x01; Byte.x02; Byte.x03] 2)).
  unfold in_bounds, len; cbn [Bytes ByteOffset length]. lia.
Defined.

End ByteStreamReaders.

(** ** StreamOut: what the writers add *)

Section StreamOutFacts.
Import GoInt GoRuntime StreamOut.
#[local] Existing Instance ByteStreamIn.ByteStreamIn_Readable.

Lemma uint8_of_byte_of_Z z :
  ByteStreamIn.uint8_of_byte (byte_of_Z z) = z mod 256.
Proof.
  unfold ByteStreamIn.uint8_of_byte, byte_of_Z.
  pose proof (Z.mod_pos_bound z 256 ltac:(lia)) as Hr.
  pose proof (Byte.to_of_N_option_map (Z.to_N (z mod 256))) as Hmap.
  replace (N.leb (Z.to_N (z mod 256)) 255) with true in Hmap
    by (symmetry; apply N.leb_le; lia).
  destruct (Byte.of_N (Z.to_N (z mod 256))) as [b |]; [| discriminate].
  cbn in Hmap |- *. injection Hmap as ->. lia.
Qed.

Lemma byte_of_Z_uint8 b : byte_of_Z (ByteStreamIn.uint8_of_byte b) = b.
Proof.
  unfold ByteStreamIn.uint8_of_byte, byte_of_Z.
  pose proof (Byte.to_N_bounded b).
  rewrite Z.mod_small by lia. rewrite N2Z.id, Byte.of_to_N. reflexivity.
Qed.

Lemma length_le_bytes n v : length (le_bytes n v) = n.
Proof. revert v. induction n as [| n IH]; intros v; cbn; [| rewrite IH]; lia. Qed.

Lemma len_le_bytes n v : len (le_bytes n v) = Z.of_nat n.
Proof. unfold len. now rewrite length_le_bytes. Qed.


(** Little-endian bytes put together again give the value modulo
    [2^(8n)]. *)
Lemma le_combine_le_bytes n v :
  ByteStreamIn.le_combine (le_bytes n v) = v mod 2 ^ (8 * Z.of_nat n).
Proof.
  revert v. induction n as [| n IH]; intros v.
  - cbn. now rewrite Z.mod_1_r.
  - cbn [le_bytes ByteStreamIn.le_combine].
    fold (ByteStreamIn.uint8_of_byte (byte_of_Z v)).
    rewrite uint8_of_byte_of_Z, IH.
    pose proof (Z.mod_pos_bound v 256 ltac:(lia)).
    rewrite lor_shiftl_disjoint by (change (2 ^ 8) with 256; lia).
    replace (8 * Z.of_nat (S n)) with (8 + 8 * Z.of_nat n) by lia.
    rewrite Z.pow_add_r by lia. change (2 ^ 8) with 256.
    rewrite Z.rem_mul_r by (try apply Z.pow_pos_nonneg; lia). lia.
Qed.

(** A stream with [k] zero bytes grown and not yet written: growing
    adds to them, writing takes from them. *)
Lemma Grow_pending pre (k : nat) n :
  0 <= n ->
  Grow (mkStream (pre ++ replicate k Byte.x00) (len pre)) n
  = Returns (mkStream (pre ++ replicate (k + Z.to_nat n) Byte.x00) (len pre)).
Proof.
  intros Hn. unfold Grow.
  replace (0 <=? n) with true by (symmetry; apply Z.leb_le; lia).
  cbn [Bytes ByteOffset]. now rewrite <- app_assoc, replicate_add.
Qed.

Lemma WriteBytesNext_pending pre (k : nat) data :
  (length data <= k)%nat ->
  WriteBytesNext (mkStream (pre ++ replicate k Byte.x00) (len pre)) data
  = Returns (mkStream ((pre ++ data)
                       ++ replicate (k - length data) Byte.x00)
               (len (pre ++ data))).
Proof.
  intros Hk. unfold WriteBytesNext. cbn [Bytes ByteOffset].
  replace (0 <=? len pre) with true
    by (symmetry; apply Z.leb_le; unfold len; lia).
  replace (_ <=? _) with true
    by (symmetry; apply Z.leb_le; unfold len;
        rewrite length_app, length_replicate; lia).
  cbn [andb]. f_equal. unfold len. f_equal.
  - replace (Z.to_nat (Z.of_nat (length pre) + Z.of_nat (length data)))
      with (length pre + length data)%nat by lia.
    rewrite Nat2Z.id, take_app_length.
    rewrite drop_app_ge by lia.
    rewrite drop_replicate. rewrite <- app_assoc. do 3 f_equal. lia.
  - rewrite length_app. lia.
Qed.

Lemma at_end_pending stream :
  at_end stream ->
  stream = mkStream (Bytes stream ++ replicate 0 Byte.x00)
             (len (Bytes stream)).
Proof.
  destruct stream as [bs off]. unfold at_end. cbn. intros ->.
  now rewrite app_nil_r.
Qed.

Lemma pending_appended stream data :
  at_end stream ->
  mkStream ((Bytes stream ++ data) ++ replicate 0 Byte.x00)
    (len (Bytes stream ++ data))
  = appended stream data.
Proof.
  unfold at_end, appended. intros ->. cbn [replicate]. rewrite app_nil_r.
  f_equal. unfold len. rewrite length_app. lia.
Qed.

Lemma at_end_appended stream data :
  at_end stream -> at_end (appended stream data).
Proof.
  unfold at_end, appended. cbn. intros ->. unfold len.
  rewrite length_app. lia.
Qed.

Lemma appended_appended stream a b :
  appended (appended stream a) b = appended stream (a ++ b).
Proof.
  unfold appended. cbn. rewrite <- app_assoc. f_equal. unfold len.
  rewrite length_app. lia.
Qed.

Lemma appended_nil stream : appended stream [] = stream.
Proof.
  destruct stream as [bs off]. unfold appended. cbn.
  rewrite app_nil_r. f_equal. unfold len. cbn. lia.
Qed.

(** Growing by the length of [data] and writing [data] at the end. *)
Lemma Grow_then_write stream data :
  at_end stream ->
  (stream ← Grow stream (len data); WriteBytesNext stream data)
  = Returns (appended stream data).
Proof.
  intros Hend. rewrite (at_end_pending stream Hend) at 1.
  rewrite Grow_pending by (unfold len; lia).
  cbn [mbind outcome_bind].
  replace (0 + Z.to_nat (len data))%nat with (length data)
    by (unfold len; lia).
  rewrite WriteBytesNext_pending by lia.
  replace (length data - length data)%nat with 0%nat by lia.
  now rewrite pending_appended.
Qed.

Lemma Grow_then_write_fixed stream data n :
  at_end stream -> len data = n ->
  (stream ← Grow stream n; WriteBytesNext stream data)
  = Returns (appended stream data).
Proof. intros Hend <-. now apply Grow_then_write. Qed.



(** Reading back what was added at the end. *)
Lemma reader_in_bounds stream data :
  at_end stream -> len (Bytes stream) + len data < 2 ^ 63 ->
  ByteStreamIn.in_bounds (reader stream (appended stream data)).
Proof.
  unfold at_end, ByteStreamIn.in_bounds, reader, appended. cbn.
  intros -> Hlen. unfold len in *. rewrite length_app. lia.
Qed.

Lemma reader_remaining stream data :
  at_end stream ->
  len (ByteStreamIn.Bytes (reader stream (appended stream data)))
  - ByteStreamIn.ByteOffset (reader stream (appended stream data))
  = len data.
Proof.
  unfold at_end, reader, appended. cbn. intros ->. unfold len.
  rewrite length_app. lia.
Qed.

Lemma reader_upcoming stream data (n : nat) :
  at_end stream -> n = length data ->
  take n (drop (Z.to_nat (ByteStreamIn.ByteOffset
                            (reader stream (appended stream data))))
            (ByteStreamIn.Bytes (reader stream (appended stream data))))
  = data.
Proof.
  unfold at_end, reader, appended. cbn. intros -> ->. unfold len.
  rewrite Nat2Z.id, drop_app_length. now apply take_ge.
Qed.

Lemma reader_advanced stream data :
  ByteStreamIn.mkStream
    (ByteStreamIn.Bytes (reader stream (appended stream data)))
    (ByteStreamIn.ByteOffset (reader stream (appended stream data))
     + len data)
  = reader (appended stream data) (appended stream data).
Proof. reflexivity. Qed.

(** X9.  What the unsigned writers add is read back by the reader of the
    same width: a value in the range of its type written at the end of a
    stream and read from where the write began comes back unchanged, with
    no error, and the reader stops where the writer stopped. *)
Theorem unsigned_write_then_read stream :
  at_end stream -> len (Bytes stream) + 8 < 2 ^ 63 ->
  (forall v, 0 <= v < 2 ^ 8 ->
     exists stream',
       WriteUInt8 stream v = Returns stream'
       /\ ByteStreamIn.ReadPrimitiveUInt8 (reader stream stream')
          = Returns ((v, None), reader stream' stream'))
  /\ (forall v, 0 <= v < 2 ^ 16 ->
        exists stream',
          WriteUInt16LE stream v = Returns stream'
          /\ ByteStreamIn.ReadPrimitiveUInt16LE (reader stream stream')
             = Returns ((v, None), reader stream' stream'))
  /\ (forall v, 0 <= v < 2 ^ 32 ->
        exists stream',
          WriteUInt32LE stream v = Returns stream'
          /\ ByteStreamIn.ReadPrimitiveUInt32LE (reader stream stream')
             = Returns ((v, None), reader stream' stream'))
  /\ (forall v, 0 <= v < 2 ^ 64 ->
        exists stream',
          WriteUInt64LE stream v = Returns stream'
          /\ ByteStreamIn.ReadPrimitiveUInt64LE (reader stream stream')
             = Returns ((v, None), reader stream' stream')).
Proof.
  intros Hend Hlen.
  split; [| split; [| split]]; intros v Hv.
  - exists (appended stream [byte_of_Z v]).
    split; [now apply Grow_then_write_fixed |].
    assert (Hb : ByteStreamIn.in_bounds
                   (reader stream (appended stream [byte_of_Z v])))
      by (apply reader_in_bounds; [assumption | unfold len in *; cbn [length]; lia]).
    pose proof (reader_remaining stream [byte_of_Z v] Hend) as Hrem.
    unfold ByteStreamIn.ReadPrimitiveUInt8.
    rewrite checked_enough by (assumption || (rewrite Hrem; unfold len; cbn [length]; lia)).
    destruct (ReadByteNext_ok _ Hb ltac:(rewrite Hrem; unfold len; cbn [length]; lia))
      as (b & Hup & ->).
    rewrite (reader_upcoming stream [byte_of_Z v] 1 Hend eq_refl) in Hup.
    injection Hup as <-. cbn [mbind outcome_bind mret outcome_ret].
    rewrite uint8_of_byte_of_Z, Z.mod_small by (change (2 ^ 8) with 256 in Hv; lia).
    reflexivity.
  - exists (appended stream (le_bytes 2 v)).
    split; [apply Grow_then_write_fixed; [assumption | apply len_le_bytes] |].
    assert (Hb : ByteStreamIn.in_bounds
                   (reader stream (appended stream (le_bytes 2 v))))
      by (apply reader_in_bounds; [assumption | rewrite len_le_bytes; lia]).
    pose proof (reader_remaining stream (le_bytes 2 v) Hend) as Hrem.
    rewrite len_le_bytes in Hrem.
    unfold ByteStreamIn.ReadPrimitiveUInt16LE.
    rewrite checked_enough by (assumption || lia).
    rewrite ReadU16LENext1_ok by (assumption || lia).
    rewrite (reader_upcoming stream (le_bytes 2 v) 2 Hend)
      by (now rewrite length_le_bytes).
    rewrite le_combine_le_bytes, Z.mod_small by (exact Hv).
    reflexivity.
  - exists (appended stream (le_bytes 4 v)).
    split; [apply Grow_then_write_fixed; [assumption | apply len_le_bytes] |].
    assert (Hb : ByteStreamIn.in_bounds
                   (reader stream (appended stream (le_bytes 4 v))))
      by (apply reader_in_bounds; [assumption | rewrite len_le_bytes; lia]).
    pose proof (reader_remaining stream (le_bytes 4 v) Hend) as Hrem.
    rewrite len_le_bytes in Hrem.
    rewrite ReadPrimitiveUInt32LE_ok by (assumption || lia).
    rewrite (reader_upcoming stream (le_bytes 4 v) 4 Hend)
      by (now rewrite length_le_bytes).
    rewrite le_combine_le_bytes, Z.mod_small by (exact Hv).
    reflexivity.
  - exists (appended stream (le_bytes 8 v)).
    split; [apply Grow_then_write_fixed; [assumption | apply len_le_bytes] |].
    assert (Hb : ByteStreamIn.in_bounds
                   (reader stream (appended stream (le_bytes 8 v))))
      by (apply reader_in_bounds; [assumption | rewrite len_le_bytes; lia]).
    pose proof (reader_remaining stream (le_bytes 8 v) Hend) as Hrem.
    rewrite len_le_bytes in Hrem.
    unfold ByteStreamIn.ReadPrimitiveUInt64LE.
    rewrite checked_enough by (assumption || lia).
    rewrite ReadU64LENext1_ok by (assumption || lia).
    rewrite (reader_upcoming stream (le_bytes 8 v) 8 Hend)
      by (now rewrite length_le_bytes).
    rewrite le_combine_le_bytes, Z.mod_small by (exact Hv).
    reflexivity.
Qed.

Lemma unsigned_write_then_read_witness :
  exists stream',
    WriteUInt32LE NewStreamOut 3000000000 = Returns stream'
    /\ ByteStreamIn.ReadPrimitiveUInt32LE (reader NewStreamOut stream')
       = Returns ((3000000000, None), reader stream' stream').
Proof.
  destruct (unsigned_write_then_read NewStreamOut) as (_ & _ & H32 & _).
  - reflexivity.
  - vm_compute. reflexivity.
  - apply H32. lia.
Defined.

Lemma to_signed_of_mod w v :
  0 < w -> - 2 ^ (w - 1) <= v < 2 ^ (w - 1) ->
  to_signed w (v mod 2 ^ w) = v.
Proof.
  intros Hw Hv. unfold to_signed. rewrite Zplus_mod_idemp_l.
  fold (to_signed w v). now apply to_signed_small.
Qed.

(** X10.  The signed writers and readers, and the bool ones, round-trip
    in the same way: a value in the range of [int8], [int16], [int32] or
    [int64], or a bool, written at the end of a stream and read from where
    the write began comes back unchanged. *)
Theorem signed_write_then_read stream :
  at_end stream -> len (Bytes stream) + 8 < 2 ^ 63 ->
  (forall v, - 2 ^ 7 <= v < 2 ^ 7 ->
     exists stream',
       WriteInt8 stream v = Returns stream'
       /\ ByteStreamIn.ReadPrimitiveInt8 (reader stream stream')
          = Returns ((v, None), reader stream' stream'))
  /\ (forall v, - 2 ^ 15 <= v < 2 ^ 15 ->
        exists stream',
          WriteInt16LE stream v = Returns stream'
          /\ ByteStreamIn.ReadPrimitiveInt16LE (reader stream stream')
             = Returns ((v, None), reader stream' stream'))
  /\ (forall v, - 2 ^ 31 <= v < 2 ^ 31 ->
        exists stream',
          WriteInt32LE stream v = Returns stream'
          /\ ByteStreamIn.ReadPrimitiveInt32LE (reader stream stream')
             = Returns ((v, None), reader stream' stream'))
  /\ (forall v, - 2 ^ 63 <= v < 2 ^ 63 ->
        exists stream',
          WriteInt64LE stream v = Returns stream'
          /\ ByteStreamIn.ReadPrimitiveInt64LE (reader stream stream')
             = Returns ((v, None), reader stream' stream'))
  /\ (forall b : bool,
        exists stream',
          WriteBool stream b = Returns stream'
          /\ ByteStreamIn.ReadPrimitiveBool (reader stream stream')
             = Returns ((b, None), reader stream' stream')).
Proof.
  intros Hend Hlen.
  split; [| split; [| split; [| split]]].
  - intros v Hv. exists (appended stream [byte_of_Z v]).
    split; [now apply Grow_then_write_fixed |].
    assert (Hb : ByteStreamIn.in_bounds
                   (reader stream (appended stream [byte_of_Z v])))
      by (apply reader_in_bounds;
          [assumption | unfold len in *; cbn [length]; lia]).
    pose proof (reader_remaining stream [byte_of_Z v] Hend) as Hrem.
    unfold ByteStreamIn.ReadPrimitiveInt8.
    rewrite checked_enough
      by (assumption || (rewrite Hrem; unfold len; cbn [length]; lia)).
    destruct (ReadByteNext_ok _ Hb
                ltac:(rewrite Hrem; unfold len; cbn [length]; lia))
      as (b & Hup & ->).
    rewrite (reader_upcoming stream [byte_of_Z v] 1 Hend eq_refl) in Hup.
    injection Hup as <-. cbn [mbind outcome_bind mret outcome_ret].
    rewrite uint8_of_byte_of_Z. change 256 with (2 ^ 8).
    rewrite to_signed_of_mod by (cbn; lia). reflexivity.
  - intros v Hv. exists (appended stream (le_bytes 2 (to_uint16 v))).
    split; [apply Grow_then_write_fixed; [assumption | apply len_le_bytes] |].
    assert (Hb : ByteStreamIn.in_bounds
                   (reader stream (appended stream
                                     (le_bytes 2 (to_uint16 v)))))
      by (apply reader_in_bounds; [assumption | rewrite len_le_bytes; lia]).
    pose proof (reader_remaining stream (le_bytes 2 (to_uint16 v)) Hend)
      as Hrem.
    rewrite len_le_bytes in Hrem.
    unfold ByteStreamIn.ReadPrimitiveInt16LE.
    rewrite checked_enough by (assumption || lia).
    rewrite ReadU16LENext1_ok by (assumption || lia).
    rewrite (reader_upcoming stream _ 2 Hend)
      by (now rewrite length_le_bytes).
    cbn [mbind outcome_bind mret outcome_ret].
    rewrite le_combine_le_bytes. unfold to_uint16.
    change (8 * Z.of_nat 2) with 16. rewrite Zmod_mod.
    rewrite to_signed_of_mod by (cbn; lia). reflexivity.
  - intros v Hv. exists (appended stream (le_bytes 4 (to_uint32 v))).
    split; [apply Grow_then_write_fixed; [assumption | apply len_le_bytes] |].
    assert (Hb : ByteStreamIn.in_bounds
                   (reader stream (appended stream
                                     (le_bytes 4 (to_uint32 v)))))
      by (apply reader_in_bounds; [assumption | rewrite len_le_bytes; lia]).
    pose proof (reader_remaining stream (le_bytes 4 (to_uint32 v)) Hend)
      as Hrem.
    rewrite len_le_bytes in Hrem.
    unfold ByteStreamIn.ReadPrimitiveInt32LE.
    rewrite checked_enough by (assumption || lia).
    rewrite ReadU32LENext1_ok by (assumption || lia).
    rewrite (reader_upcoming stream _ 4 Hend)
      by (now rewrite length_le_bytes).
    cbn [mbind outcome_bind mret outcome_ret].
    rewrite le_combine_le_bytes. unfold to_uint32.
    change (8 * Z.of_nat 4) with 32. rewrite Zmod_mod.
    rewrite to_signed_of_mod by (cbn; lia). reflexivity.
  - intros v Hv. exists (appended stream (le_bytes 8 (to_uint64 v))).
    split; [apply Grow_then_write_fixed; [assumption | apply len_le_bytes] |].
    assert (Hb : ByteStreamIn.in_bounds
                   (reader stream (appended stream
                                     (le_bytes 8 (to_uint64 v)))))
      by (apply reader_in_bounds; [assumption | rewrite len_le_bytes; lia]).
    pose proof (reader_remaining stream (le_bytes 8 (to_uint64 v)) Hend)
      as Hrem.
    rewrite len_le_bytes in Hrem.
    unfold ByteStreamIn.ReadPrimitiveInt64LE.
    rewrite checked_enough by (assumption || lia).
    rewrite ReadU64LENext1_ok by (assumption || lia).
    rewrite (reader_upcoming stream _ 8 Hend)
      by (now rewrite length_le_bytes).
    cbn [mbind outcome_bind mret outcome_ret].
    rewrite le_combine_le_bytes. unfold to_uint64.
    change (8 * Z.of_nat 8) with 64. rewrite Zmod_mod.
    rewrite to_signed_of_mod by (cbn; lia). reflexivity.
  - intros b.
    exists (appended stream [byte_of_Z (if b then 1 else 0)]).
    split; [now apply Grow_then_write_fixed |].
    assert (Hb : ByteStreamIn.in_bounds
                   (reader stream
                      (appended stream [byte_of_Z (if b then 1 else 0)])))
      by (apply reader_in_bounds;
          [assumption | unfold len in *; cbn [length]; lia]).
    pose proof (reader_remaining stream
                  [byte_of_Z (if b then 1 else 0)] Hend) as Hrem.
    unfold ByteStreamIn.ReadPrimitiveBool.
    rewrite checked_enough
      by (assumption || (rewrite Hrem; unfold len; cbn [length]; lia)).
    destruct (ReadByteNext_ok _ Hb
                ltac:(rewrite Hrem; unfold len; cbn [length]; lia))
      as (b' & Hup & ->).
    rewrite (reader_upcoming stream [byte_of_Z (if b then 1 else 0)] 1
               Hend eq_refl) in Hup.
    injection Hup as <-. cbn [mbind outcome_bind mret outcome_ret].
    now destruct b.
Qed.

Lemma signed_write_then_read_witness :
  exists stream',
    WriteInt16LE NewStreamOut (-2) = Returns stream'
    /\ ByteStreamIn.ReadPrimitiveInt16LE (reader NewStreamOut stream')
       = Returns ((-2, None), reader stream' stream').
Proof.
  destruct (signed_write_then_read NewStreamOut) as (_ & H16 & _).
  - reflexivity.
  - vm_compute. reflexivity.
  - apply H16. lia.
Defined.

Lemma WriteUInt16LE_appends stream v :
  at_end stream -> WriteUInt16LE stream v = Returns (appended stream (le_bytes 2 v)).
Proof.
  intros Hend. apply Grow_then_write_fixed; [assumption | apply len_le_bytes].
Qed.

Lemma WriteUInt32LE_appends stream v :
  at_end stream -> WriteUInt32LE stream v = Returns (appended stream (le_bytes 4 v)).
Proof.
  intros Hend. apply Grow_then_write_fixed; [assumption | apply len_le_bytes].
Qed.

Lemma WriteBuffer_appends stream data :
  at_end stream -> len data < 2 ^ 63 ->
  WriteBuffer stream data
  = Returns (appended stream (le_bytes 4 (to_uint32 (len data)) ++ data)).
Proof.
  intros Hend Hlen. unfold WriteBuffer.
  rewrite WriteUInt32LE_appends by assumption.
  cbn [mbind outcome_bind mret outcome_ret].
  destruct (Z.ltb_spec 0 (len data)) as [Hpos | Hzero].
  - rewrite wrap_int_small by (unfold in_int, len in *; lia).
    rewrite Grow_then_write by now apply at_end_appended.
    now rewrite appended_appended.
  - assert (data = []) as ->
        by (destruct data; [reflexivity | unfold len in Hzero; cbn in Hzero; lia]).
    now rewrite app_nil_r.
Qed.

Lemma WriteQBuffer_appends stream data :
  at_end stream -> len data < 2 ^ 63 ->
  WriteQBuffer stream data
  = Returns (appended stream (le_bytes 2 (to_uint16 (len data)) ++ data)).
Proof.
  intros Hend Hlen. unfold WriteQBuffer.
  rewrite WriteUInt16LE_appends by assumption.
  cbn [mbind outcome_bind mret outcome_ret].
  destruct (Z.ltb_spec 0 (len data)) as [Hpos | Hzero].
  - rewrite wrap_int_small by (unfold in_int, len in *; lia).
    rewrite Grow_then_write by now apply at_end_appended.
    now rewrite appended_appended.
  - assert (data = []) as ->
        by (destruct data; [reflexivity | unfold len in Hzero; cbn in Hzero; lia]).
    now rewrite app_nil_r.
Qed.

Lemma WriteString_appends stream str :
  at_end stream -> len str + 1 < 2 ^ 63 ->
  WriteString stream str
  = Returns (appended stream
               (le_bytes 2 (to_uint16 (len str + 1)) ++ str ++ [Byte.x00])).
Proof.
  intros Hend Hlen. unfold WriteString, WriteUInt16LE, WriteU16LENext1.
  assert (Hl : len (str ++ [Byte.x00]) = len str + 1)
    by (unfold len; rewrite length_app; cbn; lia).
  rewrite Hl. rewrite wrap_int_small by (unfold in_int, len in *; lia).
  rewrite (at_end_pending stream Hend) at 1.
  rewrite Grow_pending by (unfold len; lia).
  cbn [mbind outcome_bind].
  rewrite Grow_pending by lia. cbn [mbind outcome_bind].
  rewrite WriteBytesNext_pending by (rewrite length_le_bytes; lia).
  cbn [mbind outcome_bind].
  rewrite length_le_bytes.
  rewrite WriteBytesNext_pending
    by (rewrite length_app; cbn [length]; unfold len; lia).
  replace (_ - length (str ++ [Byte.x00]))%nat with 0%nat
    by (rewrite length_app; cbn [length]; unfold len; lia).
  rewrite <- (app_assoc (Bytes stream) _ (str ++ [Byte.x00])).
  now rewrite pending_appended.
Qed.

(** X11.  The length-prefixed writers, on a stream whose offset is at its
    end: [WriteBuffer] adds the length as 4 little-endian bytes and then
    the data; [WriteQBuffer] adds only the low 16 bits of the length, as 2
    bytes, and then all of the data; [WriteString] adds the low 16 bits of
    the length plus one, the bytes of the string and a zero byte.  So a
    qBuffer of 65,536 bytes and a string of 65,535 bytes go out with a
    length field of zero. *)
Theorem length_prefixed_writers_layout stream data :
  at_end stream -> len data + 1 < 2 ^ 63 ->
  WriteBuffer stream data
  = Returns (appended stream (le_bytes 4 (to_uint32 (len data)) ++ data))
  /\ WriteQBuffer stream data
     = Returns (appended stream (le_bytes 2 (to_uint16 (len data)) ++ data))
  /\ WriteString stream data
     = Returns (appended stream
                  (le_bytes 2 (to_uint16 (len data + 1))
                   ++ data ++ [Byte.x00]))
  /\ (len data = 65536 ->
      le_bytes 2 (to_uint16 (len data)) = [Byte.x00; Byte.x00])
  /\ (len data = 65535 ->
      le_bytes 2 (to_uint16 (len data + 1)) = [Byte.x00; Byte.x00]).
Proof.
  intros Hend Hlen.
  split; [apply WriteBuffer_appends; [assumption | lia] |].
  split; [apply WriteQBuffer_appends; [assumption | lia] |].
  split; [now apply WriteString_appends |].
  split; intros ->; reflexivity.
Qed.

Lemma length_prefixed_writers_layout_witness :
  WriteString NewStreamOut [Byte.x68; Byte.x69]
  = Returns (mkStream [Byte.x03; Byte.x00; Byte.x68; Byte.x69; Byte.x00] 5).
Proof.
  destruct (length_prefixed_writers_layout NewStreamOut [Byte.x68; Byte.x69])
    as (_ & _ & Hstr & _).
  - reflexivity.
  - vm_compute. reflexivity.
  - exact Hstr.
Defined.

(** X12.  A buffer written by [WriteBuffer] is read back by
    [Buffer.ExtractFrom]: for data shorter than 2^32 bytes written at the
    end of a stream, extracting from where the write began returns no
    error and the same data, and stops where the writer stopped. *)
Theorem WriteBuffer_then_ExtractFrom stream data b :
  at_end stream -> len data < 2 ^ 32 ->
  len (Bytes stream) + 4 + len data < 2 ^ 63 ->
  exists stream',
    WriteBuffer stream data = Returns stream'
    /\ Types.ExtractFrom b (reader stream stream')
       = Returns ((None, data), reader stream' stream').
Proof.
  intros Hend H32 Hlen.
  assert (Hnn : 0 <= len data) by (unfold len; lia).
  exists (appended stream (le_bytes 4 (to_uint32 (len data)) ++ data)).
  split; [apply WriteBuffer_appends; [assumption | lia] |].
  set (enc := le_bytes 4 (to_uint32 (len data)) ++ data).
  assert (Henc : len enc = 4 + len data).
  { subst enc. unfold len. rewrite length_app, length_le_bytes. lia. }
  assert (Hb : ByteStreamIn.in_bounds (reader stream (appended stream enc)))
    by (apply reader_in_bounds; [assumption | lia]).
  pose proof (reader_remaining stream enc Hend) as Hrem.
  assert (Hoff : ByteStreamIn.ByteOffset (reader stream (appended stream enc))
                 = len (Bytes stream)) by exact Hend.
  assert (Hbytes : ByteStreamIn.Bytes (reader stream (appended stream enc))
                   = Bytes stream ++ enc) by reflexivity.
  assert (Hstated :
            ByteStreamIn.le_combine
              (take 4 (drop (Z.to_nat (ByteStreamIn.ByteOffset
                                         (reader stream (appended stream enc))))
                         (ByteStreamIn.Bytes
                            (reader stream (appended stream enc)))))
            = len data).
  { rewrite Hoff, Hbytes. unfold len at 1. rewrite Nat2Z.id, drop_app_length.
    subst enc. rewrite take_app_length' by now rewrite length_le_bytes.
    rewrite le_combine_le_bytes. unfold to_uint32.
    change (8 * Z.of_nat 4) with 32. rewrite Zmod_mod.
    now apply Z.mod_small. }
  rewrite ExtractFrom_ok; [| assumption | lia | rewrite Hstated; lia].
  rewrite Hstated. f_equal. f_equal.
  - f_equal. rewrite Hoff, Hbytes. unfold len.
    replace (Z.to_nat (Z.of_nat (length (Bytes stream)) + 4))
      with (length (Bytes stream) + 4)%nat by lia.
    rewrite <- drop_drop, drop_app_length. subst enc.
    rewrite drop_app_length' by now rewrite length_le_bytes.
    apply take_ge. unfold len. lia.
  - unfold reader, appended. cbn [Bytes ByteOffset ByteStreamIn.Bytes
                                    ByteStreamIn.ByteOffset].
    f_equal. lia.
Qed.

Lemma WriteBuffer_then_ExtractFrom_witness :
  exists stream',
    WriteBuffer NewStreamOut [Byte.x0a; Byte.x0b] = Returns stream'
    /\ Types.ExtractFrom [] (reader NewStreamOut stream')
       = Returns ((None, [Byte.x0a; Byte.x0b]), reader stream' stream').
Proof.
  apply (WriteBuffer_then_ExtractFrom NewStreamOut [Byte.x0a; Byte.x0b] []).
  - reflexivity.
  - vm_compute. reflexivity.
  - vm_compute. reflexivity.
Defined.

(** A loop of appending writes appends the encodings in order. *)
Lemma writeEach_appends {A} (write : StreamOut -> A -> outcome StreamOut)
  (enc : A -> list byte) (P : A -> Prop) :
  (forall stream x, P x -> at_end stream ->
     write stream x = Returns (appended stream (enc x))) ->
  forall list stream, Forall P list -> at_end stream ->
    writeEach write stream list
    = Returns (appended stream (concat (enc <$> list))).
Proof.
  intros Hwrite list. induction list as [| x rest IH]; intros stream HP Hend.
  - cbn. now rewrite appended_nil.
  - apply Forall_cons in HP as [Hx Hrest]. cbn [writeEach].
    rewrite (Hwrite stream x Hx Hend). cbn [mbind outcome_bind].
    rewrite IH by (assumption || now apply at_end_appended).
    now rewrite appended_appended.
Qed.

Lemma Forall_True {A} (l : list A) : Forall (fun _ => True) l.
Proof. now apply Forall_forall. Qed.

Lemma concat_singletons {A B} (f : A -> B) (l : list A) :
  concat ((fun x => [f x]) <$> l) = f <$> l.
Proof. induction l as [| x l IH]; cbn; [| rewrite IH]; reflexivity. Qed.

(** X13.  [WriteListUInt8] writes what [WriteBuffer] writes for the same
    bytes: a list of uint8 and a Buffer have the same encoding. *)
Theorem WriteListUInt8_is_WriteBuffer stream (list : list Z) :
  at_end stream -> len list < 2 ^ 63 ->
  WriteListUInt8 stream list = WriteBuffer stream (byte_of_Z <$> list)
  /\ WriteListUInt8 stream list
     = Returns (appended stream
                  (le_bytes 4 (to_uint32 (len list)) ++ (byte_of_Z <$> list))).
Proof.
  intros Hend Hlen.
  assert (Hlist : WriteListUInt8 stream list
                  = Returns (appended stream
                               (le_bytes 4 (to_uint32 (len list))
                                ++ (byte_of_Z <$> list)))).
  { unfold WriteListUInt8. rewrite WriteUInt32LE_appends by assumption.
    cbn [mbind outcome_bind].
    rewrite (writeEach_appends WriteUInt8 (fun v => [byte_of_Z v])
               (fun _ => True)).
    - now rewrite appended_appended, concat_singletons.
    - intros s x _ Hs. now apply Grow_then_write_fixed.
    - apply Forall_True.
    - now apply at_end_appended. }
  split; [| exact Hlist].
  rewrite Hlist, WriteBuffer_appends;
    [| assumption | unfold len in *; now rewrite length_fmap].
  unfold len. now rewrite length_fmap.
Qed.

Lemma WriteListUInt8_is_WriteBuffer_witness :
  WriteListUInt8 NewStreamOut [1; 2; 255]
  = WriteBuffer NewStreamOut [Byte.x01; Byte.x02; Byte.xff].
Proof.
  apply (WriteListUInt8_is_WriteBuffer NewStreamOut [1; 2; 255]).
  - reflexivity.
  - vm_compute. reflexivity.
Defined.

(** X14.  A list writer adds the number of elements as 4 little-endian
    bytes (its low 32 bits) and then the encoding of each element, in
    order, exactly as the writer of one element adds it. *)
Theorem list_writers_layout stream :
  at_end stream ->
  (forall list,
     WriteListUInt16LE stream list
     = Returns (appended stream
                  (le_bytes 4 (to_uint32 (len list))
                   ++ concat (le_bytes 2 <$> list))))
  /\ (forall list,
        WriteListUInt32LE stream list
        = Returns (appended stream
                     (le_bytes 4 (to_uint32 (len list))
                      ++ concat (le_bytes 4 <$> list))))
  /\ (forall list,
        WriteListUInt64LE stream list
        = Returns (appended stream
                     (le_bytes 4 (to_uint32 (len list))
                      ++ concat (le_bytes 8 <$> list))))
  /\ (forall buffers : list (list byte),
        Forall (fun data => len data + 1 < 2 ^ 63) buffers ->
        WriteListBuffer stream buffers
        = Returns (appended stream
                     (le_bytes 4 (to_uint32 (len buffers))
                      ++ concat ((fun data =>
                                    le_bytes 4 (to_uint32 (len data)) ++ data)
                                   <$> buffers)))
        /\ WriteListQBuffer stream buffers
           = Returns (appended stream
                        (le_bytes 4 (to_uint32 (len buffers))
                         ++ concat ((fun data =>
                                       le_bytes 2 (to_uint16 (len data))
                                       ++ data) <$> buffers)))
        /\ WriteListString stream buffers
           = Returns (appended stream
                        (le_bytes 4 (to_uint32 (len buffers))
                         ++ concat ((fun str =>
                                       le_bytes 2 (to_uint16 (len str + 1))
                                       ++ str ++ [Byte.x00]) <$> buffers)))).
Proof.
  intros Hend.
  assert (Hend' : forall data, at_end (appended stream data))
    by (intros; now apply at_end_appended).
  split; [| split; [| split]].
  - intros list. unfold WriteListUInt16LE.
    rewrite WriteUInt32LE_appends by assumption. cbn [mbind outcome_bind].
    rewrite (writeEach_appends WriteUInt16LE (le_bytes 2) (fun _ => True));
      [now rewrite appended_appended | | apply Forall_True | apply Hend'].
    intros s x _ Hs. now apply WriteUInt16LE_appends.
  - intros list. unfold WriteListUInt32LE.
    rewrite WriteUInt32LE_appends by assumption. cbn [mbind outcome_bind].
    rewrite (writeEach_appends WriteUInt32LE (le_bytes 4) (fun _ => True));
      [now rewrite appended_appended | | apply Forall_True | apply Hend'].
    intros s x _ Hs. now apply WriteUInt32LE_appends.
  - intros list. unfold WriteListUInt64LE.
    rewrite WriteUInt32LE_appends by assumption. cbn [mbind outcome_bind].
    rewrite (writeEach_appends WriteUInt64LE (le_bytes 8) (fun _ => True));
      [now rewrite appended_appended | | apply Forall_True | apply Hend'].
    intros s x _ Hs.
    apply Grow_then_write_fixed; [assumption | apply len_le_bytes].
  - intros buffers Hbuffers. split; [| split].
    + unfold WriteListBuffer.
      rewrite WriteUInt32LE_appends by assumption. cbn [mbind outcome_bind].
      rewrite (writeEach_appends WriteBuffer _
                 (fun data => len data + 1 < 2 ^ 63)
                 (fun s x Hx Hs => WriteBuffer_appends s x Hs
                                     ltac:(cbv beta in Hx; lia)))
        by (assumption || apply Hend').
      now rewrite appended_appended.
    + unfold WriteListQBuffer.
      rewrite WriteUInt32LE_appends by assumption. cbn [mbind outcome_bind].
      rewrite (writeEach_appends WriteQBuffer _
                 (fun data => len data + 1 < 2 ^ 63)
                 (fun s x Hx Hs => WriteQBuffer_appends s x Hs
                                     ltac:(cbv beta in Hx; lia)))
        by (assumption || apply Hend').
      now rewrite appended_appended.
    + unfold WriteListString.
      rewrite WriteUInt32LE_appends by assumption. cbn [mbind outcome_bind].
      rewrite (writeEach_appends WriteString _
                 (fun data => len data + 1 < 2 ^ 63)
                 (fun s x Hx Hs => WriteString_appends s x Hs Hx))
        by (assumption || apply Hend').
      now rewrite appended_appended.
Qed.

Lemma list_writers_layout_witness :
  WriteListUInt16LE NewStreamOut [1; 258]
  = Returns (mkStream [Byte.x02; Byte.x00; Byte.x00; Byte.x00;
                       Byte.x01; Byte.x00; Byte.x02; Byte.x01] 8).
Proof.
  destruct (list_writers_layout NewStreamOut) as (H16 & _).
  - reflexivity.
  - apply (H16 [1; 258]).
Defined.

(** X15.  A DateTime goes over the wire as its 64-bit value: whatever the
    six fields given to [Make], [WriteDateTime] adds 8 bytes from which
    [ReadPrimitiveUInt64LE] reads back the value of the DateTime. *)
Theorem WriteDateTime_then_read stream dt year month day hour minute second :
  at_end stream -> len (Bytes stream) + 8 < 2 ^ 63 ->
  let datetime := DateTime.Make dt year month day hour minute second in
  exists stream',
    WriteDateTime stream datetime = Returns stream'
    /\ len (Bytes stream') = len (Bytes stream) + 8
    /\ ByteStreamIn.ReadPrimitiveUInt64LE (reader stream stream')
       = Returns ((DateTime.value datetime, None), reader stream' stream').
Proof.
  intros Hend Hlen datetime.
  set (v := DateTime.value datetime).
  assert (Hv : 0 <= v < 2 ^ 64).
  { subst v datetime. unfold DateTime.Make. cbn [DateTime.value].
    unfold to_uint64. apply Z.mod_pos_bound. lia. }
  exists (appended stream (le_bytes 8 v)).
  split.
  { unfold WriteDateTime. fold v.
    apply Grow_then_write_fixed; [assumption | apply len_le_bytes]. }
  split.
  { unfold appended, len. cbn [Bytes].
    rewrite length_app, length_le_bytes. lia. }
  assert (Hb : ByteStreamIn.in_bounds
                 (reader stream (appended stream (le_bytes 8 v))))
    by (apply reader_in_bounds; [assumption | rewrite len_le_bytes; lia]).
  pose proof (reader_remaining stream (le_bytes 8 v) Hend) as Hrem.
  rewrite len_le_bytes in Hrem.
  unfold ByteStreamIn.ReadPrimitiveUInt64LE.
  rewrite checked_enough by (assumption || lia).
  rewrite ReadU64LENext1_ok by (assumption || lia).
  rewrite (reader_upcoming stream (le_bytes 8 v) 8 Hend)
    by (now rewrite length_le_bytes).
  rewrite le_combine_le_bytes, Z.mod_small by exact Hv.
  reflexivity.
Qed.

Lemma WriteDateTime_then_read_witness :
  exists stream',
    WriteDateTime NewStreamOut
      (DateTime.Make (DateTime.NewDateTime 0) 2024 2 29 23 59 58)
    = Returns stream'
    /\ ByteStreamIn.ReadPrimitiveUInt64LE (reader NewStreamOut stream')
       = Returns ((135840628474, None), reader stream' stream').
Proof.
  destruct (WriteDateTime_then_read NewStreamOut (DateTime.NewDateTime 0)
              2024 2 29 23 59 58)
    as (stream' & Hw & _ & Hr).
  - reflexivity.
  - vm_compute. reflexivity.
  - exists stream'. split; [exact Hw | exact Hr].
Defined.

End StreamOutFacts.

(** ** DateTime, Result, ResultRange *)

Section ValueTypeFacts.
Import GoInt GoRuntime.

(** X16.  For fields that fit their bits, the 64-bit value orders
    DateTimes as the calendar does (year first, then month, day, hour,
    minute, second), and [Equals] holds exactly when all six fields
    agree. *)
Theorem DateTime_value_is_chronological
  dt1 year1 month1 day1 hour1 minute1 second1
  dt2 year2 month2 day2 hour2 minute2 second2 :
  DateTime.in_fields year1 month1 day1 hour1 minute1 second1 ->
  DateTime.in_fields year2 month2 day2 hour2 minute2 second2 ->
  let a := DateTime.Make dt1 year1 month1 day1 hour1 minute1 second1 in
  let b := DateTime.Make dt2 year2 month2 day2 hour2 minute2 second2 in
  (DateTime.Equals a b = true <->
     year1 = year2 /\ month1 = month2 /\ day1 = day2
     /\ hour1 = hour2 /\ minute1 = minute2 /\ second1 = second2)
  /\ (DateTime.value a < DateTime.value b <->
        year1 < year2
        \/ year1 = year2
           /\ (month1 < month2
               \/ month1 = month2
                  /\ (day1 < day2
                      \/ day1 = day2
                         /\ (hour1 < hour2
                             \/ hour1 = hour2
                                /\ (minute1 < minute2
                                    \/ minute1 = minute2
                                       /\ second1 < second2))))).
Proof.
  intros (Hs1 & Hmi1 & Hh1 & Hd1 & Hmo1 & Hy1 & Hov1)
         (Hs2 & Hmi2 & Hh2 & Hd2 & Hmo2 & Hy2 & Hov2) a b.
  subst a b. unfold DateTime.Equals.
  rewrite !Make_value by assumption.
  change (2 ^ 6) with 64. change (2 ^ 12) with 4096.
  change (2 ^ 17) with 131072. change (2 ^ 22) with 4194304.
  change (2 ^ 26) with 67108864.
  rewrite Z.eqb_eq. split; lia.
Qed.

Lemma DateTime_value_is_chronological_witness :
  DateTime.value (DateTime.Make (DateTime.NewDateTime 0) 2023 12 31 23 59 59)
  < DateTime.value (DateTime.Make (DateTime.NewDateTime 0) 2024 1 1 0 0 0).
Proof.
  destruct (DateTime_value_is_chronological
              (DateTime.NewDateTime 0) 2023 12 31 23 59 59
              (DateTime.NewDateTime 0) 2024 1 1 0 0 0)
    as (_ & Hlt).
  - unfold DateTime.in_fields, in_int. repeat split; vm_compute; congruence.
  - unfold DateTime.in_fields, in_int. repeat split; vm_compute; congruence.
  - apply Hlt. left. lia.
Defined.

Lemma testbit_ones32 n :
  0 <= n -> Z.testbit (Z.ones 32) n = (n <? 32).
Proof. intros Hn. now apply Z.testbit_ones_nonneg. Qed.

Lemma to_uint32_land z : to_uint32 z = Z.land z (Z.ones 32).
Proof. unfold to_uint32. now rewrite Z.land_ones. Qed.

Lemma wrap_int_uint32 z : wrap_int (to_uint32 z) = to_uint32 z.
Proof.
  apply wrap_int_small. unfold in_int, to_uint32.
  pose proof (Z.mod_pos_bound z (2 ^ 32) ltac:(lia)). lia.
Qed.

(** X17.  Whatever the error mask, a Result made by [NewResultSuccess] is
    a success and not an error; when the mask is a positive value below
    2^32 (one or more of the 32 bits of a code), a Result made by
    [NewResultError] is an error and not a success.  Both constructors
    leave the bits outside the mask as they are in the code. *)
Theorem Result_constructors errorMask code :
  0 <= code < 2 ^ 32 ->
  Result.IsSuccess errorMask (Result.NewResultSuccess errorMask code) = true
  /\ Result.IsError errorMask (Result.NewResultSuccess errorMask code) = false
  /\ (0 < errorMask < 2 ^ 32 ->
      Result.IsError errorMask (Result.NewResultError errorMask code) = true
      /\ Result.IsSuccess errorMask (Result.NewResultError errorMask code)
         = false
      /\ Result.Code (Result.NewResultError errorMask code)
         = Z.lor code errorMask
      /\ Result.Code (Result.NewResultSuccess errorMask code)
         = Z.land code (Z.lnot errorMask)
      /\ Result.NewResultSuccess errorMask
           (Result.Code (Result.NewResultError errorMask code))
         = Result.NewResultSuccess errorMask code).
Proof.
  intros Hcode.
  assert (Hwrap : wrap_int code = code)
    by (apply wrap_int_small; unfold in_int; lia).
  assert (Hsucc : Z.land (wrap_int (to_uint32
                    (Z.land (wrap_int code) (Z.lnot errorMask)))) errorMask
                  = 0).
  { rewrite wrap_int_uint32, to_uint32_land.
    apply Z.bits_inj'. intros n Hn.
    rewrite !Z.land_spec, Z.lnot_spec, Z.bits_0 by assumption.
    destruct (Z.testbit errorMask n); cbn; now rewrite ?andb_false_r. }
  unfold Result.IsSuccess, Result.IsError, Result.NewResultSuccess,
    Result.NewResultError, Result.NewResult. cbn [Result.Code].
  rewrite Hsucc. split; [reflexivity |]. split; [reflexivity |].
  intros Hmask.
  assert (Hlor : to_uint32 (Z.lor (wrap_int code) errorMask)
                 = Z.lor code errorMask).
  { rewrite Hwrap. unfold to_uint32. apply Z.mod_small.
    split; [apply Z.lor_nonneg; lia |].
    apply Z.log2_lt_cancel. rewrite Z.log2_lor by lia.
    rewrite Z.log2_pow2 by lia.
    destruct (Z.eq_dec code 0) as [-> | Hnz].
    - cbn [Z.log2]. rewrite Z.max_r by apply Z.log2_nonneg.
      apply Z.log2_lt_pow2; lia.
    - apply Z.max_lub_lt; apply Z.log2_lt_pow2; lia. }
  assert (Hland : to_uint32 (Z.land (wrap_int code) (Z.lnot errorMask))
                  = Z.land code (Z.lnot errorMask)).
  { rewrite Hwrap, to_uint32_land.
    apply Z.bits_inj'. intros n Hn.
    rewrite !Z.land_spec, testbit_ones32 by assumption.
    destruct (Z.ltb_spec n 32); [now rewrite andb_true_r |].
    rewrite andb_false_r.
    rewrite (Z.bits_above_log2 code n); [reflexivity | lia |].
    destruct (Z.eq_dec code 0) as [-> | Hnz]; [cbn; lia |].
    assert (Z.log2 code < 32) by (apply Z.log2_lt_pow2; lia). lia. }
  assert (Herr : Z.land (wrap_int (Z.lor code errorMask)) errorMask
                 = errorMask).
  { rewrite wrap_int_small.
    - apply Z.bits_inj'. intros n Hn.
      rewrite Z.land_spec, Z.lor_spec.
      destruct (Z.testbit errorMask n); cbn; now rewrite ?orb_true_r, ?andb_false_r.
    - rewrite <- Hlor. unfold in_int, to_uint32.
      pose proof (Z.mod_pos_bound (Z.lor (wrap_int code) errorMask)
                    (2 ^ 32) ltac:(lia)). lia. }
  rewrite Hlor, Herr, Hland.
  replace (errorMask =? 0) with false by (symmetry; apply Z.eqb_neq; lia).
  repeat split.
  f_equal.
  rewrite wrap_int_small
    by (rewrite <- Hlor; unfold in_int, to_uint32;
        pose proof (Z.mod_pos_bound (Z.lor (wrap_int code) errorMask)
                      (2 ^ 32) ltac:(lia)); lia).
  replace (Z.land (Z.lor code errorMask) (Z.lnot errorMask))
    with (Z.land code (Z.lnot errorMask)).
  - rewrite Hwrap in Hland. exact Hland.
  - apply Z.bits_inj'. intros n Hn.
    rewrite !Z.land_spec, Z.lor_spec, Z.lnot_spec by assumption.
    destruct (Z.testbit errorMask n); cbn;
      now rewrite ?andb_false_r, ?orb_false_r, ?andb_true_r.
Qed.

Lemma Result_constructors_witness :
  Result.IsError (2 ^ 31) (Result.NewResultError (2 ^ 31) 65537) = true
  /\ Result.IsSuccess (2 ^ 31) (Result.NewResultSuccess (2 ^ 31) 2147549185)
     = true.
Proof.
  split.
  - destruct (Result_constructors (2 ^ 31) 65537) as (_ & _ & Herr);
      [lia |].
    apply Herr. lia.
  - destruct (Result_constructors (2 ^ 31) 2147549185) as (Hok & _);
      [lia | exact Hok].
Defined.

(** X18.  [ResultRange.Equals] returns false whenever the two structure
    versions are equal: it is true exactly when the versions differ and
    the offsets and the lengths agree.  So no ResultRange equals its own
    [Copy], which keeps the version. *)
Theorem ResultRange_Equals_needs_different_versions r other :
  (ResultRange.Equals r other = true <->
     ResultRange.StructureVersion r <> ResultRange.StructureVersion other
     /\ ResultRange.Offset r = ResultRange.Offset other
     /\ ResultRange.Length r = ResultRange.Length other)
  /\ ResultRange.Copy r = r
  /\ ResultRange.Equals r (ResultRange.Copy r) = false
  /\ ResultRange.Equals r r = false.
Proof.
  assert (Hcopy : ResultRange.Copy r = r) by (now destruct r).
  assert (Hself : ResultRange.Equals r r = false).
  { unfold ResultRange.Equals. now rewrite Z.eqb_refl. }
  split; [| split; [exact Hcopy | split; [now rewrite Hcopy | exact Hself]]].
  unfold ResultRange.Equals.
  destruct (Z.eqb_spec (ResultRange.StructureVersion r)
              (ResultRange.StructureVersion other));
    destruct (Z.eqb_spec (ResultRange.Offset r) (ResultRange.Offset other));
    destruct (Z.eqb_spec (ResultRange.Length r) (ResultRange.Length other));
    cbn; intuition congruence.
Qed.

End ValueTypeFacts.

(** ** ClassVersionContainer and QUUID *)

Section ContainerFacts.
Import GoRuntime ClassVersionContainer.

Lemma Equals_range_true order (other : gmap string Z) :
  Equals_range order other = true
  <-> forall name version, (name, version) ∈ order ->
        other !! name = Some version.
Proof.
  induction order as [| [name1 version1] rest IH]; cbn [Equals_range].
  - split; [| reflexivity]. intros _ name version Hin.
    now apply elem_of_nil in Hin.
  - split.
    + intros Hloop name version Hin.
      destruct (other !! name1) as [version2 |] eqn:Hlook; [| discriminate].
      destruct (Z.eqb_spec version1 version2) as [-> | Hne];
        [| discriminate].
      cbn [negb] in Hloop.
      apply elem_of_cons in Hin as [Heq | Hin].
      * injection Heq as -> ->. exact Hlook.
      * now apply IH.
    + intros Hall.
      rewrite (Hall name1 version1) by apply list_elem_of_here.
      rewrite Z.eqb_refl. cbn [negb]. apply IH.
      intros name version Hin. apply Hall. now apply list_elem_of_further.
Qed.

Lemma Copy_is_same_map order (m : gmap string Z) :
  visits order m ->
  foldl (fun copied (entry : string * Z) => <[entry.1 := entry.2]> copied)
    ∅ order
  = m.
Proof.
  intros Hvisits.
  assert (Hfold : forall l : list (string * Z),
            foldl (fun copied (entry : string * Z) =>
                     <[entry.1 := entry.2]> copied) (∅ : gmap string Z) l
            = list_to_map (rev l)).
  { induction l as [| x l IH] using rev_ind; [reflexivity |].
    rewrite foldl_snoc, IH, rev_unit. now destruct x. }
  rewrite Hfold, <- (list_to_map_to_list m).
  apply list_to_map_proper.
  - rewrite <- Permutation_rev, Hvisits. apply NoDup_fst_map_to_list.
  - now rewrite <- Permutation_rev.
Qed.

(** X19.  In whatever order the loops visit the entries,
    [ClassVersionContainer.Equals] is true exactly when the two maps hold
    the same names with the same versions, and [Copy] gives a container
    with the same map, which therefore [Equals] the original. *)
Theorem ClassVersionContainer_Equals_is_map_equality
  order order' (cvc other : ClassVersionContainer) :
  visits order (ClassVersions cvc) ->
  visits order' (ClassVersions cvc) ->
  (Equals order cvc other = true
   <-> ClassVersions cvc = ClassVersions other)
  /\ Copy order' cvc = cvc
  /\ Equals order cvc (Copy order' cvc) = true.
Proof.
  intros Hvisits Hvisits'.
  assert (Hiff : forall other,
            Equals order cvc other = true
            <-> ClassVersions cvc = ClassVersions other).
  { clear other. intros other. unfold Equals.
    destruct (Z.eqb_spec (Z.of_nat (size (ClassVersions cvc)))
                (Z.of_nat (size (ClassVersions other)))) as [Hsize | Hsize];
      cbn [negb].
    - rewrite Equals_range_true. split.
      + intros Hall. apply map_subseteq_size_eq; [| lia].
        apply map_subseteq_spec. intros name version Hlook.
        apply Hall. rewrite Hvisits. now apply elem_of_map_to_list.
      + intros Heq name version Hin. rewrite <- Heq.
        rewrite Hvisits in Hin. now apply elem_of_map_to_list.
    - split; [discriminate |]. intros Heq. now rewrite Heq in Hsize. }
  assert (Hcopy : Copy order' cvc = cvc).
  { unfold Copy. cbn [NewClassVersionContainer ClassVersions].
    rewrite (Copy_is_same_map order' _ Hvisits'). now destruct cvc. }
  split; [apply Hiff |]. split; [exact Hcopy |].
  rewrite Hcopy. now apply Hiff.
Qed.

Lemma ClassVersionContainer_Equals_is_map_equality_witness :
  Equals [("a"%string, 1); ("b"%string, 2)]
    (mkContainer (<["a"%string := 1]> (<["b"%string := 2]> ∅)))
    (mkContainer (<["b"%string := 2]> (<["a"%string := 1]> ∅)))
  = true.
Proof.
  assert (Hvisits : visits [("a"%string, 1); ("b"%string, 2)]
                      (<["a"%string := 1]> (<["b"%string := 2]> ∅))).
  { unfold visits. vm_compute. reflexivity. }
  destruct (ClassVersionContainer_Equals_is_map_equality
              [("a"%string, 1); ("b"%string, 2)]
              [("a"%string, 1); ("b"%string, 2)]
              (mkContainer (<["a"%string := 1]> (<["b"%string := 2]> ∅)))
              (mkContainer (<["b"%string := 2]> (<["a"%string := 1]> ∅)))
              Hvisits Hvisits) as (Hiff & _).
  apply Hiff. cbn [ClassVersions]. apply insert_insert_ne. discriminate.
Defined.

Lemma copy_whole data :
  QUUID.copy (replicate (length data) Byte.x00) data = data.
Proof.
  unfold QUUID.copy. rewrite length_replicate, Nat.min_id.
  rewrite take_ge by lia. rewrite drop_ge by (rewrite length_replicate; lia).
  apply app_nil_r.
Qed.

Lemma GetStringValue_wrong_length qu :
  len (QUUID.Data qu) <> 16 ->
  QUUID.GetStringValue qu = "00000000-0000-0000-0000-000000000002"%string.
Proof.
  intros Hlen. unfold QUUID.GetStringValue. rewrite copy_whole.
  now replace (len (QUUID.Data qu) =? 16) with false
    by (symmetry; now apply Z.eqb_neq).
Qed.

(** X20.  Two QUUIDs whose data is not 16 bytes long have the same string
    value, the fixed UUID ending in 2, and so are [Equals], whatever their
    bytes; [Copy] gives the same data, and a QUUID always [Equals] its
    copy. *)
Theorem QUUID_wrong_length_all_equal qu other :
  len (QUUID.Data qu) <> 16 -> len (QUUID.Data other) <> 16 ->
  QUUID.GetStringValue qu = "00000000-0000-0000-0000-000000000002"%string
  /\ QUUID.Equals qu other = true
  /\ QUUID.Copy qu = qu
  /\ QUUID.Equals qu (QUUID.Copy qu) = true.
Proof.
  intros Hqu Hother.
  assert (Hcopy : QUUID.Copy qu = qu).
  { unfold QUUID.Copy. rewrite copy_whole. now destruct qu. }
  split; [now apply GetStringValue_wrong_length |].
  split.
  { unfold QUUID.Equals. apply bool_decide_eq_true.
    now rewrite !GetStringValue_wrong_length. }
  split; [exact Hcopy |].
  rewrite Hcopy. unfold QUUID.Equals. now apply bool_decide_eq_true.
Qed.

Lemma QUUID_wrong_length_all_equal_witness :
  QUUID.Equals (QUUID.mkQUUID [Byte.x01; Byte.x02]) QUUID.NewQUUID = true.
Proof.
  apply (QUUID_wrong_length_all_equal
           (QUUID.mkQUUID [Byte.x01; Byte.x02]) QUUID.NewQUUID);
    vm_compute; discriminate.
Defined.

(** X21.  Whatever [strings.Split] and [hex.DecodeString] return:
    when [FromString] returns an error the QUUID is as it was, and when it
    returns no error the QUUID holds no bytes at all (the parsed bytes are
    copied into a slice of length 0), so its string value is the fixed
    UUID ending in 2 and it [Equals] a QUUID fresh from [NewQUUID]. *)
Theorem QUUID_FromString_stores_nothing
  (strings_Split : string -> string -> list string)
  (hex_DecodeString : string -> list byte * option error) qu uuid :
  let result := QUUID.FromString strings_Split hex_DecodeString qu uuid in
  (result.1 <> None -> result.2 = qu)
  /\ (result.1 = None ->
      QUUID.Data result.2 = []
      /\ QUUID.GetStringValue result.2
         = "00000000-0000-0000-0000-000000000002"%string
      /\ QUUID.Equals result.2 QUUID.NewQUUID = true).
Proof.
  intros result. subst result. unfold QUUID.FromString.
  assert (Hempty : forall data,
            let qu' := QUUID.mkQUUID (QUUID.copy [] data) in
            QUUID.Data qu' = []
            /\ QUUID.GetStringValue qu'
               = "00000000-0000-0000-0000-000000000002"%string
            /\ QUUID.Equals qu' QUUID.NewQUUID = true).
  { intros data. cbv zeta. unfold QUUID.copy. cbn [length Nat.min take drop app].
    repeat split. }
  destruct (strings_Split uuid "-") as [| s0 [| s1 [| s2 [| s3 [| s4 [| ]]]]]];
    cbn [fst snd]; try (split; [reflexivity | discriminate]).
  destruct (QUUID.appendSection hex_DecodeString [] s0 4) as [[e |] d0];
    cbn [fst snd]; [split; [reflexivity | discriminate] |].
  destruct (QUUID.appendSection hex_DecodeString d0 s1 2) as [[e |] d1];
    cbn [fst snd]; [split; [reflexivity | discriminate] |].
  destruct (QUUID.appendSection hex_DecodeString d1 s2 2) as [[e |] d2];
    cbn [fst snd]; [split; [reflexivity | discriminate] |].
  destruct (QUUID.appendSection hex_DecodeString d2 s3 2) as [[e |] d3];
    cbn [fst snd]; [split; [reflexivity | discriminate] |].
  destruct (QUUID.appendSection hex_DecodeString d3 s4 6) as [[e |] d4];
    cbn [fst snd]; [split; [reflexivity | discriminate] |].
  split; [congruence |]. intros _. apply Hempty.
Qed.

End ContainerFacts.

(** ** The server: more on dispatch and sending *)

Section ServerMore.
Import GoInt GoRuntime PRUDP.
Context `{C : Collaborators} `{!PacketCodec}.

(** X22.  [processPacket] returns no error exactly when the destination
    stream id is bound, the two stream types are equal and not above
    [StreamTypeRelay], and the source port number is at most 15, whatever
    the dialect; the packet then goes to the endpoint bound to the
    destination stream id, with a socket made from the address and the
    WebSocket connection. *)
Theorem processPacket_accepts_exactly ps packet address ws :
  (fst (processPacket ps packet address ws) = None
   <-> is_Some (Endpoints ps !! DestinationVirtualPortStreamID packet)
       /\ DestinationVirtualPortStreamType packet
          = SourceVirtualPortStreamType packet
       /\ DestinationVirtualPortStreamType packet <= StreamTypeRelay
       /\ SourceVirtualPortStreamID packet <= 15)
  /\ (forall endpoint,
        fst (processPacket ps packet address ws) = None ->
        Endpoints ps !! DestinationVirtualPortStreamID packet
          = Some endpoint ->
        Endpoints (snd (processPacket ps packet address ws))
          !! DestinationVirtualPortStreamID packet
        = Some (endpoint_processPacket endpoint packet
                  (mkSocket (self ps) address ws))).
Proof.
  destruct (Endpoints ps !! DestinationVirtualPortStreamID packet)
    as [endpoint |] eqn:Hlook.
  2: { rewrite processPacket_unbound by assumption. cbn.
       split; [| discriminate]. split; [discriminate |].
       intros [[? Hs] _]. discriminate. }
  rewrite (processPacket_bound ps packet address ws endpoint Hlook).
  destruct (Z.eqb_spec (DestinationVirtualPortStreamType packet)
              (SourceVirtualPortStreamType packet)) as [Heq | Hne];
    cbn [negb].
  2: { cbn. split; [| discriminate]. split; [discriminate |].
       intros (_ & Heq & _). contradiction. }
  destruct (Z.ltb_spec StreamTypeRelay
              (DestinationVirtualPortStreamType packet)) as [Hd | Hd].
  { cbn. split; [| discriminate]. split; [discriminate |]. lia. }
  destruct (Z.ltb_spec StreamTypeRelay
              (SourceVirtualPortStreamType packet)) as [Hs | Hs].
  { cbn. split; [| discriminate]. split; [discriminate |]. lia. }
  destruct (Z.le_gt_cases (SourceVirtualPortStreamID packet) 15)
    as [Hport | Hport].
  - rewrite invalidSourcePort_upto_15 by assumption. cbn [fst snd].
    split.
    + split; [| reflexivity]. intros _. repeat split; eauto.
    + intros endpoint' _ Hsome. injection Hsome as <-.
      cbn [Endpoints with_Endpoints]. now rewrite lookup_insert_eq.
  - rewrite invalidSourcePort_above_15 by lia. cbn.
    split; [| discriminate]. split; [discriminate |]. lia.
Qed.


Lemma processPacket_error_unchanged ps packet address ws err ps' :
  processPacket ps packet address ws = (Some err, ps') -> ps' = ps.
Proof.
  intros Hp.
  destruct (Endpoints ps !! DestinationVirtualPortStreamID packet)
    as [endpoint |] eqn:Hlook.
  - rewrite (processPacket_bound ps packet address ws endpoint Hlook) in Hp.
    repeat match type of Hp with
           | context [if ?b then _ else _] => destruct b; [congruence |]
           end.
    discriminate.
  - rewrite processPacket_unbound in Hp by assumption. congruence.
Qed.

(** X24.  The loop of [handleSocketMessage] over the decoded packets
    stops at the first packet that [processPacket] rejects: the packets
    before it have been processed, one after the other, the rejected one
    and those after it have changed nothing, and its error is the one
    returned and the only one logged.  With no rejection every packet is
    processed and nothing is logged. *)
Theorem processPackets_stops_at_first_rejection ps packets address ws :
  let deliver := foldl (fun s p => snd (processPacket s p address ws)) in
  let result := processPackets ps packets address ws in
  (result.1.1 = None ->
     result.2 = [] /\ result.1.2 = deliver ps packets)
  /\ (forall err, result.1.1 = Some err ->
        result.2 = [err]
        /\ exists good bad rest,
             packets = good ++ bad :: rest
             /\ (forall before p after,
                   good = before ++ p :: after ->
                   fst (processPacket (deliver ps before) p address ws)
                   = None)
             /\ result.1.2 = deliver ps good
             /\ processPacket (deliver ps good) bad address ws
                = (Some err, deliver ps good)).
Proof.
  cbv zeta. revert ps.
  induction packets as [| packet rest IH]; intros ps.
  - cbn. split; [split; reflexivity | discriminate].
  - cbn [processPackets foldl].
    destruct (processPacket ps packet address ws) as [[err |] ps'] eqn:Hp.
    + cbn [fst snd]. split; [discriminate |].
      intros err' Herr. injection Herr as <-. split; [reflexivity |].
      exists [], packet, rest. cbn [app foldl].
      split; [reflexivity |].
      split; [intros [| ? ?] ? ? ?; discriminate |].
      pose proof (processPacket_error_unchanged _ _ _ _ _ _ Hp) as ->.
      split; [reflexivity | exact Hp].
    + cbn [snd]. destruct (IH ps') as [Hnone Hsome]. split.
      * exact Hnone.
      * intros err Herr. destruct (Hsome err Herr)
          as (Hlog & good & bad & rest' & -> & Hgood & Hstate & Hbad).
        split; [exact Hlog |].
        exists (packet :: good), bad, rest'. cbn [app foldl].
        rewrite Hp. cbn [snd].
        split; [reflexivity |]. split; [| split; assumption].
        intros [| first before] p after Hsplit; injection Hsplit as <- ->.
        -- cbn [foldl]. now rewrite Hp.
        -- cbn [foldl]. rewrite Hp. cbn [snd].
           now apply (Hgood before p after).
Qed.

(** X25.  Binding an endpoint to a stream id that is free installs it with
    its back pointer set to the server and leaves every other stream id as
    it was; once a stream id is bound, binding any endpoint with that id
    changes nothing, so the first binding stays. *)
Theorem BindPRUDPEndPoint_first_binding_stays ps
  (endpoint endpoint' : PRUDPEndPoint EP) :
  Endpoints ps !! epStreamID endpoint = None ->
  epStreamID endpoint' = epStreamID endpoint ->
  let ps1 := fst (BindPRUDPEndPoint ps endpoint) in
  Endpoints ps1 !! epStreamID endpoint
  = Some (mkEndPoint (epStreamID endpoint) (Some (self ps))
            (epState endpoint))
  /\ (forall id, id <> epStreamID endpoint ->
        Endpoints ps1 !! id = Endpoints ps !! id)
  /\ snd (BindPRUDPEndPoint ps endpoint) = []
  /\ fst (BindPRUDPEndPoint ps1 endpoint') = ps1.
Proof.
  intros Hfree Hid ps1.
  assert (Hbound : Endpoints ps1 !! epStreamID endpoint
                   = Some (mkEndPoint (epStreamID endpoint) (Some (self ps))
                             (epState endpoint)))
    by now apply BindPRUDPEndPoint_fresh.
  split; [exact Hbound |].
  subst ps1. unfold BindPRUDPEndPoint at 1 2.
  pose proof Hfree as Hhas. apply Has_false in Hhas. rewrite Hhas.
  cbn [fst snd Endpoints with_Endpoints epStreamID].
  split; [| split; [reflexivity |]].
  - intros id Hne. unfold Set_. now rewrite lookup_insert_ne.
  - unfold BindPRUDPEndPoint in Hbound |- *. rewrite Hhas in Hbound |- *.
    cbn [fst epStreamID] in Hbound |- *.
    rewrite Hid.
    replace (Has _ (epStreamID endpoint)) with true; [reflexivity |].
    symmetry. apply Has_true. eauto.
Qed.

Lemma timeline_app (a b : list Event) :
  timeline (a ++ b) = timeline a ++ timeline b.
Proof. unfold timeline. apply omap_app. Qed.

Lemma timeline_log_error err : timeline (log_error err) = [].
Proof. now destruct err. Qed.

Lemma timeline_sendRaw ps socket data :
  timeline (sendRaw ps socket data) = [].
Proof.
  unfold sendRaw.
  destruct (Address socket), (udpSocket ps), (WebSocketConnection socket);
    reflexivity.
Qed.

Lemma timeline_transformPayload connection packet :
  timeline (snd (transformPayload connection packet)) = [].
Proof.
  unfold transformPayload.
  destruct (_ && _); [| reflexivity].
  destruct (HasFlag _ PacketFlagReliable).
  - destruct (Compress _ _) as [compressed err1].
    destruct (Encrypt _ _) as [encrypted err2]. cbn [snd].
    now rewrite timeline_app, !timeline_log_error.
  - now destruct (negb _).
Qed.

Lemma timeline_sendPacket ps connection packet now :
  timeline (snd (sendPacket ps connection packet now)) = [].
Proof.
  unfold sendPacket.
  destruct (assignSequenceID connection packet now) as [packetCopy conn1].
  match goal with
  | |- context [transformPayload ?c ?p] =>
      pose proof (timeline_transformPayload c p) as Hlog;
      destruct (transformPayload c p) as [packetCopy' logged]
  end.
  cbn [snd] in *.
  now rewrite timeline_app, Hlog, timeline_sendRaw.
Qed.

Lemma Send_loop_timeline ps :
  0 < FragmentSize ps ->
  forall (n : nat) data fragmentID i fragments packet connection now,
    Z.of_nat n = len data / FragmentSize ps ->
    fragments = i + Z.of_nat n ->
    exists connection' events,
      Send_loop ps (S n) i fragments data fragmentID packet connection now
      = Returns (connection', events)
      /\ timeline events = concat (replicate n [None; Some 16]) ++ [None].
Proof.
  intros Hsz. set (sz := Z.to_nat (FragmentSize ps)).
  induction n as [| n IH];
    intros data fragmentID i fragments packet connection now Hn Hfr.
  - assert (Hshort : len data < FragmentSize ps).
    { destruct (Z.lt_ge_cases (len data) (FragmentSize ps)) as [Hlt | Hge];
        [assumption |].
      pose proof (Z.div_le_lower_bound (len data) (FragmentSize ps) 1 Hsz).
      lia. }
    cbn [Send_loop]. rewrite nextFragment_last by assumption. cbn.
    pose proof (timeline_sendPacket ps connection
                  (setFragmentID (SetPayload packet data) 0) now) as Hsent.
    destruct (sendPacket _ _ _ _) as [[connection' packetCopy] sent].
    cbn [snd] in Hsent.
    eexists _, _. split; [reflexivity |].
    change (timeline (CallSendPacket ?p :: ?l)) with (None :: timeline l).
    rewrite !timeline_app, Hsent.
    replace (i <? fragments) with false
      by (symmetry; apply Z.ltb_ge; lia).
    reflexivity.
  - assert (Hfull : FragmentSize ps <= len data).
    { destruct (Z.lt_ge_cases (len data) (FragmentSize ps)) as [Hlt | Hge];
        [| lia].
      rewrite Z.div_small in Hn by (unfold len in *; lia). lia. }
    change (Send_loop ps (S (S n)) i fragments data fragmentID packet
              connection now)
      with ('(packet', data', fragmentID') ←
              nextFragment ps packet data fragmentID;
            let '((connection', _), sent) :=
              sendPacket ps connection packet' now in
            let pause := if i <? fragments then [Sleep 16] else [] in
            let now' := if i <? fragments then now + 16 else now in
            '(connection'', later) ←
              Send_loop ps (S n) (i + 1) fragments data' fragmentID'
                packet' connection' now';
            mret (connection'',
                  CallSendPacket packet' :: sent ++ pause ++ later)).
    rewrite nextFragment_full by lia. cbn [mbind outcome_bind].
    fold sz.
    pose proof (timeline_sendPacket ps connection
                  (setFragmentID (SetPayload packet (take sz data))
                     fragmentID) now) as Hsent.
    destruct (sendPacket _ _ _ _) as [[connection' packetCopy] sent].
    cbn [snd] in Hsent.
    assert (Hn' : Z.of_nat n = len (drop sz data) / FragmentSize ps).
    { unfold len in *. rewrite length_drop.
      replace (Z.of_nat (length data - sz))
        with (Z.of_nat (length data) + (-1) * FragmentSize ps)
        by (subst sz; lia).
      rewrite Z.div_add by lia. lia. }
    destruct (IH (drop sz data) (to_uint8 (fragmentID + 1)) (i + 1) fragments
                (setFragmentID (SetPayload packet (take sz data)) fragmentID)
                connection' (if i <? fragments then now + 16 else now)
                Hn' ltac:(lia))
      as (connection'' & later & Hrun & Hlater).
    rewrite Hrun. cbn [mbind outcome_bind mret outcome_ret].
    eexists _, _. split; [reflexivity |].
    change (timeline (CallSendPacket ?p :: ?l)) with (None :: timeline l).
    rewrite !timeline_app, Hsent, Hlater.
    replace (i <? fragments) with true
      by (symmetry; apply Z.ltb_lt; lia).
    reflexivity.
Qed.

(** X26.  With a positive fragment size, [Send] calls [sendPacket] once
    for each fragment and sleeps 16 ms after every call but the last:
    the calls and the pauses alternate, starting and ending with a
    call. *)
Theorem Send_pauses_between_fragments ps connection packet now :
  0 < FragmentSize ps ->
  exists connection' events,
    Send ps connection (IsPRUDP packet) now = Returns (connection', events)
    /\ timeline events
       = concat (replicate
                   (Z.to_nat (len (Payload packet) / FragmentSize ps))
                   [None; Some 16])
         ++ [None].
Proof.
  intros Hsz.
  assert (Hk : 0 <= len (Payload packet) / FragmentSize ps).
  { apply Z.div_pos; unfold len; lia. }
  unfold Send.
  replace (FragmentSize ps =? 0) with false
    by (symmetry; apply Z.eqb_neq; lia).
  cbn [mbind outcome_bind mret outcome_ret].
  rewrite Z.quot_div_nonneg by (unfold len; lia).
  replace (Z.to_nat (len (Payload packet) / FragmentSize ps + 1))
    with (S (Z.to_nat (len (Payload packet) / FragmentSize ps))) by lia.
  apply Send_loop_timeline; [assumption | lia | lia].
Qed.

(** X27.  With a fragment size of zero or less, [Send] of a PRUDP packet
    sends nothing: it panics, or it returns without one call of
    [sendPacket] and with the connection as it was.  A fragment size of
    zero always panics. *)
Theorem Send_nonpositive_fragment_size ps connection packet now :
  FragmentSize ps <= 0 ->
  (panics (Send ps connection (IsPRUDP packet) now)
   \/ Send ps connection (IsPRUDP packet) now = Returns (connection, []))
  /\ (FragmentSize ps = 0 ->
      Send ps connection (IsPRUDP packet) now
      = Panics "integer divide by zero").
Proof.
  intros Hsz. split.
  2: { intros H0. unfold Send. now rewrite H0. }
  unfold Send.
  destruct (Z.eqb_spec (FragmentSize ps) 0) as [H0 | Hne].
  { left. eexists. reflexivity. }
  cbn [mbind outcome_bind mret outcome_ret].
  assert (Hq : Z.quot (len (Payload packet)) (FragmentSize ps) <= 0).
  { replace (FragmentSize ps) with (- - FragmentSize ps) by lia.
    rewrite Z.quot_opp_r by lia.
    pose proof (Z.quot_pos (len (Payload packet)) (- FragmentSize ps)
                  ltac:(unfold len; lia) ltac:(lia)).
    lia. }
  destruct (Z.to_nat (Z.quot (len (Payload packet)) (FragmentSize ps) + 1))
    as [| n] eqn:Hn.
  - right. reflexivity.
  - left. cbn [Send_loop]. unfold nextFragment.
    replace (_ <? FragmentSize ps) with false
      by (symmetry; apply Z.ltb_ge; unfold len; lia).
    unfold slice_to, slice.
    replace (0 <=? FragmentSize ps) with false
      by (symmetry; apply Z.leb_gt; lia).
    cbn. eexists. reflexivity.
Qed.


(** X29.  An unreliable packet that is not an acknowledgement gets its
    sequence id by its type: a DATA packet the next value of the
    connection's unreliable counter, a PING packet the next value of the
    ping counter (and the connection's last ping time becomes the time of
    the call), every other type the sequence id 0 with both counters
    left alone.  No sliding window changes. *)
Theorem sendPacket_unreliable_sequence_id ps connection packet now :
  HasFlag packet PacketFlagAck = false ->
  HasFlag packet PacketFlagMultiAck = false ->
  HasFlag packet PacketFlagReliable = false ->
  forall connection' out events,
    sendPacket ps connection packet now = ((connection', out), events) ->
    slidingWindows connection' = slidingWindows connection
    /\ match Type_ packet with
       | DataPacket =>
           (sequenceID out, outgoingUnreliableSequenceIDCounter connection')
           = Counter_Next (outgoingUnreliableSequenceIDCounter connection)
           /\ outgoingPingSequenceIDCounter connection'
              = outgoingPingSequenceIDCounter connection
           /\ lastSentPingTime connection' = lastSentPingTime connection
       | PingPacket =>
           (sequenceID out, outgoingPingSequenceIDCounter connection')
           = Counter_Next (outgoingPingSequenceIDCounter connection)
           /\ outgoingUnreliableSequenceIDCounter connection'
              = outgoingUnreliableSequenceIDCounter connection
           /\ lastSentPingTime connection' = now
       | _ => sequenceID out = 0 /\ connection' = connection
       end.
Proof.
  intros Hack Hmulti Hrel connection' out events.
  unfold sendPacket, assignSequenceID, transformPayload.
  unfold HasFlag in *.
  rewrite Hack, Hmulti, Hrel. cbn [negb andb].
  unfold Type_.
  destruct (packetType packet) eqn:Htype;
    repeat match goal with
    | |- context [bool_decide (?a = ?b)] =>
        first [ rewrite (bool_decide_eq_true_2 (a = b)) by reflexivity
              | rewrite (bool_decide_eq_false_2 (a = b)) by discriminate ]
    end;
    try destruct (Counter_Next _) as [id ctr] eqn:Hnext;
    cbn [SetSessionID SetSequenceID packetType flags HasFlag Type_];
    repeat match goal with
    | |- context [bool_decide (?a = ?b)] =>
        first [ rewrite (bool_decide_eq_true_2 (a = b)) by assumption
              | rewrite (bool_decide_eq_false_2 (a = b))
                  by (rewrite Htype; discriminate) ]
    end;
    rewrite ?Hack, ?Hmulti, ?Hrel; cbn [negb andb];
    try destruct (negb (Version _ =? 2));
    destruct (LegacyConnectionSignature _);
    cbn [HasFlag flags setSentAt incrementSendCount setSignature SetPayload
         SetSessionID SetSequenceID];
    rewrite ?Hrel; cbn [andb];
    intros [= <- <- <-]; repeat split; reflexivity.
Qed.


End ServerMore.

(** *** Runs of the outbound path on the server of [Demo] *)

Section ServerMoreRuns.
Import GoInt GoRuntime PRUDP.

Lemma BindPRUDPEndPoint_first_binding_stays_witness :
  Endpoints Demo.server !! 1 = Some (mkEndPoint 1 (Some 0%nat) [])
  /\ fst (BindPRUDPEndPoint Demo.server Demo.endpoint1') = Demo.server.
Proof.
  destruct (BindPRUDPEndPoint_first_binding_stays
              (C := Demo.collaborators) (NewPRUDPServer 0%nat)
              Demo.endpoint1 Demo.endpoint1')
    as (Hbound & _ & _ & Hstays); [reflexivity | reflexivity |].
  split; [exact Hbound | exact Hstays].
Defined.

Lemma Send_pauses_between_fragments_witness :
  exists connection' events,
    Send Demo.server Demo.connection
      (IsPRUDP (Demo.dataPacket PRUDPPacketV1 1 1 (replicate 3900 Byte.x00)))
      0
    = Returns (connection', events)
    /\ timeline events
       = [None; Some 16; None; Some 16; None; Some 16; None].
Proof.
  destruct (Send_pauses_between_fragments Demo.server Demo.connection
              (Demo.dataPacket PRUDPPacketV1 1 1 (replicate 3900 Byte.x00)) 0)
    as (connection' & events & Hrun & Htimeline).
  - vm_compute. reflexivity.
  - exists connection', events. split; [exact Hrun |].
    etransitivity; [exact Htimeline | vm_compute; reflexivity].
Defined.

Lemma Send_nonpositive_fragment_size_witness :
  Send (SetFragmentSize Demo.server 0) Demo.connection
    (IsPRUDP (Demo.dataPacket PRUDPPacketV1 1 1 [Byte.x01])) 0
  = Panics "integer divide by zero".
Proof.
  destruct (Send_nonpositive_fragment_size (SetFragmentSize Demo.server 0)
              Demo.connection
              (Demo.dataPacket PRUDPPacketV1 1 1 [Byte.x01]) 0)
    as (_ & Hzero).
  - vm_compute. discriminate.
  - apply Hzero. reflexivity.
Defined.

(** A negative fragment size: one byte to send, and a panic on the first
    slice. *)
Example Send_negative_fragment_size :
  Send (SetFragmentSize Demo.server (-4)) Demo.connection
    (IsPRUDP (Demo.dataPacket PRUDPPacketV1 1 1 [Byte.x01])) 0
  = Panics "slice bounds out of range"
  /\ Send (SetFragmentSize Demo.server (-4)) Demo.connection
       (IsPRUDP (Demo.dataPacket PRUDPPacketV1 1 1 (replicate 8 Byte.x01))) 0
     = Returns (Demo.connection, []).
Proof. split; reflexivity. Qed.


Lemma sendPacket_unreliable_sequence_id_witness :
  let ping :=
    mkPacket PRUDPPacketV1 PingPacket (fun _ => false)
      (mkPort 10 1) (mkPort 10 1) 0 42 0 0 [] [] 0 0 in
  let result := sendPacket Demo.server Demo.connection ping 5 in
  sequenceID result.1.2 = 1
  /\ outgoingPingSequenceIDCounter result.1.1 = 1
  /\ outgoingUnreliableSequenceIDCounter result.1.1 = 0
  /\ lastSentPingTime result.1.1 = 5.
Proof.
  intros ping result.
  destruct (sendPacket_unreliable_sequence_id Demo.server Demo.connection
              ping 5 eq_refl eq_refl eq_refl result.1.1 result.1.2 result.2
              eq_refl)
    as (_ & Hnext & Hother & Htime).
  split; [exact (f_equal fst Hnext) |].
  split; [exact (f_equal snd Hnext) |].
  split; [exact Hother | exact Htime].
Defined.


End ServerMoreRuns.
